(** * Web_Modeler: interaction templates, the model compiler and the
      simulation buffer of [System] (system.js)

    The development embeds the JavaScript of the latest revision of the
    module: [Species], [Rule], [Parameter], [InteractionDefinition],
    [Interaction], [Simulation], [Config] and the [System] object.  Of the
    earlier revision it embeds the [Simulation] constructor, [simulate] and
    the substitution loop of [Interaction], under names ending in
    [_legacy].

    Conventions of the embedding.
    - A JavaScript number is an IEEE 754 binary64 value: [float].
    - A JavaScript object used as a dictionary is an association list in
      insertion order, which is the order of [Object.keys] and of [for..in]
      for property names that are not array indices.  A statement about
      the place of a new key assumes that its name is not [integer_like].
      No identifier of a species, parameter or rule variable is the name
      of a property inherited from [Object.prototype].
    - An array is a [list]; [undefined] entries are [None].
    - An exception is a value: [Throw e] for code that only computes, and
      [Abrupt e s] for a method that mutates, where [s] is the state of the
      receiver at the moment the exception leaves the method.
    - math.js and numeric.js are outside the module.  Parsing, printing and
      evaluating expression trees and the ODE integrator are operations of
      the classes [ExpressionService] and [Integrator]; the parser object
      that [addParameter] calls is an operation of [ParserService].
    - Expression trees are values, except in the module [Heap], which
      models the constructor of [Interaction] on node objects and
      references, where the code renames nodes in place. *)

From Stdlib Require Import Floats.PrimFloat.
From Stdlib Require Import Strings.Ascii.
From stdpp Require Import base option list strings gmap.

Local Open Scope string_scope.
Local Open Scope list_scope.

Abbreviation num := float.

(** [undefined] read as a number is [NaN]. *)
Definition to_num (v : option num) : num := default nan v.

(** ** Exceptions *)

Inductive Error :=
| TypeError
| SyntaxError
| LibraryError (what : string).

Inductive result (A : Type) :=
| Ok (a : A)
| Throw (e : Error).
Arguments Ok {A} a.
Arguments Throw {A} e.

#[global] Instance result_ret : MRet result := fun A a => Ok a.
#[global] Instance result_bind : MBind result :=
  fun A B f m => match m with Ok a => f a | Throw e => Throw e end.

(** [l.map(f)] where [f] may throw: the first exception wins. *)
Fixpoint traverse_list {A B} (f : A -> result B) (l : list A) : result (list B) :=
  match l with
  | [] => Ok []
  | a :: l' => b ← f a; bs ← traverse_list f l'; Ok (b :: bs)
  end.

(** A method of a mutable receiver of type [St]. *)
Inductive completion (St A : Type) :=
| Normal (a : A) (s : St)
| Abrupt (e : Error) (s : St).
Arguments Normal {St A} a s.
Arguments Abrupt {St A} e s.

Definition and_then {St A B} (c : completion St A) (k : A -> St -> completion St B)
  : completion St B :=
  match c with
  | Normal a s => k a s
  | Abrupt e s => Abrupt e s
  end.

(** [for (x in l) body], the body mutating the receiver. *)
Fixpoint for_each {St A} (l : list A) (body : A -> St -> completion St unit) (s : St)
  : completion St unit :=
  match l with
  | [] => Normal tt s
  | a :: l' => and_then (body a s) (fun _ => for_each l' body)
  end.

(** ** Arrays *)

(** [l.indexOf(x)]; [None] stands for -1. *)
Fixpoint index_where {A} (p : A -> bool) (l : list A) : option nat :=
  match l with
  | [] => None
  | a :: l' => if p a then Some 0 else S <$> index_where p l'
  end.

Definition indexOf (l : list string) (x : string) : option nat :=
  index_where (String.eqb x) l.

(** Strict equality of numbers: [NaN] is not equal to itself. *)
Definition indexOf_num (l : list num) (x : num) : option nat :=
  index_where (PrimFloat.eqb x) l.

Definition includes (l : list string) (x : string) : bool :=
  bool_decide (indexOf l x <> None).

(** [l[i] = v]: past the end the array grows, the gap filled with [hole]. *)
Definition array_set {A} (hole : A) (l : list A) (i : nat) (v : A) : list A :=
  if decide (i < length l) then <[i := v]> l
  else l ++ replicate (i - length l) hole ++ [v].

(** [keys[i]] used as a property name: [undefined] names the property
    "undefined". *)
Definition key_at (keys : list string) (i : nat) : string :=
  default "undefined" (keys !! i).

(** ** Objects as dictionaries *)

Definition obj (V : Type) := list (string * V).

(** The canonical decimal numerals: "0", "7", "12", but not the empty
    name, "07" or "1e3".  [Object.keys] and [for..in] list the properties
    with such a name (the array indices, which are the numerals below
    2^32 - 1) before the others and in ascending numeric order, whatever
    the order in which they were created. *)
Definition is_digit (c : ascii) : bool :=
  Nat.leb 48 (nat_of_ascii c) && Nat.leb (nat_of_ascii c) 57.

Fixpoint all_digits (s : string) : bool :=
  match s with
  | EmptyString => true
  | String c s' => is_digit c && all_digits s'
  end.

Definition integer_like (k : string) : bool :=
  match k with
  | EmptyString => false
  | String c EmptyString => is_digit c
  | String c rest => is_digit c && negb (Ascii.eqb c "0") && all_digits rest
  end.

Definition none_integer_like (names : list string) : bool :=
  forallb (fun k => negb (integer_like k)) names.

Module Obj.

Definition keys {V} (o : obj V) : list string := map fst o.

Fixpoint get {V} (o : obj V) (k : string) : option V :=
  match o with
  | [] => None
  | (k', v) :: o' => if String.eqb k' k then Some v else get o' k
  end.

(** [o[k] = v]: an existing property keeps its place, and a new one goes
    last, which is where [Object.keys] lists a new property whose name is
    not [integer_like]. *)
Fixpoint set {V} (o : obj V) (k : string) (v : V) : obj V :=
  match o with
  | [] => [(k, v)]
  | (k', v') :: o' =>
      if String.eqb k' k then (k, v) :: o' else (k', v') :: set o' k v
  end.

Definition wf {V} (o : obj V) : Prop := NoDup (keys o).

End Obj.

(** ** Expression trees (math.js nodes) *)

Set Warnings "-register-all".

Inductive Node :=
| ConstantNode (value : string)
| SymbolNode (name : string)
| OperatorNode (op fn : string) (args : list Node)
| FunctionNode (name : string) (args : list Node).

Definition is_SymbolNode (n : Node) : bool :=
  match n with SymbolNode _ => true | _ => false end.

(** [node.name] *)
Definition Node_name (n : Node) : string :=
  match n with
  | SymbolNode x => x
  | FunctionNode f _ => f
  | _ => "undefined"
  end.

(** [node.traverse]: the node itself, then its children from left to
    right, depth first. *)
Fixpoint traverse (n : Node) : list Node :=
  n :: match n with
       | OperatorNode _ _ args => flat_map traverse args
       | FunctionNode _ args => flat_map traverse args
       | _ => []
       end.

(** [node.filter(callback)] *)
Definition Node_filter (callback : Node -> bool) (n : Node) : list Node :=
  List.filter callback (traverse n).

(** Modelled from the spec: [Node.clone] of the expression-tree service,
    which the spec requires to be a deep copy.  As a tree value a copy is
    the tree itself. *)
Definition clone (n : Node) : Node := n.

(** The services of math.js used by the module. *)
Class ExpressionService := {
  (** [math.parse(text)] *)
  parse : string -> result Node;
  (** [node.toString()] *)
  toString : Node -> string;
  (** [node.compile(math).eval(scope)] *)
  eval : Node -> gmap string num -> result num
}.

(** ** Rules and interaction definitions *)

Record Rule := {
  rule_name : option string;
  expression : option Node
}.

(** [new Rule()] *)
Definition new_Rule : Rule := {| rule_name := None; expression := None |}.

(** [rule.set(expression, name)] *)
Definition Rule_set {expr : ExpressionService} (text : string) (name : option string)
  : result Rule :=
  e ← parse text; Ok {| rule_name := name; expression := Some e |}.

(** An [InteractionDefinition]; an [Interaction] instance is an object of
    the same shape ([subclass(Interaction, InteractionDefinition)]).  The
    back reference to the owning system is not a field of the embedding:
    the system is passed where the code reads [this.system]. *)
Record InteractionDefinition := {
  def_name : string;
  rules : obj Rule
}.

(** [new InteractionDefinition(system, name, species)]: one empty Rule per
    listed variable. *)
Definition new_InteractionDefinition (name : string) (species : list string)
  : InteractionDefinition :=
  {| def_name := name;
     rules := foldl (fun rs v => Obj.set rs v new_Rule) [] species |}.

(** [variables()] *)
Definition variables (d : InteractionDefinition) : list string :=
  Obj.keys (rules d).

(** The callback of the filter in [parameters()]. *)
Definition is_new_parameter (variables parameters : list string) (node : Node) : bool :=
  is_SymbolNode node
  && negb (includes variables (Node_name node))
  && negb (includes parameters (Node_name node)).

(** [parameters()] *)
Definition parameters_of (d : InteractionDefinition) : list string :=
  let variables := variables d in
  foldl (fun parameters r_id =>
           match Obj.get (rules d) r_id ≫= expression with
           | Some e =>
               let p_nodes := Node_filter (is_new_parameter variables parameters) e in
               let p_names := map Node_name p_nodes in
               parameters ++ p_names
           | None => parameters
           end)
        [] (Obj.keys (rules d)).

(** ** Species, parameters and the system *)

Record Species := {
  sp_name : option string;
  value : num;
  rate_law : Rule
}.

(** [new Species(initial_value, name)] *)
Definition new_Species (initial_value : num) (name : option string) : Species :=
  {| sp_name := name; value := initial_value; rate_law := new_Rule |}.

(** The class [Parameter] of the source. *)
Record Param := {
  par_value : num;
  par_name : option string
}.

(** An entry of [System.model]: a hole of the array, [null], or the
    evaluator compiled from an expression tree. *)
Inductive Slot :=
| Hole
| Null
| Compiled (code : Node).

Record Config := {
  refresh_rate : num;
  buffer_size : num;
  t_scale : num
}.

Record System := {
  config : Config;
  species : obj Species;
  parameters : obj Param;
  interactions : obj InteractionDefinition;
  _interactions : list InteractionDefinition;
  model : list Slot
}.

Definition set_species (S : System) (sp : obj Species) : System :=
  {| config := config S; species := sp; parameters := parameters S;
     interactions := interactions S; _interactions := _interactions S;
     model := model S |}.

Definition set_model (S : System) (m : list Slot) : System :=
  {| config := config S; species := species S; parameters := parameters S;
     interactions := interactions S; _interactions := _interactions S;
     model := m |}.

Definition set__interactions (S : System) (l : list InteractionDefinition) : System :=
  {| config := config S; species := species S; parameters := parameters S;
     interactions := interactions S; _interactions := l;
     model := model S |}.

Definition set_expression (r : Rule) (e : option Node) : Rule :=
  {| rule_name := rule_name r; expression := e |}.

Definition set_rate_law_expression (sp : Species) (e : option Node) : Species :=
  {| sp_name := sp_name sp; value := value sp;
     rate_law := set_expression (rate_law sp) e |}.

Definition set_value (sp : Species) (v : num) : Species :=
  {| sp_name := sp_name sp; value := v; rate_law := rate_law sp |}.

(** [addSpecies(identifier, initial_value, name)] *)
Definition addSpecies (identifier : string) (initial_value : num)
    (name : option string) (S : System) : System :=
  let S1 := set_species S (Obj.set (species S) identifier (new_Species initial_value name)) in
  set_model S1 (array_set Hole (model S1) (length (Obj.keys (species S1)) - 1) Null).

(** ** Instantiating an interaction *)

(** The symbol table of an instance: [symbol_table[ids[i]] = args[i]] for
    every index of [args]. *)
Definition bind_symbols (symbol_table : gmap string string) (ids args : list string)
  : gmap string string :=
  foldl (fun tbl '(i, arg) => <[key_at ids i := arg]> tbl) symbol_table
        (imap pair args).

(** The renaming loop over the SymbolNodes of a tree: a node whose name
    is a key of the table takes the bound name. *)
Fixpoint substitute (symbol_table : gmap string string) (n : Node) : Node :=
  match n with
  | ConstantNode v => ConstantNode v
  | SymbolNode x => SymbolNode (default x (symbol_table !! x))
  | OperatorNode op fn args => OperatorNode op fn (map (substitute symbol_table) args)
  | FunctionNode f args => FunctionNode f (map (substitute symbol_table) args)
  end.

(** Loops whose body may throw before anything is stored. *)
Fixpoint for_result {A St} (l : list A) (body : A -> St -> result St) (s : St)
  : result St :=
  match l with
  | [] => Ok s
  | a :: l' => s' ← body a s; for_result l' body s'
  end.

(** Every argument is a key of the registry. *)
Definition all_registered {V} (registry : obj V) (args : list string) : bool :=
  forallb (includes (Obj.keys registry)) args.

Section Methods.
Context {expr : ExpressionService}.

(** One turn of the loop "Clone the Rule expressions" of [Interaction]:
    the [i_r]-th rule of the instance is set from the printed expression of
    the [i_r]-th rule of the definition. *)
Definition copy_rule (base : InteractionDefinition) (i_r : nat) (this_rules : obj Rule)
  : result (obj Rule) :=
  match Obj.get (rules base) (key_at (Obj.keys (rules base)) i_r) with
  | None => Throw TypeError
  | Some old_rule =>
      match expression old_rule with
      | None => Ok this_rules
      | Some e =>
          let r_id := key_at (Obj.keys this_rules) i_r in
          match Obj.get this_rules r_id with
          | None => Throw TypeError
          | Some new_rule =>
              new_rule' ← Rule_set (toString e) None;
              Ok (Obj.set this_rules r_id new_rule')
          end
      end
  end.

(** [new Interaction(base, v_args, p_args)].  A bare [return] in the
    constructor yields the object built so far. *)
Definition Interaction (system : System) (base : InteractionDefinition)
    (v_args p_args : list string) : result InteractionDefinition :=
  let this := new_InteractionDefinition (def_name base) v_args in
  this_rules ← for_result (seq 0 (length (Obj.keys (rules base))))
                          (copy_rule base) (rules this);
  let this := {| def_name := def_name this; rules := this_rules |} in
  let v_ids := variables base in
  let p_ids := parameters_of base in
  if negb (all_registered (species system) v_args) then Ok this
  else if negb (all_registered (parameters system) p_args) then Ok this
  else if negb (Nat.eqb (length v_args) (length v_ids)) then Ok this
  else if negb (Nat.eqb (length p_args) (length p_ids)) then Ok this
  else
    let symbol_table := bind_symbols (bind_symbols ∅ v_ids v_args) p_ids p_args in
    Ok {| def_name := def_name this;
          rules := map (fun '(r_id, r) =>
                          (r_id, set_expression r (substitute symbol_table <$> expression r)))
                       this_rules |}.

(** [addInteraction(id, v_args, p_args)] *)
Definition addInteraction (id : string) (v_args p_args : list string) (S : System)
  : completion System unit :=
  match Obj.get (interactions S) id with
  | None => Abrupt TypeError S
  | Some base_definition =>
      match Interaction S base_definition v_args p_args with
      | Throw e => Abrupt e S
      | Ok i => Normal tt (set__interactions S (_interactions S ++ [i]))
      end
  end.

(** ** The model compiler *)

(** First loop of [compile]: [species[sp].rate_law.expression = null]. *)
Definition reset_rate_law (sp : string) (S : System) : completion System unit :=
  match Obj.get (species S) sp with
  | None => Abrupt TypeError S
  | Some s => Normal tt (set_species S (Obj.set (species S) sp (set_rate_law_expression s None)))
  end.

(** Body of the inner loop of [compile] for one participant of one
    interaction. *)
Definition add_term (interaction : InteractionDefinition) (participant_id : string)
    (S : System) : completion System unit :=
  let participant := Obj.get (species S) participant_id in
  match Obj.get (rules interaction) participant_id with
  | None => Abrupt TypeError S
  | Some rule =>
      match expression rule with
      | None => Normal tt S
      | Some e =>
          match participant with
          | None => Abrupt TypeError S
          | Some p =>
              let rate :=
                match expression (rate_law p) with
                | None => clone e
                | Some previous => OperatorNode "+" "add" [previous; clone e]
                end in
              Normal tt (set_species S
                (Obj.set (species S) participant_id (set_rate_law_expression p (Some rate))))
          end
      end
  end.

Definition add_terms (interaction : InteractionDefinition) (S : System)
  : completion System unit :=
  for_each (variables interaction) (add_term interaction) S.

(** The evaluator stored for a species: its compiled rate law, or the
    compiled text "0" when the rate law is unset. *)
Definition compiled_rate_law (s : Species) : result Slot :=
  match expression (rate_law s) with
  | Some e => Ok (Compiled e)
  | None => e ← parse "0"; Ok (Compiled e)
  end.

(** Last loop of [compile]: the slot of the species, found by its index
    among the keys. *)
Definition compile_species (sp : string) (S : System) : completion System unit :=
  match indexOf (Obj.keys (species S)) sp, Obj.get (species S) sp with
  | Some i_sp, Some s =>
      match compiled_rate_law s with
      | Ok slot => Normal tt (set_model S (array_set Hole (model S) i_sp slot))
      | Throw e => Abrupt e S
      end
  | _, _ => Abrupt TypeError S
  end.

(** [compile()] *)
Definition compile (S : System) : completion System unit :=
  and_then (for_each (Obj.keys (species S)) reset_rate_law S) (fun _ S =>
  and_then (for_each (_interactions S) add_terms S) (fun _ S =>
  for_each (Obj.keys (species S)) compile_species S)).

(** ** The derivative function *)

(** The two loops that build the scope of [dY]:
    [scope[species_ids[i_y]] = y[i_y]] for every index of [y], then
    [scope[p] = system.parameters[p].value] for every parameter. *)
Definition bind_state (species_ids : list string) (scope : gmap string num)
    (entries : list (nat * num)) : gmap string num :=
  foldl (fun scope '(i_y, v) => <[key_at species_ids i_y := v]> scope) scope entries.

Definition bind_parameters (pars : obj Param) (scope : gmap string num)
    (ps : list string) : gmap string num :=
  foldl (fun scope p =>
           match Obj.get pars p with
           | Some par => <[p := par_value par]> scope
           | None => scope
           end) scope ps.

Definition dY_scope (system : System) (y : list num) : gmap string num :=
  let species_ids := Obj.keys (species system) in
  let scope := bind_state species_ids ∅ (imap pair y) in
  bind_parameters (parameters system) scope (Obj.keys (parameters system)).

(** [system.model[i_y].eval(scope)] *)
Definition eval_slot (system : System) (scope : gmap string num) (i_y : nat)
  : result num :=
  match model system !! i_y with
  | Some (Compiled e) => eval e scope
  | _ => Throw TypeError
  end.

(** [dY(t, y, [system])] *)
Definition dY (t : num) (y : list num) (system : System) : result (list num) :=
  let scope := dY_scope system y in
  traverse_list (eval_slot system scope) (seq 0 (length y)).

End Methods.

(** ** Rate laws as sums of terms

    The terms an instance contributes, as [compile] meets them: one pair
    (variable, expression) for each variable of the instance whose rule has
    an expression, in the order of the variables. *)
Definition contributions (interaction : InteractionDefinition) : list (string * Node) :=
  omap (fun id => e ← Obj.get (rules interaction) id ≫= expression; Some (id, e))
       (variables interaction).

(** The terms contributed to one species by the live instances, in
    registration order. *)
Definition terms_for (S : System) (sp : string) : list Node :=
  map snd (List.filter (fun c => String.eqb c.1 sp)
                       (flat_map contributions (_interactions S))).

(** [t1 + t2 + ... + tn], associated to the left; unset for no term. *)
Definition sum_of_terms (ts : list Node) : option Node :=
  match ts with
  | [] => None
  | t :: ts => Some (foldl (fun previous t => OperatorNode "+" "add" [previous; t]) t ts)
  end.

(** ** Simulations *)

(** An entry of a trajectory: a number, or [undefined]. *)
Abbreviation sample := (option num).

(** The object returned by [numeric.dopri]: the time points [x] and one
    state vector per time point in [y]. *)
Record Solution := {
  sol_x : list num;
  sol_y : list (list num)
}.

(** [numeric.dopri(t0, tf, y0, f, 1e-6, 10000, event, [system])]; the
    tolerance, the iteration bound and the event function are the same
    constants at both call sites. *)
Class Integrator := {
  dopri : num -> num -> list sample ->
          (num -> list num -> result (list num)) -> result Solution
}.

(** [numeric.transpose(x)]: as many rows as [x[0]] has entries, row [j]
    collecting entry [j] of every row of [x]; [x[0].length] throws on an
    empty matrix. *)
Definition transpose (x : list (list num)) : result (list (list sample)) :=
  match x with
  | [] => Throw TypeError
  | x0 :: _ => Ok (map (fun j => map (fun row => row !! j) x) (seq 0 (length x0)))
  end.

(** [a.concat(v)]: an array argument is appended entry by entry, any other
    value as one entry. *)
Definition js_concat (a : list sample) (v : option (list sample)) : list sample :=
  match v with
  | Some b => a ++ b
  | None => a ++ [None]
  end.

(** [Array(n)] *)
Definition Array (n : nat) : list sample := replicate n None.

(** [l.sort()] on strings. *)
Fixpoint sort_insert (x : string) (l : list string) : list string :=
  match l with
  | [] => [x]
  | y :: l' => if String.leb x y then x :: l else y :: sort_insert x l'
  end.

Definition js_sort (l : list string) : list string := foldr sort_insert [] l.

Record Simulation := {
  time : list num;
  trajectory : obj (option (list sample))
}.

(** [simulation.trajectory[id]], [undefined] when the property is absent. *)
Definition trajectory_of (s : Simulation) (id : string) : option (list sample) :=
  mjoin (Obj.get (trajectory s) id).

Definition set_trajectory (s : Simulation) (tr : obj (option (list sample))) : Simulation :=
  {| time := time s; trajectory := tr |}.

(** The first argument of the [Simulation] constructor as the call sites
    pass it: [null], a system, or an array of species ids. *)
Inductive SimulationArg :=
| NoSystem
| TheSystem (S : System)
| SpeciesIds (ids : list string).

(** [system.species] of that argument; an array has no such property and
    [for..in] over [undefined] runs no turn. *)
Definition arg_species (system : SimulationArg) : obj Species :=
  match system with
  | TheSystem sys => species sys
  | _ => []
  end.

(** [new Simulation(system, solution)] *)
Definition new_Simulation (system : SimulationArg) (solution : option Solution)
  : result Simulation :=
  let time0 := match solution with Some sol => sol_x sol | None => [0%float] end in
  match system with
  | NoSystem => Ok {| time := time0; trajectory := [] |}
  | _ =>
      let sp := arg_species system in
      match solution with
      | Some sol =>
          y ← transpose (sol_y sol);
          Ok {| time := time0;
                trajectory :=
                  foldl (fun tr id => Obj.set tr id (indexOf (Obj.keys sp) id ≫= (y !!.)))
                        [] (Obj.keys sp) |}
      | None =>
          Ok {| time := time0;
                trajectory :=
                  foldl (fun tr id =>
                           Obj.set tr id ((fun s => [Some (value s)]) <$> Obj.get sp id))
                        [] (Obj.keys sp) |}
      end
  end.

(** [trim(buffer_size)] *)
Definition trim_trajectory (i_t0 : nat) (id_tr : string) (s : Simulation)
  : completion Simulation unit :=
  match i_t0 with
  | 0 => Normal tt s
  | _ =>
      match trajectory_of s id_tr with
      | Some tr => Normal tt (set_trajectory s (Obj.set (trajectory s) id_tr (Some (drop i_t0 tr))))
      | None => Abrupt TypeError s
      end
  end.

Definition trim (buffer_size : num) (s : Simulation) : completion Simulation unit :=
  let t0 := (to_num (last (time s)) - buffer_size)%float in
  let i_t0 := default 0 (indexOf_num (time s) t0) in
  let s1 := {| time := drop i_t0 (time s); trajectory := trajectory s |} in
  for_each (Obj.keys (trajectory s1)) (trim_trajectory i_t0) s1.

(** [concat(other_simulation)] *)
Definition union_of (combined_species : list string) : result (list string) :=
  match combined_species with
  | [] => Throw TypeError
  | sp0 :: rest =>
      Ok (sp0 :: map snd (List.filter (fun '(sp1, sp2) => negb (String.eqb sp2 sp1))
                                      (zip combined_species rest)))
  end.

Definition concat_trajectory (this other : Simulation) (id : string)
  : option (list sample) :=
  match trajectory_of this id, trajectory_of other id with
  | None, theirs => Some (js_concat (Array (length (time this))) theirs)
  | Some ours, None => Some (js_concat ours (Some (Array (length (time other)))))
  | Some ours, Some theirs => Some (js_concat ours (Some theirs))
  end.

Definition concat (this other_simulation : Simulation) : result Simulation :=
  let these_species := Obj.keys (trajectory this) in
  let those_species := Obj.keys (trajectory other_simulation) in
  let combined_species := js_sort (these_species ++ those_species) in
  union ← union_of combined_species;
  let concatenated_trajectory :=
    foldl (fun tr id => Obj.set tr id (concat_trajectory this other_simulation id))
          [] union in
  let tf := to_num (last (time this)) in
  let concatenated_time :=
    time this ++ map (fun t => (t + tf)%float) (time other_simulation) in
  Ok {| time := concatenated_time; trajectory := concatenated_trajectory |}.

(** The dose buttons of the demonstration page (diabetes.js):
    [rt.trajectory[id][len - 1] = rt.trajectory[id][len - 1] + dose] with
    [len = rt.time.length].  For [len = 0] the assignment sets the property
    "-1", which is no entry of the array. *)
Definition perturb (id : string) (dose : num) (s : Simulation)
  : completion Simulation unit :=
  match trajectory_of s id with
  | None => Abrupt TypeError s
  | Some tr =>
      match length (time s) with
      | 0 => Normal tt s
      | S i =>
          let v := (to_num (mjoin (tr !! i)) + dose)%float in
          Normal tt (set_trajectory s
            (Obj.set (trajectory s) id (Some (array_set None tr i (Some v)))))
      end
  end.

(** The state of the receiver when a method is left, normally or not. *)
Definition final_state {St A} (c : completion St A) : St :=
  match c with
  | Normal _ s => s
  | Abrupt _ s => s
  end.

Section Driver.
Context {expr : ExpressionService} {ode : Integrator}.

(** First loop of [simulate]: the slot of the [i_sp]-th species. *)
Definition simulate_species (entry : nat * string) (S : System)
  : completion System unit :=
  let '(i_sp, sp) := entry in
  match Obj.get (species S) sp with
  | None => Abrupt TypeError S
  | Some s =>
      match compiled_rate_law s with
      | Ok slot => Normal tt (set_model S (array_set Hole (model S) i_sp slot))
      | Throw e => Abrupt e S
      end
  end.

(** The vector of the current values, in the order of the keys. *)
Definition initial_values (S : System) : list sample :=
  map (fun sp => value <$> Obj.get (species S) sp) (Obj.keys (species S)).

(** Last loop of [simulate]: the value of a species becomes the last
    entry of its trajectory. *)
Definition write_back (simulation : Simulation) (sp : string) (S : System)
  : completion System unit :=
  match trajectory_of simulation sp, Obj.get (species S) sp with
  | Some tr, Some s =>
      Normal tt (set_species S (Obj.set (species S) sp (set_value s (to_num (mjoin (last tr))))))
  | _, _ => Abrupt TypeError S
  end.

(** [simulate(t0, tf)] *)
Definition simulate (t0 tf : num) (S : System) : completion System Simulation :=
  and_then (for_each (imap pair (Obj.keys (species S))) simulate_species S) (fun _ S =>
  match dopri t0 tf (initial_values S) (fun t y => dY t y S) with
  | Throw e => Abrupt e S
  | Ok solution =>
      match new_Simulation (SpeciesIds (Obj.keys (species S))) (Some solution) with
      | Throw e => Abrupt e S
      | Ok simulation =>
          and_then (for_each (Obj.keys (species S)) (write_back simulation) S)
                   (fun _ S => Normal simulation S)
      end
  end).

(** The last entry of a trajectory, read by [update_state]. *)
Definition last_sample (s : Simulation) (id_tr : string) : result sample :=
  match trajectory_of s id_tr with
  | Some tr => Ok (mjoin (last tr))
  | None => Throw TypeError
  end.

(** [update_state(system, config, div)], the plot apart.  Every
    trajectory read by the second loop was read by the first one, which
    throws on an [undefined] one. *)
Definition update_state (system : System) (config : Config) (s : Simulation)
  : completion Simulation unit :=
  match traverse_list (last_sample s) (Obj.keys (trajectory s)) with
  | Throw e => Abrupt e s
  | Ok initial_values =>
      let t_step := (refresh_rate config / 1000 * t_scale config)%float in
      match dopri 0%float t_step initial_values (fun t y => dY t y system) with
      | Throw e => Abrupt e s
      | Ok solution =>
          match transpose (sol_y solution) with
          | Throw e => Abrupt e s
          | Ok y =>
              let keys := Obj.keys (trajectory s) in
              let trajectory' :=
                foldl (fun tr id_tr =>
                         Obj.set tr id_tr
                           (Some (js_concat (default [] (mjoin (Obj.get tr id_tr)))
                                            (indexOf keys id_tr ≫= (y !!.)))))
                      (trajectory s) keys in
              let t_offset := to_num (last (time s)) in
              let time' := time s ++ map (fun t => (t + t_offset)%float) (sol_x solution) in
              let s1 := {| time := time'; trajectory := trajectory' |} in
              let state_history_length := (to_num (last time') - to_num (head time'))%float in
              if PrimFloat.ltb (buffer_size config) state_history_length
              then trim (buffer_size config) s1
              else Normal tt s1
          end
      end
  end.

(** [simulate_in_real_time(div)]: the buffer handed to the timer. *)
Definition simulate_in_real_time (S : System) : result Simulation :=
  new_Simulation (TheSystem S) None.

End Driver.

(** ** The buffer invariant *)

(** Every trajectory is an array as long as [time]. *)
Definition synchronized (s : Simulation) : Prop :=
  Obj.wf (trajectory s)
  /\ forall id tr, Obj.get (trajectory s) id = Some tr ->
       exists l, tr = Some l /\ length l = length (time s).

(** A solution for a state of dimension [n]: one state per time point,
    each of [n] components. *)
Definition well_formed_solution (n : nat) (sol : Solution) : Prop :=
  length (sol_y sol) = length (sol_x sol)
  /\ Forall (fun row => length row = n) (sol_y sol).

(** The integrator returns well-formed solutions when the derivative
    function returns vectors of the dimension of its argument. *)
Definition well_formed_integrator {ode : Integrator} : Prop :=
  forall t0 tf y0 f sol,
    (forall t y dy, f t y = Ok dy -> length dy = length y) ->
    dopri t0 tf y0 f = Ok sol ->
    well_formed_solution (length y0) sol.

(** The simulations a program can hold: the results of the constructor
    (a solution passed with a system being one for that system), of
    [simulate], of [concat] on two of them, and what [update_state], [trim]
    and a dose leave behind, whether they return or throw. *)
Inductive reachable {expr : ExpressionService} {ode : Integrator} : Simulation -> Prop :=
| reachable_new system solution s :
    new_Simulation system solution = Ok s ->
    (forall sys sol, system = TheSystem sys -> solution = Some sol ->
       well_formed_solution (length (species sys)) sol) ->
    reachable s
| reachable_simulate t0 tf sys sys' s :
    simulate t0 tf sys = Normal s sys' ->
    reachable s
| reachable_update_state system config s :
    reachable s ->
    reachable (final_state (update_state system config s))
| reachable_trim buffer_size s :
    reachable s ->
    reachable (final_state (trim buffer_size s))
| reachable_concat s1 s2 s :
    reachable s1 -> reachable s2 ->
    concat s1 s2 = Ok s ->
    reachable s
| reachable_perturb id dose s :
    reachable s ->
    reachable (final_state (perturb id dose s)).

(** ** Node objects and references

    The expression trees above are values.  In the source a tree is made of
    node objects, a rule holds a reference to the root node, and the
    substitution of [Interaction] assigns to [node.name] in place.  The
    module [Heap] models the constructor on a store of node objects, so that
    sharing between the trees of a definition and the trees of its instances
    can be stated. *)

Module Heap.

Abbreviation loc := nat.

(** A node object; its children are references. *)
Inductive cell :=
| CConstant (value : string)
| CSymbol (name : string)
| COperator (op fn : string) (args : list loc)
| CFunction (name : string) (args : list loc).

(** The node objects created so far, in order of creation; a reference is
    the rank of the object. *)
Abbreviation heap := (list cell).

(** The objects created by the parser for a tree: the children first,
    then the node. *)
Fixpoint alloc (n : Node) (h : heap) : heap * loc :=
  match n with
  | ConstantNode v => (h ++ [CConstant v], length h)
  | SymbolNode x => (h ++ [CSymbol x], length h)
  | OperatorNode op fn args =>
      let '(h', ls) :=
        foldl (fun acc a => let '(h1, l) := alloc a acc.1 in (h1, acc.2 ++ [l]))
              (h, []) args in
      (h' ++ [COperator op fn ls], length h')
  | FunctionNode f args =>
      let '(h', ls) :=
        foldl (fun acc a => let '(h1, l) := alloc a acc.1 in (h1, acc.2 ++ [l]))
              (h, []) args in
      (h' ++ [CFunction f ls], length h')
  end.

(** The tree value held at a reference. *)
Fixpoint read (fuel : nat) (h : heap) (l : loc) : option Node :=
  match fuel with
  | 0 => None
  | S fuel =>
      match h !! l with
      | Some (CConstant v) => Some (ConstantNode v)
      | Some (CSymbol x) => Some (SymbolNode x)
      | Some (COperator op fn ls) => OperatorNode op fn <$> mapM (read fuel h) ls
      | Some (CFunction f ls) => FunctionNode f <$> mapM (read fuel h) ls
      | None => None
      end
  end.

(** [node.traverse] on objects: the references met, the node first. *)
Fixpoint node_refs (fuel : nat) (h : heap) (l : loc) : list loc :=
  match fuel with
  | 0 => []
  | S fuel =>
      l :: match h !! l with
           | Some (COperator _ _ ls) => flat_map (node_refs fuel h) ls
           | Some (CFunction _ ls) => flat_map (node_refs fuel h) ls
           | _ => []
           end
  end.

Definition is_symbol_at (h : heap) (l : loc) : bool :=
  match h !! l with Some (CSymbol _) => true | _ => false end.

(** [expression.filter(node => node.type == 'SymbolNode')] *)
Definition symbol_refs (h : heap) (root : loc) : list loc :=
  List.filter (is_symbol_at h) (node_refs (length h) h root).

(** [if (name in symbol_table) node.name = symbol_table[node.name]] *)
Definition rename_node (symbol_table : gmap string string) (h : heap) (l : loc) : heap :=
  match h !! l with
  | Some (CSymbol x) =>
      match symbol_table !! x with
      | Some x' => <[l := CSymbol x']> h
      | None => h
      end
  | _ => h
  end.

(** The substitution loop over the SymbolNodes of one rule. *)
Definition substitute_symbols (symbol_table : gmap string string) (h : heap) (root : loc)
  : heap :=
  foldl (rename_node symbol_table) h (symbol_refs h root).

(** A rule whose expression is a reference to a root node. *)
Record RuleRef := {
  ref_name : option string;
  expression_ref : option loc
}.

Definition new_RuleRef : RuleRef := {| ref_name := None; expression_ref := None |}.

(** An interaction definition, or an instance, whose rules hold
    references. *)
Record DefinitionRef := {
  ref_def_name : string;
  rule_refs : obj RuleRef
}.

(** The rule as a value: the tree its reference holds. *)
Definition rule_value (h : heap) (r : RuleRef) : Rule :=
  {| rule_name := ref_name r;
     expression := expression_ref r ≫= read (length h) h |}.

Definition definition_value (h : heap) (d : DefinitionRef) : InteractionDefinition :=
  {| def_name := ref_def_name d;
     rules := map (fun '(k, r) => (k, rule_value h r)) (rule_refs d) |}.

Section Methods.
Context {expr : ExpressionService}.

(** [rule.set(text)]: the parser creates the nodes of the tree. *)
Definition Rule_set (text : string) (h : heap) : result (heap * RuleRef) :=
  e ← parse text;
  let '(h', root) := alloc e h in
  Ok (h', {| ref_name := None; expression_ref := Some root |}).

(** One turn of the loop "Clone the Rule expressions". *)
Definition copy_rule (base : DefinitionRef) (i_r : nat) (st : heap * obj RuleRef)
  : result (heap * obj RuleRef) :=
  let '(h, this_rules) := st in
  match Obj.get (rule_refs base) (key_at (Obj.keys (rule_refs base)) i_r) with
  | None => Throw TypeError
  | Some old_rule =>
      match expression_ref old_rule with
      | None => Ok st
      | Some root =>
          let r_id := key_at (Obj.keys this_rules) i_r in
          match Obj.get this_rules r_id with
          | None => Throw TypeError
          | Some new_rule =>
              match read (length h) h root with
              | None => Throw TypeError
              | Some e =>
                  '(h', new_rule') ← Rule_set (toString e) h;
                  Ok (h', Obj.set this_rules r_id new_rule')
              end
          end
      end
  end.

(** The substitution loop over the rules of the instance. *)
Definition substitute_rules (symbol_table : gmap string string) (this_rules : obj RuleRef)
    (h : heap) : heap :=
  foldl (fun h '(r_id, r) =>
           match expression_ref r with
           | Some root => substitute_symbols symbol_table h root
           | None => h
           end)
        h this_rules.

(** [new Interaction(base, v_args, p_args)] on node objects. *)
Definition Interaction (system : System) (h : heap) (base : DefinitionRef)
    (v_args p_args : list string) : result (heap * DefinitionRef) :=
  let this_rules := foldl (fun rs v => Obj.set rs v new_RuleRef) [] v_args in
  '(h1, this_rules) ← for_result (seq 0 (length (Obj.keys (rule_refs base))))
                                 (copy_rule base) (h, this_rules);
  let this := {| ref_def_name := ref_def_name base; rule_refs := this_rules |} in
  let v_ids := Obj.keys (rule_refs base) in
  let p_ids := parameters_of (definition_value h1 base) in
  if negb (all_registered (species system) v_args) then Ok (h1, this)
  else if negb (all_registered (parameters system) p_args) then Ok (h1, this)
  else if negb (Nat.eqb (length v_args) (length v_ids)) then Ok (h1, this)
  else if negb (Nat.eqb (length p_args) (length p_ids)) then Ok (h1, this)
  else
    let symbol_table := bind_symbols (bind_symbols ∅ v_ids v_args) p_ids p_args in
    Ok (substitute_rules symbol_table this_rules h1, this).

(** The definitions and the live instances of a system, with the store
    that holds the node objects of their rules. *)
Record Registry := {
  nodes : heap;
  definitions : obj DefinitionRef;
  instances : list DefinitionRef
}.

(** [addInteraction(id, v_args, p_args)] on node objects.  The nodes
    created by a constructor that throws are referenced by nothing. *)
Definition addInteraction (system : System) (id : string) (v_args p_args : list string)
    (reg : Registry) : completion Registry unit :=
  match Obj.get (definitions reg) id with
  | None => Abrupt TypeError reg
  | Some base_definition =>
      match Interaction system (nodes reg) base_definition v_args p_args with
      | Throw e => Abrupt e reg
      | Ok (h', i) =>
          Normal tt {| nodes := h'; definitions := definitions reg;
                       instances := instances reg ++ [i] |}
      end
  end.

(** The earlier revision (system.js): the body of the substitution loop
    for one rule of the definition.  The tree to substitute in is parsed
    from the printed expression of the rule; the rate law of the target
    species becomes a new [+] node over the previous rate law and the
    substituted tree, or a clone of the substituted tree (a deep copy, as the
    spec requires of [clone]). *)
Definition substitute_rule_legacy (symbol_table : gmap string string) (h : heap)
    (root : loc) (rate_law : option loc) : result (heap * loc) :=
  match read (length h) h root with
  | None => Throw TypeError
  | Some e =>
      expression_tree ← parse (toString e);
      let '(h1, tree) := alloc expression_tree h in
      let h2 := substitute_symbols symbol_table h1 tree in
      match rate_law with
      | Some previous => Ok (h2 ++ [COperator "+" "add" [previous; tree]], length h2)
      | None =>
          match read (length h2) h2 tree with
          | Some copy => Ok (alloc copy h2)
          | None => Throw TypeError
          end
      end
  end.

End Methods.

(** The children of a node object. *)
Definition cell_args (c : cell) : list loc :=
  match c with
  | COperator _ _ ls => ls
  | CFunction _ ls => ls
  | _ => []
  end.

(** From reference [lo] on, node objects refer to node objects from [lo]
    on only. *)
Definition closed_from (lo : nat) (h : heap) : Prop :=
  forall l c, lo <= l -> h !! l = Some c -> Forall (fun l' => lo <= l') (cell_args c).

(** [h'] keeps every node object of [h] as it is. *)
Definition extends (h h' : heap) : Prop :=
  length h <= length h' /\ forall l, l < length h -> h' !! l = h !! l.

End Heap.

(** ** Removing instances and species *)

Definition set_parameters (S : System) (pars : obj Param) : System :=
  {| config := config S; species := species S; parameters := pars;
     interactions := interactions S; _interactions := _interactions S;
     model := model S |}.

Definition set_interactions (S : System) (defs : obj InteractionDefinition) : System :=
  {| config := config S; species := species S; parameters := parameters S;
     interactions := defs; _interactions := _interactions S;
     model := model S |}.

(** [delete o[k]] *)
Definition delete_property {V} (o : obj V) (k : string) : obj V :=
  List.filter (fun entry => negb (String.eqb entry.1 k)) o.

(** [l.splice(start, 1)] with the result of an [indexOf] as [start]: -1
    counts from the end of the array and names its last entry; a start past
    the end removes nothing. *)
Definition splice_one {A} (start : option nat) (l : list A) : list A :=
  match start with
  | Some i => delete i l
  | None => delete (length l - 1) l
  end.

(** One turn of the backward loops of [removeInteractionsBySpecies] and
    [removeInteractionsByName]: the instance at index [i__int] is spliced
    out when it is a target.  Reading a property of an [undefined] entry
    throws. *)
Definition remove_if (target : InteractionDefinition -> bool) (i__int : nat) (S : System)
  : completion System unit :=
  match _interactions S !! i__int with
  | None => Abrupt TypeError S
  | Some interaction =>
      if target interaction
      then Normal tt (set__interactions S (delete i__int (_interactions S)))
      else Normal tt S
  end.

(** The indices [this._interactions.length - 1], ..., 0 of the backward
    loops, fixed when the loop starts. *)
Definition backwards (S : System) : list nat :=
  reverse (seq 0 (length (_interactions S))).

(** [removeInteractionsBySpecies(identifiers)] *)
Definition removeInteractionsBySpecies (identifiers : list string) (S : System)
  : completion System unit :=
  for_each identifiers
    (fun target_id S =>
       for_each (backwards S)
         (remove_if (fun interaction => includes (variables interaction) target_id)) S)
    S.

(** [removeInteractionsByName(name)] *)
Definition removeInteractionsByName (name : string) (S : System) : completion System unit :=
  for_each (backwards S)
    (remove_if (fun interaction => String.eqb (def_name interaction) name)) S.

(** [removeSpecies(identifier)] *)
Definition removeSpecies (identifier : string) (S : System) : completion System unit :=
  and_then (removeInteractionsBySpecies [identifier] S) (fun _ S =>
    let S1 := set_model S (splice_one (indexOf (Obj.keys (species S)) identifier) (model S)) in
    Normal tt (set_species S1 (delete_property (species S1) identifier))).

(** ** Parameters and definitions *)

(** The parser object of math.js held by the system ([math.parser()]),
    and the text of a number in a string concatenation.  The scope of the
    parser is read by no method of the module; an evaluation may throw. *)
Class ParserService := {
  (** [String(value)] *)
  number_text : num -> string;
  (** [parser.eval(text)] *)
  parser_eval : string -> result unit
}.

(** [addParameter(identifier, value, name)]: the parameter is stored
    before the parser is called. *)
Definition addParameter {parser : ParserService} (identifier : string) (v : num)
    (name : option string) (S : System) : completion System unit :=
  let S1 := set_parameters S
              (Obj.set (parameters S) identifier {| par_value := v; par_name := name |}) in
  match parser_eval (identifier +:+ "=" +:+ number_text v) with
  | Ok _ => Normal tt S1
  | Throw e => Abrupt e S1
  end.

(** [defineInteraction(name, species)] *)
Definition defineInteraction (name : string) (species : list string) (S : System)
  : System :=
  set_interactions S
    (Obj.set (interactions S) name (new_InteractionDefinition name species)).

(** ** The earlier revision of [Simulation] and [simulate] (system.js) *)

(** [new Simulation(species, solution)] of the earlier revision: the first
    argument is [null] or the array of the species ids, and the trajectory of
    the [i_sp]-th id is the [i_sp]-th row of the transposed solution. *)
Definition new_Simulation_legacy (species : option (list string))
    (solution : option Solution) : result Simulation :=
  match species, solution with
  | Some species, Some solution =>
      y ← transpose (sol_y solution);
      Ok {| time := sol_x solution;
            trajectory := foldl (fun tr '(i_sp, id) => Obj.set tr id (y !! i_sp))
                                [] (imap pair species) |}
  | _, _ => Ok {| time := []; trajectory := [] |}
  end.

Section Legacy.
Context {expr : ExpressionService} {ode : Integrator}.

(** [simulate(t0, tf)] of the earlier revision: the first loop and the
    call of the integrator are those of the later revision; the result of
    the constructor is returned, and no value is written back. *)
Definition simulate_legacy (t0 tf : num) (S : System) : completion System Simulation :=
  and_then (for_each (imap pair (Obj.keys (species S))) simulate_species S) (fun _ S =>
  match dopri t0 tf (initial_values S) (fun t y => dY t y S) with
  | Throw e => Abrupt e S
  | Ok solution =>
      match new_Simulation_legacy (Some (Obj.keys (species S))) (Some solution) with
      | Throw e => Abrupt e S
      | Ok simulation => Normal simulation S
      end
  end).

End Legacy.

(** ** Vocabulary of the proofs *)

(** A loop whose body replaces one species by a function of it. *)
Definition update_species (k : string) (g : Species -> Species) (sp : obj Species)
  : obj Species :=
  match Obj.get sp k with
  | Some s => Obj.set sp k (g s)
  | None => sp
  end.

(** The rate law of a species after one more term. *)
Definition add_to_rate_law (e : Node) (p : Species) : Species :=
  set_rate_law_expression p
    (Some match expression (rate_law p) with
          | None => clone e
          | Some previous => OperatorNode "+" "add" [previous; clone e]
          end).

(** The effect of one contributed term on the system. *)
Definition apply_term (c : string * Node) (S : System) : completion System unit :=
  match Obj.get (species S) c.1 with
  | None => Abrupt TypeError S
  | Some p => Normal tt (set_species S (Obj.set (species S) c.1 (add_to_rate_law c.2 p)))
  end.

(** The evaluator compiled for a species. *)
Definition slot_of (sp : obj Species) (k : string) : Slot :=
  Compiled (default (ConstantNode "0") (Obj.get sp k ≫= fun s => expression (rate_law s))).

(** What the parser allocates for a tree: new objects after the existing
    ones, which refer to new objects only. *)
Definition alloc_ok (n : Node) : Prop :=
  forall h h' l lo,
    Heap.alloc n h = (h', l) ->
    Heap.extends h h'
    /\ length h <= l < length h'
    /\ (lo <= length h -> Heap.closed_from lo h -> Heap.closed_from lo h').

(** The roots held by a set of rules are at or after [lo]. *)
Definition roots_from (lo : nat) (rs : obj Heap.RuleRef) : Prop :=
  Forall (fun entry => forall root, Heap.expression_ref entry.2 = Some root -> lo <= root) rs.

(** ** A concrete expression service and integrator

    Executable stand-ins for math.js and numeric.js, used to run the
    methods on concrete systems: a printer with explicit parentheses, a
    parser that recognises the printed form of a given list of trees, an
    evaluator for the arithmetic operators, and one explicit Euler step. *)

Module Example.

Fixpoint show (n : Node) : string :=
  match n with
  | ConstantNode v => v
  | SymbolNode x => x
  | OperatorNode op _ args =>
      match map show args with
      | [a] => op +:+ a
      | [a; b] => "(" +:+ a +:+ " " +:+ op +:+ " " +:+ b +:+ ")"
      | parts => op +:+ "(" +:+ String.concat ", " parts +:+ ")"
      end
  | FunctionNode f args => f +:+ "(" +:+ String.concat ", " (map show args) +:+ ")"
  end.

Definition parse_known (known : list Node) (text : string) : result Node :=
  match List.find (fun e => String.eqb (show e) text) known with
  | Some e => Ok e
  | None => Throw SyntaxError
  end.

Definition digit (c : ascii) : option num :=
  match c with
  | "0"%char => Some 0%float | "1"%char => Some 1%float
  | "2"%char => Some 2%float | "3"%char => Some 3%float
  | "4"%char => Some 4%float | "5"%char => Some 5%float
  | "6"%char => Some 6%float | "7"%char => Some 7%float
  | "8"%char => Some 8%float | "9"%char => Some 9%float
  | _ => None
  end.

Fixpoint literal (acc : num) (s : string) : result num :=
  match s with
  | EmptyString => Ok acc
  | String c s' =>
      match digit c with
      | Some d => literal (acc * 10 + d)%float s'
      | None => Throw SyntaxError
      end
  end.

Fixpoint evaluate (n : Node) (scope : gmap string num) : result num :=
  match n with
  | ConstantNode v => literal 0%float v
  | SymbolNode x =>
      match scope !! x with
      | Some v => Ok v
      | None => Throw (LibraryError "Undefined symbol")
      end
  | OperatorNode _ fn args =>
      vs ← traverse_list (fun a => evaluate a scope) args;
      match fn, vs with
      | "add", [a; b] => Ok (a + b)%float
      | "subtract", [a; b] => Ok (a - b)%float
      | "multiply", [a; b] => Ok (a * b)%float
      | "divide", [a; b] => Ok (a / b)%float
      | "unaryMinus", [a] => Ok (- a)%float
      | _, _ => Throw (LibraryError "Unknown operator")
      end
  | FunctionNode _ _ => Throw (LibraryError "Unknown function")
  end.

Definition service (known : list Node) : ExpressionService :=
  {| parse := parse_known known; toString := show; eval := evaluate |}.

(** One explicit Euler step from [t0] to [tf]. *)
Definition euler : Integrator :=
  {| dopri := fun t0 tf y0 f =>
       let y0 := map to_num y0 in
       dy ← f t0 y0;
       Ok {| sol_x := [t0; tf];
             sol_y := [y0; zip_with (fun v d => (v + (tf - t0) * d)%float) y0 dy] |} |}.

Definition minus (a : Node) : Node := OperatorNode "-" "unaryMinus" [a].
Definition times (a b : Node) : Node := OperatorNode "*" "multiply" [a; b].
Definition plus (a b : Node) : Node := OperatorNode "+" "add" [a; b].

Definition default_config : Config :=
  {| refresh_rate := 12.5%float; buffer_size := 10%float; t_scale := 5%float |}.

(** Species [A] = 10, parameter [k] = 0.5 and the template "decay" with
    the rule [a : -k * a]. *)
Definition decay : InteractionDefinition :=
  {| def_name := "decay";
     rules := [("a", {| rule_name := None;
                        expression := Some (times (minus (SymbolNode "k")) (SymbolNode "a")) |})] |}.

Definition decay_system : System :=
  {| config := default_config;
     species := [("A", new_Species 10%float None)];
     parameters := [("k", {| par_value := 0.5%float; par_name := None |})];
     interactions := [("decay", decay)];
     _interactions := [];
     model := [Null] |}.

(** The template "leak" with the single rule [a : k * a + k], in which
    the parameter [k] occurs twice. *)
Definition leak : InteractionDefinition :=
  {| def_name := "leak";
     rules := [("a", {| rule_name := None;
                        expression := Some (plus (times (SymbolNode "k") (SymbolNode "a"))
                                                 (SymbolNode "k")) |})] |}.

Definition math : ExpressionService :=
  service [ConstantNode "0"; times (minus (SymbolNode "k")) (SymbolNode "a")].

Definition numeric : Integrator := euler.

(** The system after [addInteraction("decay", ["A"], ["k"])]. *)
Definition decay_bound : System :=
  Eval vm_compute in
    final_state (addInteraction (expr := math) "decay" ["A"] ["k"] decay_system).

(** ... and after [compile()]. *)
Definition decay_compiled : System :=
  Eval vm_compute in final_state (compile (expr := math) decay_bound).

(** A system in which the parameter [k] has the id of the second
    species. *)
Definition shadowed : System :=
  {| config := default_config;
     species := [("A", new_Species 10%float None); ("k", new_Species 7%float None)];
     parameters := [("k", {| par_value := 0.5%float; par_name := None |})];
     interactions := [];
     _interactions := [];
     model := [Compiled (times (minus (SymbolNode "k")) (SymbolNode "A"));
               Compiled (ConstantNode "0")] |}.

(** A buffer whose times span 0..25 without the time 15, and one sampled
    at every unit of time. *)
Definition coarse_buffer : Simulation :=
  {| time := [0; 10; 20; 25]%float;
     trajectory := [("A", Some [Some 1; Some 2; Some 3; Some 4]%float)] |}.

Definition unit_times : list num :=
  [0; 1; 2; 3; 4; 5; 6; 7; 8; 9; 10; 11; 12; 13; 14; 15; 16; 17; 18; 19; 20;
   21; 22; 23; 24; 25]%float.

Definition unit_buffer : Simulation :=
  {| time := unit_times; trajectory := [("A", Some (map Some unit_times))] |}.

(** The node objects of the rule of "decay", and the definition holding
    a reference to their root. *)
Definition decay_heap : list Heap.cell :=
  (Heap.alloc (times (minus (SymbolNode "k")) (SymbolNode "a")) []).1.

Definition decay_ref : Heap.DefinitionRef :=
  {| Heap.ref_def_name := "decay";
     Heap.rule_refs :=
       [("a", {| Heap.ref_name := None;
                 Heap.expression_ref :=
                   Some (Heap.alloc (times (minus (SymbolNode "k")) (SymbolNode "a")) []).2 |})] |}.

Definition decay_registry : Heap.Registry :=
  {| Heap.nodes := decay_heap;
     Heap.definitions := [("decay", decay_ref)];
     Heap.instances := [] |}.

(** The registry after [addInteraction("decay", ["A"], ["k"])]. *)
Definition decay_registry' : Heap.Registry :=
  Eval vm_compute in
    final_state (Heap.addInteraction (expr := math) decay_system "decay" ["A"] ["k"]
                   decay_registry).

(** The buffer of a real-time simulation of the compiled system, and the
    buffer after one tick. *)
Definition decay_buffer : Simulation :=
  {| time := [0%float]; trajectory := [("A", Some [Some 10%float])] |}.

End Example.


(** The call is accepted when the four checks of the constructor pass. *)
Definition accepted (S : System) (base : InteractionDefinition)
    (v_args p_args : list string) : bool :=
  all_registered (species S) v_args
  && all_registered (parameters S) p_args
  && Nat.eqb (length v_args) (length (variables base))
  && Nat.eqb (length p_args) (length (parameters_of base)).

(** The symbol names of a tree, in the order of the traversal. *)
Definition symbols (e : Node) : list string :=
  map Node_name (Node_filter is_SymbolNode e).

(** The expressions of the rules of a definition that are set, in the
    order of the rules. *)
Definition rule_expressions (d : InteractionDefinition) : list Node :=
  omap (fun r_id => Obj.get (rules d) r_id ≫= expression) (Obj.keys (rules d)).

(** The names of a list, each once, in the order of their first
    occurrence, after the names already collected. *)
Definition first_seen (collected names : list string) : list string :=
  foldl (fun acc x => if includes acc x then acc else acc ++ [x]) collected names.

(** The parameters of a definition as the specification words them: the
    symbol names of the rules that are no variables, each once, in the order
    of their first occurrence. *)
Definition first_seen_parameters (d : InteractionDefinition) : list string :=
  first_seen [] (List.filter (fun x => negb (includes (variables d) x))
                             (flat_map symbols (rule_expressions d))).

(** An instance that has one of the identifiers among its variables. *)
Definition mentions (identifiers : list string) (interaction : InteractionDefinition) : bool :=
  existsb (includes (variables interaction)) identifiers.

(** Every term contributed by a live instance goes to a registered
    species. *)
Definition participants_registered (S : System) : Prop :=
  forall c, c ∈ flat_map contributions (_interactions S) -> c.1 ∈ Obj.keys (species S).

(** The system [compile] leaves when it returns: every rate law is the
    sum of the terms contributed to the species, and the model holds the
    evaluators of the rate laws, species by species, before the slots the
    model had past the last species. *)
Definition evaluator_of (S : System) (sp : string) : Slot :=
  Compiled (default (ConstantNode "0") (sum_of_terms (terms_for S sp))).

Definition compiled (S : System) : System :=
  {| config := config S;
     species := map (fun '(sp, s) =>
                       (sp, set_rate_law_expression s (sum_of_terms (terms_for S sp))))
                    (species S);
     parameters := parameters S;
     interactions := interactions S;
     _interactions := _interactions S;
     model := map (evaluator_of S) (Obj.keys (species S))
              ++ drop (length (Obj.keys (species S))) (model S) |}.

(** The system after the first loop of [simulate]: the model holds the
    evaluator of the current rate law of every species. *)
Definition with_evaluators (S : System) : System :=
  set_model S (map (slot_of (species S)) (Obj.keys (species S))
               ++ drop (length (Obj.keys (species S))) (model S)).

(** The rule an instance holds after the loop "Clone the Rule
    expressions": named by nothing, with the expression of the rule of the
    definition when the parser reads the printed expression back. *)
Definition copied (r : Rule) : Rule :=
  match expression r with
  | Some e => {| rule_name := None; expression := Some e |}
  | None => new_Rule
  end.

(** The [j]-th rule of a definition. *)
Definition rule_at (base : InteractionDefinition) (j : nat) : Rule :=
  default new_Rule (snd <$> rules base !! j).

(** The symbol table of an accepted call. *)
Definition symbol_table_of (base : InteractionDefinition) (v_args p_args : list string)
  : gmap string string :=
  bind_symbols (bind_symbols ∅ (variables base) v_args) (parameters_of base) p_args.

(** The parser reads back what the printer writes for the expressions of
    the definition. *)
Definition reads_back {expr : ExpressionService} (base : InteractionDefinition) : Prop :=
  forall e, e ∈ rule_expressions base -> parse (toString e) = Ok e.

(** The state a buffer hands to the integrator at the next tick: the last
    entry of every trajectory, in the order of the keys. *)
Definition state_of (s : Simulation) : list sample :=
  map (fun id_tr => mjoin (last (default [] (trajectory_of s id_tr))))
      (Obj.keys (trajectory s)).

(** The length of one tick in simulation time. *)
Definition tick (config : Config) : num :=
  (refresh_rate config / 1000 * t_scale config)%float.

(** The buffer of [update_state] after the solution of one tick has been
    appended and before the history is trimmed; [y] is the transposed
    solution. *)
Definition appended (s : Simulation) (solution : Solution) (y : list (list sample))
  : Simulation :=
  {| time := time s ++ map (fun t => (t + to_num (last (time s)))%float) (sol_x solution);
     trajectory :=
       foldl (fun tr id_tr =>
                Obj.set tr id_tr
                  (Some (js_concat (default [] (mjoin (Obj.get tr id_tr)))
                                   (indexOf (Obj.keys (trajectory s)) id_tr ≫= (y !!.)))))
             (trajectory s) (Obj.keys (trajectory s)) |}.

(** A system on which [compile] returns: the species ids are distinct and
    every term of a live instance goes to a registered species. *)
Definition compilable (S : System) : Prop :=
  Obj.wf (species S) /\ participants_registered S.

(** One call of a method of the system, with registered species as
    species arguments of [addInteraction]; a call that throws leaves the
    state the system had reached. *)
Inductive call {expr : ExpressionService} {parser : ParserService}
  : System -> System -> Prop :=
| call_addSpecies identifier v name S :
    call S (addSpecies identifier v name S)
| call_removeSpecies identifier S :
    call S (final_state (removeSpecies identifier S))
| call_addParameter identifier v name S :
    call S (final_state (addParameter identifier v name S))
| call_defineInteraction name species S :
    call S (defineInteraction name species S)
| call_addInteraction id v_args p_args S :
    all_registered (species S) v_args = true ->
    call S (final_state (addInteraction id v_args p_args S))
| call_removeInteractionsBySpecies identifiers S :
    call S (final_state (removeInteractionsBySpecies identifiers S))
| call_removeInteractionsByName name S :
    call S (final_state (removeInteractionsByName name S))
| call_compile S :
    call S (final_state (compile S)).

(** ** Systems of the demonstration page

    The template "bolus absorption" of diabetes.js with its two rules, a
    system holding it, and the results of some calls on the systems of the
    module [Example]. *)

Module Demo.

Definition bolus_g : Node := Example.times (SymbolNode "gi") (SymbolNode "i").

Definition bolus_i : Node :=
  Example.times (Example.minus (SymbolNode "gi")) (SymbolNode "i").

Definition math : ExpressionService :=
  Example.service [ConstantNode "0"; bolus_g; bolus_i].

(** [defineInteraction('bolus absorption', ['g', 'i'])] with the rules
    [g : gi*i] and [i : -gi*i]. *)
Definition bolus_absorption : InteractionDefinition :=
  {| def_name := "bolus absorption";
     rules := [("g", {| rule_name := None; expression := Some bolus_g |});
               ("i", {| rule_name := None; expression := Some bolus_i |})] |}.

Definition meal_system : System :=
  {| config := Example.default_config;
     species := [("Glucose", new_Species 1%float None); ("cake", new_Species 0%float None)];
     parameters := [("GI0", {| par_value := 1%float; par_name := None |})];
     interactions := [("bolus absorption", bolus_absorption)];
     _interactions := [];
     model := [Null; Null] |}.

(** The system of [Example] after the rejected call
    [addInteraction("decay", ["B"], ["k"])]. *)
Definition decay_rejected : System :=
  Eval vm_compute in
    final_state (addInteraction (expr := Example.math) "decay" ["B"] ["k"]
                   Example.decay_system).

(** The solution of one tick of the Euler integrator on the compiled
    system of [Example], from the state of its buffer. *)
Definition decay_tick : Solution :=
  Eval vm_compute in
    match dopri (Integrator := Example.euler) 0%float (tick Example.default_config)
                (state_of Example.decay_buffer)
                (fun t y => dY (expr := Example.math) t y Example.decay_compiled) with
    | Ok solution => solution
    | Throw _ => {| sol_x := []; sol_y := [] |}
    end.

(** The solution of the Euler integrator on the interval from 0 to 1. *)
Definition decay_run : Solution :=
  Eval vm_compute in
    match dopri (Integrator := Example.euler) 0%float 1%float
                (initial_values Example.decay_compiled)
                (fun t y => dY (expr := Example.math) t y
                               (with_evaluators Example.decay_compiled)) with
    | Ok solution => solution
    | Throw _ => {| sol_x := []; sol_y := [] |}
    end.

(** The store after one turn of the substitution loop of the earlier
    revision on the rule of "decay", for a species without rate law. *)
Definition decay_table : gmap string string := <["a" := "A"]> ∅.

Definition legacy_store : list Heap.cell * nat :=
  Eval vm_compute in
    match Heap.substitute_rule_legacy (expr := Example.math) decay_table
            Example.decay_heap 3 None with
    | Ok store => store
    | Throw _ => ([], 0)
    end.

(** A parser object that accepts every text. *)
Definition parser : ParserService :=
  {| number_text := fun _ => "0"; parser_eval := fun _ => Ok tt |}.

End Demo.

(** * Properties *)

(** ** Dictionaries *)

Lemma Obj_get_set_eq {V} (o : obj V) k v : Obj.get (Obj.set o k v) k = Some v.
Proof.
  induction o as [|[k' v'] o IH]; simpl.
  - by rewrite String.eqb_refl.
  - destruct (String.eqb k' k) eqn:E; simpl.
    + by rewrite String.eqb_refl.
    + by rewrite E.
Qed.

Lemma Obj_get_set_ne {V} (o : obj V) k k' v :
  k <> k' -> Obj.get (Obj.set o k v) k' = Obj.get o k'.
Proof.
  intros Hne. induction o as [|[k0 v0] o IH]; simpl.
  - destruct (String.eqb_spec k k'); [done|done].
  - destruct (String.eqb_spec k0 k) as [->|Hk]; simpl.
    + destruct (String.eqb_spec k k'); [done|done].
    + by rewrite IH.
Qed.

Lemma Obj_get_Some_keys {V} (o : obj V) k v : Obj.get o k = Some v -> k ∈ Obj.keys o.
Proof.
  induction o as [|[k' v'] o IH]; simpl; [done|].
  destruct (String.eqb_spec k' k) as [->|Hk]; intros Hget.
  - apply list_elem_of_here.
  - apply list_elem_of_further. auto.
Qed.

Lemma Obj_keys_get_Some {V} (o : obj V) k : k ∈ Obj.keys o -> is_Some (Obj.get o k).
Proof.
  induction o as [|[k' v'] o IH]; simpl.
  - by intros ?%elem_of_nil.
  - destruct (String.eqb_spec k' k) as [->|Hk]; [by eauto|].
    intros [?|?]%elem_of_cons; [congruence|auto].
Qed.

Lemma Obj_get_None_keys {V} (o : obj V) k : Obj.get o k = None <-> k ∉ Obj.keys o.
Proof.
  split.
  - intros Hnone Hin. apply Obj_keys_get_Some in Hin as [v Hv]. congruence.
  - intros Hnin. destruct (Obj.get o k) eqn:E; [|done].
    exfalso. eauto using Obj_get_Some_keys.
Qed.

Lemma Obj_keys_set_Some {V} (o : obj V) k v :
  is_Some (Obj.get o k) -> Obj.keys (Obj.set o k v) = Obj.keys o.
Proof.
  induction o as [|[k' v'] o IH]; simpl.
  - by intros [? ?].
  - destruct (String.eqb_spec k' k) as [->|Hk]; simpl; [done|].
    intros Hs. f_equal. auto.
Qed.

Lemma Obj_keys_set_None {V} (o : obj V) k v :
  Obj.get o k = None -> Obj.keys (Obj.set o k v) = Obj.keys o ++ [k].
Proof.
  induction o as [|[k' v'] o IH]; simpl; [done|].
  destruct (String.eqb_spec k' k) as [->|Hk]; simpl; [done|].
  intros Hs. f_equal. auto.
Qed.

Lemma Obj_keys_length {V} (o : obj V) : length (Obj.keys o) = length o.
Proof. apply length_map. Qed.

Lemma Obj_get_lookup {V} (o : obj V) i k v :
  Obj.wf o -> o !! i = Some (k, v) -> Obj.get o k = Some v.
Proof.
  unfold Obj.wf. revert i. induction o as [|[k' v'] o IH]; intros i Hwf Hi; [done|].
  simpl in *. apply NoDup_cons in Hwf as [Hnin Hwf].
  destruct i as [|i]; simpl in Hi.
  - inversion Hi; subst. by rewrite String.eqb_refl.
  - destruct (String.eqb_spec k' k) as [->|Hk]; [|eauto].
    exfalso. apply Hnin. apply list_elem_of_lookup. exists i.
    unfold Obj.keys. by rewrite list_lookup_fmap, Hi.
Qed.

Lemma indexOf_lookup (l : list string) i k :
  NoDup l -> l !! i = Some k -> indexOf l k = Some i.
Proof.
  unfold indexOf. revert i. induction l as [|k' l IH]; intros i Hnd Hi; [done|].
  apply NoDup_cons in Hnd as [Hnin Hnd]. simpl.
  destruct i as [|i]; simpl in Hi.
  - inversion Hi; subst. by rewrite String.eqb_refl.
  - destruct (String.eqb_spec k k') as [->|Hk].
    + exfalso. apply Hnin. apply list_elem_of_lookup. eauto.
    + by rewrite (IH i).
Qed.

Lemma includes_spec (l : list string) x : includes l x = true <-> x ∈ l.
Proof.
  unfold includes, indexOf. rewrite bool_decide_eq_true.
  induction l as [|k l IH]; simpl.
  - split; [done|by intros ?%elem_of_nil].
  - destruct (String.eqb_spec x k) as [->|Hk].
    + split; [intros _; apply list_elem_of_here|done].
    + rewrite elem_of_cons. split.
      * intros Hi. right. apply IH. by destruct (index_where _ l).
      * intros [?|Hin]; [done|]. apply IH in Hin. by destruct (index_where _ l).
Qed.

(** ** Arrays *)

Lemma array_set_lookup {A} (hole : A) l i v : array_set hole l i v !! i = Some v.
Proof.
  unfold array_set. case_decide as Hi.
  - by apply list_lookup_insert_eq.
  - rewrite lookup_app_r by lia. rewrite lookup_app_r; rewrite length_replicate; [|lia].
    by replace (i - length l - (i - length l)) with 0 by lia.
Qed.

Lemma array_set_in_range {A} (hole : A) l i v :
  i < length l -> array_set hole l i v = <[i := v]> l.
Proof. intros Hi. unfold array_set. by case_decide. Qed.

Lemma array_set_length {A} (hole : A) l i v :
  length (array_set hole l i v) = max (length l) (S i).
Proof.
  unfold array_set. case_decide.
  - rewrite length_insert. lia.
  - rewrite !length_app, length_replicate. simpl. lia.
Qed.

(** ** Registering a species *)

(** C9.  [addSpecies] with an identifier that is already registered
    replaces the Species object (its value is the new initial value and its
    rate law a fresh, unset Rule), keeps the registered identifiers and their
    number, leaves every other species as it was, and assigns [null] to the
    model slot at index (number of species - 1).  The model has afterwards
    the larger of its length and the number of species: it keeps its length
    exactly when it had at least one slot per species, and a shorter model
    grows to one slot per species, holes filling the gap before the
    [null]. *)
Theorem addSpecies_registered (S : System) identifier v name old :
  Obj.get (species S) identifier = Some old ->
  let n := length (Obj.keys (species S)) in
  let S' := addSpecies identifier v name S in
  Obj.keys (species S') = Obj.keys (species S)
  /\ length (Obj.keys (species S')) = n
  /\ Obj.get (species S') identifier
     = Some {| sp_name := name; value := v; rate_law := new_Rule |}
  /\ (forall id, id <> identifier -> Obj.get (species S') id = Obj.get (species S) id)
  /\ model S' = array_set Hole (model S) (n - 1) Null
  /\ model S' !! (n - 1) = Some Null
  /\ (n <= length (model S) ->
      model S' = <[n - 1 := Null]> (model S) /\ length (model S') = length (model S))
  /\ (length (model S) < n ->
      model S' = model S ++ replicate (n - 1 - length (model S)) Hole ++ [Null]
      /\ length (model S') = n)
  /\ length (model S') = Nat.max (length (model S)) n
  /\ (length (model S') = length (model S) <-> n <= length (model S))
  /\ parameters S' = parameters S
  /\ interactions S' = interactions S
  /\ _interactions S' = _interactions S.
Proof.
  intros Hold n S'. subst S'. unfold addSpecies. simpl.
  assert (Hkeys : Obj.keys (Obj.set (species S) identifier (new_Species v name))
                  = Obj.keys (species S)) by (apply Obj_keys_set_Some; eauto).
  assert (Hn : 0 < n).
  { subst n. apply Obj_get_Some_keys in Hold. destruct (Obj.keys (species S)); simpl; [|lia].
    by apply elem_of_nil in Hold. }
  rewrite Hkeys. fold n.
  assert (Hlength : length (array_set Hole (model S) (n - 1) Null)
                    = Nat.max (length (model S)) n).
  { rewrite array_set_length. lia. }
  split; [done|]. split; [done|].
  split; [apply Obj_get_set_eq|].
  split; [intros id Hid; by apply Obj_get_set_ne|].
  split; [done|].
  split; [apply array_set_lookup|].
  split.
  { intros Hlen. rewrite array_set_in_range by lia.
    split; [done|]. apply length_insert. }
  split.
  { intros Hlen. split; [|rewrite Hlength; lia].
    unfold array_set. case_decide; [lia|done]. }
  split; [done|]. split; [|done].
  rewrite Hlength. lia.
Qed.

(** ** The derivative function *)

Section Derivative.
Context {expr : ExpressionService}.

Lemma dY_scope_unfold system y :
  dY_scope system y
  = bind_parameters (parameters system)
      (bind_state (Obj.keys (species system)) ∅ (imap pair y))
      (Obj.keys (parameters system)).
Proof. reflexivity. Qed.

Lemma bind_parameters_lookup pars ps scope q :
  bind_parameters pars scope ps !! q
  = if bool_decide (q ∈ ps)
    then match Obj.get pars q with
         | Some par => Some (par_value par)
         | None => scope !! q
         end
    else scope !! q.
Proof.
  revert scope. induction ps as [|p ps IH]; intros scope; simpl.
  - done.
  - unfold bind_parameters in *. simpl. rewrite IH.
    destruct (decide (q = p)) as [->|Hne].
    + rewrite (bool_decide_eq_true_2 (p ∈ p :: ps)) by apply list_elem_of_here.
      destruct (Obj.get pars p) as [par|] eqn:Hp.
      * case_bool_decide; [done|]. by rewrite lookup_insert_eq.
      * by case_bool_decide.
    + assert (Hiff : q ∈ p :: ps <-> q ∈ ps).
      { rewrite elem_of_cons. split; [intros [?|?]; [congruence|done]|by right]. }
      rewrite (bool_decide_ext _ _ Hiff).
      destruct (Obj.get pars p) as [par|] eqn:Hp; [|done].
      rewrite lookup_insert_ne by done. done.
Qed.

Lemma bind_state_lookup_ne ids scope entries q :
  (forall j w, (j, w) ∈ entries -> key_at ids j <> q) ->
  bind_state ids scope entries !! q = scope !! q.
Proof.
  revert scope. induction entries as [|[j w] entries IH]; intros scope Hne; [done|].
  unfold bind_state in *. simpl. rewrite IH.
  - apply lookup_insert_ne. apply (Hne j w), list_elem_of_here.
  - intros j' w' Hin. apply (Hne j' w'). by apply list_elem_of_further.
Qed.

(** Two state vectors that differ only where the species id is [p] give
    scopes that agree outside [p]. *)
Lemma bind_state_agree ids p entries entries' scope scope' q :
  Forall2 (fun a b => a.1 = b.1 /\ (key_at ids a.1 <> p -> a.2 = b.2)) entries entries' ->
  (forall q, q <> p -> scope !! q = scope' !! q) ->
  q <> p ->
  bind_state ids scope entries !! q = bind_state ids scope' entries' !! q.
Proof.
  intros Hall. revert scope scope'.
  induction Hall as [|[j w] [j' w'] l l' [Hj Hw] _ IH]; intros scope scope' Hs Hq.
  - by apply Hs.
  - unfold bind_state in *. simpl in *. subst j'. apply IH; [|done].
    intros q' Hq'. destruct (decide (key_at ids j = q')) as [Hk|Hk].
    + rewrite Hk, !lookup_insert_eq. f_equal. apply Hw. congruence.
    + rewrite !lookup_insert_ne by done. by apply Hs.
Qed.

Lemma dY_scope_parameter system y p par :
  Obj.get (parameters system) p = Some par ->
  dY_scope system y !! p = Some (par_value par).
Proof.
  intros Hp. rewrite dY_scope_unfold, bind_parameters_lookup, Hp.
  rewrite bool_decide_eq_true_2; [done|]. eauto using Obj_get_Some_keys.
Qed.

Lemma dY_scope_insert_parameter system y i v p par :
  key_at (Obj.keys (species system)) i = p ->
  Obj.get (parameters system) p = Some par ->
  dY_scope system (<[i := v]> y) = dY_scope system y.
Proof.
  intros Hi Hp. apply map_eq; intros q.
  destruct (decide (q = p)) as [->|Hq].
  - by rewrite !(dY_scope_parameter _ _ p par).
  - rewrite !dY_scope_unfold, !bind_parameters_lookup.
    assert (Hagree : bind_state (Obj.keys (species system)) ∅ (imap pair (<[i:=v]> y)) !! q
                     = bind_state (Obj.keys (species system)) ∅ (imap pair y) !! q).
    { apply (bind_state_agree _ p); [|done|done].
      apply Forall2_same_length_lookup. split.
      - by rewrite !length_imap, length_insert.
      - intros j [a w] [a' w'] Ha Ha'.
        rewrite list_lookup_imap in Ha. rewrite list_lookup_imap in Ha'.
        destruct (<[i:=v]> y !! j) as [x|] eqn:Ej; [|done].
        destruct (y !! j) as [x'|] eqn:Ej'; [|done].
        simpl in *. inversion Ha; inversion Ha'; subst. split; [done|].
        intros Hk. destruct (decide (i = a')) as [->|Hij]; [congruence|].
        rewrite list_lookup_insert_ne in Ej by done. congruence. }
    by rewrite Hagree.
Qed.

Lemma traverse_list_length {A B} (f : A -> result B) l bs :
  traverse_list f l = Ok bs -> length bs = length l.
Proof.
  revert bs. induction l as [|a l IH]; intros bs; simpl.
  - by intros [= <-].
  - destruct (f a) as [b|e]; simpl; [|done].
    destruct (traverse_list f l) as [bs'|e]; simpl; [|done].
    intros [= <-]. simpl. f_equal. by apply IH.
Qed.

Lemma traverse_list_pointwise {A B C} (f : A -> result C) (g : B -> result C) l1 l2 :
  length l1 = length l2 ->
  (forall i a b, l1 !! i = Some a -> l2 !! i = Some b -> f a = g b) ->
  traverse_list f l1 = traverse_list g l2.
Proof.
  revert l2. induction l1 as [|a l1 IH]; intros [|b l2] Hlen Hall; simpl in *; try done.
  rewrite (Hall 0 a b) by done.
  rewrite (IH l2); [done|lia|].
  intros i a' b' Ha Hb. by apply (Hall (S i)).
Qed.

Lemma dY_length t y system dy : dY t y system = Ok dy -> length dy = length y.
Proof.
  unfold dY. intros Hdy%traverse_list_length. by rewrite length_seq in Hdy.
Qed.

Lemma traverse_list_lookup {A B} (f : A -> result B) l bs i a :
  traverse_list f l = Ok bs -> l !! i = Some a ->
  exists b, bs !! i = Some b /\ f a = Ok b.
Proof.
  revert bs i. induction l as [|a' l IH]; intros bs i; simpl; [done|].
  destruct (f a') as [b'|e] eqn:Hf; simpl; [|done].
  destruct (traverse_list f l) as [bs'|e] eqn:Hl; simpl; [|done].
  intros [= <-] Hi. destruct i as [|i]; simpl in *.
  - inversion Hi; subst. eauto.
  - eauto.
Qed.

Lemma bind_state_lookup ids (y : list num) id i v :
  NoDup ids -> length y <= length ids ->
  ids !! i = Some id -> y !! i = Some v ->
  bind_state ids ∅ (imap pair y) !! id = Some v.
Proof.
  intros Hnd. revert i v. induction y as [|w y IH] using rev_ind; intros i v Hlen Hid Hy.
  - done.
  - rewrite length_app in Hlen. simpl in Hlen.
    rewrite imap_app. simpl. unfold bind_state in *. rewrite foldl_app. simpl.
    replace (length y + 0) with (length y) by lia.
    destruct (decide (i = length y)) as [->|Hi].
    + rewrite lookup_app_r, Nat.sub_diag in Hy by lia. simpl in Hy. inversion Hy; subst.
      unfold key_at. rewrite Hid. simpl. apply lookup_insert_eq.
    + assert (Hi' : i < length y).
      { apply lookup_lt_Some in Hy. rewrite length_app in Hy. simpl in Hy. lia. }
      rewrite lookup_app_l in Hy by done.
      destruct (lookup_lt_is_Some_2 ids (length y)) as [id' Hid']; [lia|].
      unfold key_at. rewrite Hid'. simpl.
      rewrite lookup_insert_ne.
      * apply (IH i v); [lia|done|done].
      * intros ->. apply Hi. eapply NoDup_lookup; eauto.
Qed.

Lemma bind_state_lookup_None ids (y : list num) q :
  length y <= length ids -> q ∉ ids ->
  bind_state ids ∅ (imap pair y) !! q = None.
Proof.
  intros Hlen Hq. rewrite bind_state_lookup_ne; [done|].
  intros j w Hin <-. apply Hq.
  apply list_elem_of_lookup in Hin as [k Hk]. rewrite list_lookup_imap in Hk.
  destruct (y !! k) as [x|] eqn:Ek; [|done]. simpl in Hk. inversion Hk; subst.
  destruct (lookup_lt_is_Some_2 ids j) as [id Hid].
  { apply lookup_lt_Some in Ek. lia. }
  unfold key_at. rewrite Hid. simpl. apply list_elem_of_lookup. eauto.
Qed.

(** C6.  For a state vector with one entry per species, in the order of
    the species, and a model holding one compiled evaluator per species:
    the scope of [dY] binds the id of the [i]-th species to [y[i]] unless a
    parameter has that id, binds every parameter id to the value of the
    parameter, and binds nothing else; [dY] evaluates the model entries in
    this scope, in order, and when every evaluation succeeds it returns
    their values, entry [i] being the value of the [i]-th evaluator. *)
Theorem dY_evaluates_model t y system es :
  Obj.wf (species system) ->
  length y = length (Obj.keys (species system)) ->
  take (length y) (model system) = map Compiled es ->
  length es = length y ->
  let scope := dY_scope system y in
  (forall i id v, Obj.keys (species system) !! i = Some id -> y !! i = Some v ->
     scope !! id = match Obj.get (parameters system) id with
                   | Some par => Some (par_value par)
                   | None => Some v
                   end)
  /\ (forall p par, Obj.get (parameters system) p = Some par ->
        scope !! p = Some (par_value par))
  /\ (forall q, is_Some (scope !! q) <->
                q ∈ Obj.keys (species system) \/ q ∈ Obj.keys (parameters system))
  /\ dY t y system = traverse_list (fun e => eval e scope) es
  /\ (forall dy, dY t y system = Ok dy ->
        length dy = length y
        /\ forall i e, es !! i = Some e ->
             exists d, dy !! i = Some d /\ eval e scope = Ok d)
  /\ (forall ds, traverse_list (fun e => eval e scope) es = Ok ds ->
        dY t y system = Ok ds).
Proof.
  intros Hwf Hlen Hmodel Hes scope.
  assert (Hlookup : forall q,
    scope !! q = if bool_decide (q ∈ Obj.keys (parameters system))
                 then match Obj.get (parameters system) q with
                      | Some par => Some (par_value par)
                      | None => bind_state (Obj.keys (species system)) ∅ (imap pair y) !! q
                      end
                 else bind_state (Obj.keys (species system)) ∅ (imap pair y) !! q).
  { intros q. subst scope. by rewrite dY_scope_unfold, bind_parameters_lookup. }
  assert (HdY : dY t y system = traverse_list (fun e => eval e scope) es).
  { unfold dY. fold scope. apply traverse_list_pointwise.
    - by rewrite length_seq.
    - intros i j e Hj He. apply lookup_seq in Hj as [-> Hi]. simpl.
      unfold eval_slot.
      assert (Hm : model system !! i = Some (Compiled e)).
      { rewrite <- (lookup_take_lt _ (length y)) by done.
        by rewrite Hmodel, list_lookup_fmap, He. }
      by rewrite Hm. }
  split; [|split; [|split; [|split; [|split]]]].
  - intros i id v Hid Hy. rewrite Hlookup.
    destruct (Obj.get (parameters system) id) as [par|] eqn:Hp.
    + rewrite bool_decide_eq_true_2; [done|]. eauto using Obj_get_Some_keys.
    + rewrite bool_decide_eq_false_2 by (by apply Obj_get_None_keys).
      apply (bind_state_lookup _ _ _ i); [done|lia|done|done].
  - intros p par Hp. subst scope. by apply dY_scope_parameter.
  - intros q. rewrite Hlookup. case_bool_decide as Hq.
    + destruct (Obj_keys_get_Some _ _ Hq) as [par Hpar]. rewrite Hpar.
      split; [by right|by eauto].
    + split.
      * intros Hs. left. destruct (decide (q ∈ Obj.keys (species system))); [done|].
        rewrite bind_state_lookup_None in Hs by (done || lia). by destruct Hs.
      * intros [Hin|Hin]; [|done].
        apply list_elem_of_lookup in Hin as [i Hi].
        destruct (lookup_lt_is_Some_2 y i) as [v Hv].
        { apply lookup_lt_Some in Hi. lia. }
        rewrite (bind_state_lookup _ _ _ i v); [by eauto|done|lia|done|done].
  - done.
  - intros dy Hdy. split; [by eapply dY_length|].
    intros i e He. rewrite HdY in Hdy.
    by apply (traverse_list_lookup _ _ _ i e) in Hdy.
  - intros ds Hds. by rewrite HdY.
Qed.

(** C10.  The parameter loop of [dY] runs after the state loop, so in the
    scope of [dY] every parameter id is bound to the value of the parameter,
    whatever the state vector holds.  [dY] evaluates every entry of the
    model in this one scope: each derivative it returns is the value of the
    evaluator of that slot with the symbol bound to the value of the
    parameter, and [dY] throws when one of the first [length y] slots holds
    no evaluator.  When the id of the [i]-th species is the id of a
    parameter, neither the scope nor the derivative depends on the [i]-th
    component of the state vector. *)
Theorem dY_parameter_shadows_species t y system p par :
  Obj.get (parameters system) p = Some par ->
  let scope := dY_scope system y in
  scope !! p = Some (par_value par)
  /\ dY t y system
     = traverse_list (fun i_y => match model system !! i_y with
                                 | Some (Compiled rate_law) => eval rate_law scope
                                 | _ => Throw TypeError
                                 end) (seq 0 (length y))
  /\ (forall es, take (length y) (model system) = map Compiled es ->
                 length es = length y ->
                 dY t y system = traverse_list (fun e => eval e scope) es)
  /\ (forall dy, dY t y system = Ok dy ->
        length dy = length y
        /\ forall i, i < length y ->
             exists e d, model system !! i = Some (Compiled e)
                         /\ eval e scope = Ok d /\ dy !! i = Some d)
  /\ (forall i v, key_at (Obj.keys (species system)) i = p ->
        dY_scope system (<[i := v]> y) = scope
        /\ dY t (<[i := v]> y) system = dY t y system).
Proof.
  intros Hp scope.
  split; [by apply dY_scope_parameter|].
  split; [reflexivity|].
  split.
  { intros es Hmodel Hes. unfold dY. fold scope. apply traverse_list_pointwise.
    - by rewrite length_seq.
    - intros i j e Hj He. apply lookup_seq in Hj as [-> Hi]. simpl.
      unfold eval_slot.
      assert (Hm : model system !! i = Some (Compiled e)).
      { rewrite <- (lookup_take_lt _ (length y)) by done.
        by rewrite Hmodel, list_lookup_fmap, He. }
      by rewrite Hm. }
  split.
  { intros dy Hdy. split; [by eapply dY_length|].
    intros i Hi. unfold dY in Hdy. fold scope in Hdy.
    destruct (traverse_list_lookup _ _ _ i i Hdy) as (d & Hd & Heval).
    { by apply lookup_seq. }
    unfold eval_slot in Heval.
    destruct (model system !! i) as [[| |e]|]; try done. eauto. }
  intros i v Hi.
  assert (Hs := dY_scope_insert_parameter system y i v p par Hi Hp).
  split; [done|]. unfold dY. by rewrite Hs, length_insert.
Qed.

End Derivative.

(** ** The model compiler *)

Lemma for_each_app {St A} (l1 l2 : list A) body (s : St) :
  for_each (l1 ++ l2) body s
  = and_then (for_each l1 body s) (fun _ => for_each l2 body).
Proof.
  revert s. induction l1 as [|a l1 IH]; intros s; simpl; [done|].
  destruct (body a s) as [[] s'|e s']; simpl; [apply IH|done].
Qed.

Lemma for_each_flat_map {St A B} (f : A -> list B) body (l : list A) (s : St) :
  for_each l (fun a => for_each (f a) body) s = for_each (flat_map f l) body s.
Proof.
  revert s. induction l as [|a l IH]; intros s; simpl; [done|].
  rewrite for_each_app.
  destruct (for_each (f a) body s) as [[] s'|e s']; simpl; [apply IH|done].
Qed.

Lemma update_species_keys k g sp : Obj.keys (update_species k g sp) = Obj.keys sp.
Proof.
  unfold update_species. destruct (Obj.get sp k) eqn:E; [|done].
  apply Obj_keys_set_Some. eauto.
Qed.

Lemma update_species_get k g sp q :
  Obj.get (update_species k g sp) q
  = (fun s => if String.eqb k q then g s else s) <$> Obj.get sp q.
Proof.
  unfold update_species. destruct (String.eqb_spec k q) as [->|Hne].
  - destruct (Obj.get sp q) eqn:E; simpl; [|by rewrite E].
    by rewrite Obj_get_set_eq.
  - destruct (Obj.get sp k) eqn:E.
    + rewrite Obj_get_set_ne by done. by destruct (Obj.get sp q).
    + by destruct (Obj.get sp q).
Qed.

Lemma set_species_twice S sp1 sp2 : set_species (set_species S sp1) sp2 = set_species S sp2.
Proof. reflexivity. Qed.

Lemma set_species_same S : set_species S (species S) = S.
Proof. by destruct S. Qed.

Lemma for_each_update {A} (key : A -> string) (g : A -> Species -> Species)
    (body : A -> System -> completion System unit) (l : list A) (S : System) :
  (forall a S s, Obj.get (species S) (key a) = Some s ->
     body a S = Normal tt (set_species S (Obj.set (species S) (key a) (g a s)))) ->
  (forall a, a ∈ l -> key a ∈ Obj.keys (species S)) ->
  for_each l body S
  = Normal tt (set_species S
      (foldl (fun sp a => update_species (key a) (g a) sp) (species S) l)).
Proof.
  intros Hbody. revert S. induction l as [|a l IH]; intros S Hin; simpl.
  - by rewrite set_species_same.
  - destruct (Obj_keys_get_Some (species S) (key a)) as [s Hs].
    { apply Hin, list_elem_of_here. }
    rewrite (Hbody a S s Hs). simpl. rewrite IH.
    + simpl. unfold update_species. by rewrite Hs.
    + intros a' Ha'. simpl. rewrite Obj_keys_set_Some by eauto.
      by apply Hin, list_elem_of_further.
Qed.

Lemma foldl_update_keys {A} (key : A -> string) (g : A -> Species -> Species) l sp :
  Obj.keys (foldl (fun sp a => update_species (key a) (g a) sp) sp l) = Obj.keys sp.
Proof.
  revert sp. induction l as [|a l IH]; intros sp; simpl; [done|].
  by rewrite IH, update_species_keys.
Qed.

Lemma foldl_update_get {A} (key : A -> string) (g : A -> Species -> Species) l sp q :
  Obj.get (foldl (fun sp a => update_species (key a) (g a) sp) sp l) q
  = (fun s => foldl (fun s a => if String.eqb (key a) q then g a s else s) s l)
      <$> Obj.get sp q.
Proof.
  revert sp. induction l as [|a l IH]; intros sp; simpl.
  - by destruct (Obj.get sp q).
  - rewrite IH, update_species_get. by destruct (Obj.get sp q).
Qed.

Lemma foldl_plus_sum (r : option Node) (ts : list Node) :
  foldl (fun r t => Some match r with
                         | None => t
                         | Some previous => OperatorNode "+" "add" [previous; t]
                         end) r ts
  = match r with
    | None => sum_of_terms ts
    | Some t0 => sum_of_terms (t0 :: ts)
    end.
Proof.
  revert r. induction ts as [|t ts IH]; intros r; simpl.
  - by destruct r.
  - rewrite IH. by destruct r.
Qed.

Lemma foldl_add_to_rate_law (cs : list (string * Node)) q (s : Species) :
  foldl (fun s c => if String.eqb c.1 q then add_to_rate_law c.2 s else s) s cs
  = set_rate_law_expression s
      (foldl (fun r t => Some match r with
                              | None => t
                              | Some previous => OperatorNode "+" "add" [previous; t]
                              end)
             (expression (rate_law s))
             (map snd (List.filter (fun c => String.eqb c.1 q) cs))).
Proof.
  revert s. induction cs as [|[k e] cs IH]; intros s; simpl.
  - by destruct s as [? ? []].
  - destruct (String.eqb k q); simpl; [|apply IH].
    rewrite IH. by destruct s as [? ? []].
Qed.

Lemma for_each_ext {St A} (f g : A -> St -> completion St unit) (l : list A) (s : St) :
  (forall a s, a ∈ l -> f a s = g a s) -> for_each l f s = for_each l g s.
Proof.
  revert s. induction l as [|a l IH]; intros s Hfg; simpl; [done|].
  rewrite (Hfg a s) by apply list_elem_of_here.
  destruct (g a s) as [[] s'|e s']; simpl; [|done].
  apply IH. intros a' s'' Ha'. by apply Hfg, list_elem_of_further.
Qed.

Lemma foldl_reset q (l : list string) (s : Species) :
  foldl (fun s a => if String.eqb a q then set_rate_law_expression s None else s) s l
  = if bool_decide (q ∈ l) then set_rate_law_expression s None else s.
Proof.
  revert s. induction l as [|a l IH]; intros s; simpl; [done|].
  rewrite IH. destruct (String.eqb_spec a q) as [->|Hne].
  - rewrite (bool_decide_eq_true_2 (q ∈ q :: l)) by apply list_elem_of_here.
    by case_bool_decide.
  - assert (Hiff : q ∈ a :: l <-> q ∈ l).
    { rewrite elem_of_cons. split; [intros [?|?]; [congruence|done]|by right]. }
    by rewrite (bool_decide_ext _ _ Hiff).
Qed.

Lemma array_set_le {A} (hole : A) l i v :
  i <= length l -> array_set hole l i v = take i l ++ v :: drop (S i) l.
Proof.
  intros Hi. unfold array_set. case_decide as Hlt.
  - by rewrite insert_take_drop.
  - assert (i = length l) as -> by lia.
    rewrite Nat.sub_diag, firstn_all, drop_ge by lia. done.
Qed.

Lemma take_drop_after {A} (l1 l2 : list A) x n k :
  length l1 = n ->
  take (n + 1) (l1 ++ x :: l2) = l1 ++ [x]
  /\ drop (n + 1 + k) (l1 ++ x :: l2) = drop k l2.
Proof.
  intros <-. split.
  - rewrite (cons_middle x l1 l2), app_assoc.
    apply take_app_length'. rewrite length_app. simpl. lia.
  - rewrite (cons_middle x l1 l2), app_assoc.
    replace (length l1 + 1) with (length (l1 ++ [x])) by (rewrite length_app; simpl; lia).
    apply drop_app_add.
Qed.

Section Compiler.
Context {expr : ExpressionService}.

Lemma add_terms_contributions interaction S :
  add_terms interaction S = for_each (contributions interaction) apply_term S.
Proof.
  unfold add_terms, contributions.
  assert (Hks : forall k, k ∈ variables interaction -> k ∈ Obj.keys (rules interaction)) by done.
  revert S Hks. generalize (variables interaction) as ks.
  induction ks as [|k ks IH]; intros S Hks; simpl; [done|].
  destruct (Obj_keys_get_Some (rules interaction) k) as [rule Hrule].
  { apply Hks, list_elem_of_here. }
  unfold add_term at 1. rewrite Hrule. simpl.
  destruct (expression rule) as [e|] eqn:He; simpl.
  - unfold apply_term at 1. simpl.
    destruct (Obj.get (species S) k) as [p|]; simpl; [|done].
    apply IH. intros k' Hk'. by apply Hks, list_elem_of_further.
  - apply IH. intros k' Hk'. by apply Hks, list_elem_of_further.
Qed.

Lemma compile_species_loop (pre ks : list string) (S : System) :
  parse "0" = Ok (ConstantNode "0") ->
  NoDup (Obj.keys (species S)) ->
  Obj.keys (species S) = pre ++ ks ->
  length pre <= length (model S) ->
  for_each ks compile_species S
  = Normal tt (set_model S (take (length pre) (model S)
                            ++ map (slot_of (species S)) ks
                            ++ drop (length pre + length ks) (model S))).
Proof.
  intros Hzero. revert pre S. induction ks as [|k ks IH]; intros pre S Hnd Hkeys Hlen; simpl.
  - rewrite Nat.add_0_r, take_drop. by destruct S.
  - assert (Hk : Obj.keys (species S) !! length pre = Some k).
    { rewrite Hkeys. by rewrite list_lookup_middle. }
    unfold compile_species at 1. rewrite (indexOf_lookup _ _ _ Hnd Hk).
    destruct (Obj_keys_get_Some (species S) k) as [s Hs].
    { apply list_elem_of_lookup. eauto. }
    rewrite Hs.
    assert (Hslot : compiled_rate_law s = Ok (slot_of (species S) k)).
    { unfold compiled_rate_law, slot_of. rewrite Hs. simpl.
      destruct (expression (rate_law s)); simpl; [done|]. by rewrite Hzero. }
    rewrite Hslot. simpl.
    rewrite (IH (pre ++ [k])); simpl.
    + f_equal. destruct S as [c sp pa ins lv m]. unfold set_model. simpl in *. f_equal.
      rewrite array_set_le by done. rewrite length_app. simpl.
      destruct (take_drop_after (take (length pre) m) (drop (S (length pre)) m)
                  (slot_of sp k) (length pre) (length ks)) as [-> ->].
      { rewrite length_take. lia. }
      rewrite drop_drop, <- !app_assoc. simpl. do 3 f_equal.
      f_equal. lia.
    + done.
    + by rewrite Hkeys, <- app_assoc.
    + rewrite array_set_length, length_app. simpl. lia.
Qed.

(** C2, as the code has it.  For a system whose species ids are distinct
    and whose live instances contribute terms to registered species only,
    with a parser that reads "0" as the constant zero, [compile] returns and:
    it keeps the species and their order; the rate law of every species is
    the left-associated sum [((t1 + t2) + ...) + tn] of the expressions the
    live instances contribute to it, taken in registration order, whatever
    the rate law was before (one term is assigned as it is); the rate law of
    a species without contributing instance is unset; and the model holds,
    in the order of the species, the evaluator compiled from each rate law,
    and from the constant zero where the rate law is unset. *)
Theorem compile_aggregates (S : System) :
  parse "0" = Ok (ConstantNode "0") ->
  Obj.wf (species S) ->
  (forall c, c ∈ flat_map contributions (_interactions S) ->
     c.1 ∈ Obj.keys (species S)) ->
  exists S',
    compile S = Normal tt S'
    /\ Obj.keys (species S') = Obj.keys (species S)
    /\ (forall sp s, Obj.get (species S) sp = Some s ->
          Obj.get (species S') sp
          = Some {| sp_name := sp_name s; value := value s;
                    rate_law := {| rule_name := rule_name (rate_law s);
                                   expression := sum_of_terms (terms_for S sp) |} |})
    /\ (forall sp, terms_for S sp = [] ->
          forall s', Obj.get (species S') sp = Some s' -> expression (rate_law s') = None)
    /\ model S'
       = map (fun sp => Compiled (default (ConstantNode "0")
                                          (sum_of_terms (terms_for S sp))))
             (Obj.keys (species S))
         ++ drop (length (Obj.keys (species S))) (model S)
    /\ config S' = config S
    /\ parameters S' = parameters S
    /\ interactions S' = interactions S
    /\ _interactions S' = _interactions S.
Proof.
  intros Hzero Hwf Hreg. unfold compile.
  (* the rate laws are reset *)
  rewrite (for_each_update (fun k : string => k) (fun _ s => set_rate_law_expression s None)).
  2:{ intros k S0 s Hs. unfold reset_rate_law. by rewrite Hs. }
  2:{ done. }
  set (sp1 := foldl _ (species S) (Obj.keys (species S))).
  assert (Hkeys1 : Obj.keys sp1 = Obj.keys (species S)) by apply foldl_update_keys.
  simpl and_then.
  (* the terms are added in registration order *)
  rewrite (for_each_ext _ (fun i => for_each (contributions i) apply_term))
    by (intros; apply add_terms_contributions).
  rewrite for_each_flat_map. simpl _interactions.
  rewrite (for_each_update fst (fun c => add_to_rate_law c.2)).
  2:{ intros c S0 p Hp. unfold apply_term. by rewrite Hp. }
  2:{ simpl. rewrite Hkeys1. apply Hreg. }
  simpl species. rewrite set_species_twice.
  set (sp2 := foldl _ sp1 (flat_map contributions (_interactions S))).
  assert (Hkeys2 : Obj.keys sp2 = Obj.keys (species S)).
  { subst sp2. by rewrite foldl_update_keys. }
  assert (Hget2 : forall sp s, Obj.get (species S) sp = Some s ->
            Obj.get sp2 sp = Some (set_rate_law_expression s (sum_of_terms (terms_for S sp)))).
  { intros q s Hs. subst sp2 sp1. rewrite !foldl_update_get, Hs. simpl. f_equal.
    rewrite foldl_reset, bool_decide_eq_true_2 by eauto using Obj_get_Some_keys.
    rewrite foldl_add_to_rate_law. simpl. rewrite foldl_plus_sum. done. }
  simpl and_then.
  (* the model is rebuilt *)
  rewrite (compile_species_loop [] (Obj.keys sp2)); simpl; try done.
  2:{ unfold Obj.wf in Hwf. by rewrite Hkeys2. }
  2:{ lia. }
  rewrite Hkeys2. eexists. split; [reflexivity|]. simpl.
  split; [done|]. split; [|split; [|split]].
  - intros q s Hs. by rewrite (Hget2 q s Hs).
  - intros q Hq s' Hs'.
    destruct (Obj_keys_get_Some (species S) q) as [s Hs].
    { rewrite <- Hkeys2. eauto using Obj_get_Some_keys. }
    rewrite (Hget2 q s Hs), Hq in Hs'. by inversion Hs'.
  - f_equal. apply map_ext_in. intros q Hq%list_elem_of_In.
    destruct (Obj_keys_get_Some (species S) q Hq) as [s Hs].
    unfold slot_of. by rewrite (Hget2 q s Hs).
  - done.
Qed.

End Compiler.

(** ** The simulation buffer *)

Lemma Obj_set_keys_subseteq {V} (o : obj V) k v q :
  q ∈ Obj.keys (Obj.set o k v) <-> q = k \/ q ∈ Obj.keys o.
Proof.
  destruct (Obj.get o k) as [v'|] eqn:E.
  - rewrite Obj_keys_set_Some by eauto. split; [by right|].
    intros [->|?]; [|done]. eauto using Obj_get_Some_keys.
  - rewrite Obj_keys_set_None by done. rewrite elem_of_app, list_elem_of_singleton.
    split; intros [?|?]; auto.
Qed.

Lemma Obj_set_wf {V} (o : obj V) k v : Obj.wf o -> Obj.wf (Obj.set o k v).
Proof.
  unfold Obj.wf. intros Hwf. destruct (Obj.get o k) as [v'|] eqn:E.
  - by rewrite Obj_keys_set_Some by eauto.
  - rewrite Obj_keys_set_None by done. apply NoDup_app. split; [done|]. split.
    + intros q Hq ->%list_elem_of_singleton. by apply Obj_get_None_keys in E.
    + apply NoDup_singleton.
Qed.

(** A loop that stores a value computed from the key and from the value
    the key had. *)
Lemma foldl_set_wf {V} (G : option V -> string -> V) (ks : list string) (o : obj V) :
  Obj.wf o -> Obj.wf (foldl (fun o k => Obj.set o k (G (Obj.get o k) k)) o ks).
Proof.
  revert o. induction ks as [|k ks IH]; intros o Hwf; simpl; [done|].
  apply IH. by apply Obj_set_wf.
Qed.

Lemma foldl_set_get {V} (G : option V -> string -> V) (ks : list string) (o : obj V) q :
  NoDup ks ->
  Obj.get (foldl (fun o k => Obj.set o k (G (Obj.get o k) k)) o ks) q
  = if bool_decide (q ∈ ks) then Some (G (Obj.get o q) q) else Obj.get o q.
Proof.
  revert o. induction ks as [|k ks IH]; intros o Hnd; simpl; [done|].
  apply NoDup_cons in Hnd as [Hk Hnd]. rewrite IH by done.
  destruct (decide (q = k)) as [->|Hne].
  - rewrite (bool_decide_eq_true_2 (k ∈ k :: ks)) by apply list_elem_of_here.
    rewrite bool_decide_eq_false_2 by done. apply Obj_get_set_eq.
  - assert (Hiff : q ∈ k :: ks <-> q ∈ ks).
    { rewrite elem_of_cons. split; [intros [?|?]; [congruence|done]|by right]. }
    rewrite (bool_decide_ext _ _ Hiff), Obj_get_set_ne by done. done.
Qed.

Lemma foldl_set_keys {V} (G : option V -> string -> V) (ks : list string) (o : obj V) q :
  q ∈ Obj.keys (foldl (fun o k => Obj.set o k (G (Obj.get o k) k)) o ks)
  <-> q ∈ ks \/ q ∈ Obj.keys o.
Proof.
  revert o. induction ks as [|k ks IH]; intros o; simpl.
  - split; [by right|]. by intros [?%elem_of_nil|?].
  - rewrite IH, Obj_set_keys_subseteq, elem_of_cons. tauto.
Qed.

(** A loop that stores a value computed from the key alone. *)
Lemma foldl_set_const_get {V} (f : string -> V) (ks : list string) (o : obj V) q :
  Obj.get (foldl (fun o k => Obj.set o k (f k)) o ks) q
  = if bool_decide (q ∈ ks) then Some (f q) else Obj.get o q.
Proof.
  revert o. induction ks as [|k ks IH]; intros o; simpl; [done|].
  rewrite IH. destruct (decide (q = k)) as [->|Hne].
  - rewrite (bool_decide_eq_true_2 (k ∈ k :: ks)) by apply list_elem_of_here.
    rewrite Obj_get_set_eq. by case_bool_decide.
  - assert (Hiff : q ∈ k :: ks <-> q ∈ ks).
    { rewrite elem_of_cons. split; [intros [?|?]; [congruence|done]|by right]. }
    rewrite (bool_decide_ext _ _ Hiff), Obj_get_set_ne by done. done.
Qed.

Lemma indexOf_elem (l : list string) k :
  k ∈ l -> exists i, indexOf l k = Some i /\ i < length l.
Proof.
  unfold indexOf. induction l as [|k' l IH]; simpl.
  - by intros ?%elem_of_nil.
  - destruct (String.eqb_spec k k') as [->|Hne].
    + intros _. exists 0. split; [done|lia].
    + intros [?|Hin]%elem_of_cons; [done|].
      destruct (IH Hin) as (i & -> & Hi). exists (S i). split; [done|lia].
Qed.

Lemma transpose_columns x y n :
  transpose x = Ok y ->
  Forall (fun row => length row = n) x ->
  length y = n /\ forall i col, y !! i = Some col -> length col = length x.
Proof.
  unfold transpose. destruct x as [|x0 x]; [done|].
  intros [= <-] Hrows. apply Forall_cons in Hrows as [Hx0 _]. split.
  - by rewrite length_map, length_seq.
  - intros i col Hcol. rewrite list_lookup_fmap in Hcol.
    destruct (seq 0 (length x0) !! i); [|done]. simpl in Hcol.
    inversion Hcol. simpl. by rewrite length_map.
Qed.

Lemma new_Simulation_synchronized system solution s :
  new_Simulation system solution = Ok s ->
  (forall sys sol, system = TheSystem sys -> solution = Some sol ->
     well_formed_solution (length (species sys)) sol) ->
  synchronized s.
Proof.
  assert (Hempty : forall t, synchronized {| time := t; trajectory := [] |}).
  { intros t. split; [apply NoDup_nil_2|done]. }
  unfold new_Simulation. intros Hnew Hsol.
  destruct system as [|sys|ids].
  - inversion Hnew. apply Hempty.
  - simpl in Hnew. destruct solution as [sol|].
    + destruct (Hsol sys sol eq_refl eq_refl) as [Hlen Hrows].
      destruct (transpose (sol_y sol)) as [y|e] eqn:Hy; simpl in Hnew; [|done].
      inversion Hnew; subst; clear Hnew.
      apply (transpose_columns _ _ _ Hy) in Hrows as [Hn Hcols].
      split; simpl.
      * apply (foldl_set_wf (fun _ id => indexOf (Obj.keys (species sys)) id ≫= (y !!.))).
        apply NoDup_nil_2.
      * intros id tr. rewrite foldl_set_const_get. case_bool_decide as Hin; [|done].
        intros [= <-]. destruct (indexOf_elem _ _ Hin) as (i & -> & Hi). simpl.
        destruct (lookup_lt_is_Some_2 y i) as [col Hcol].
        { rewrite Hn. by rewrite Obj_keys_length in Hi. }
        exists col. split; [done|]. rewrite (Hcols i col Hcol). done.
    + inversion Hnew; subst; clear Hnew. split; simpl.
      * apply (foldl_set_wf
                 (fun _ id => (fun s => [Some (value s)]) <$> Obj.get (species sys) id)).
        apply NoDup_nil_2.
      * intros id tr. rewrite foldl_set_const_get. case_bool_decide as Hin; [|done].
        intros [= <-]. destruct (Obj_keys_get_Some _ _ Hin) as [sp ->]. simpl. eauto.
  - simpl in Hnew. destruct solution as [sol|].
    + destruct (transpose (sol_y sol)); simpl in Hnew; [|done].
      inversion Hnew. apply Hempty.
    + inversion Hnew. apply Hempty.
Qed.

Lemma trajectory_of_get s id l :
  trajectory_of s id = Some l <-> Obj.get (trajectory s) id = Some (Some l).
Proof.
  unfold trajectory_of. destruct (Obj.get (trajectory s) id) as [[l'|]|]; simpl.
  - split; intros [= ->]; done.
  - split; done.
  - split; done.
Qed.

Lemma trim_loop (n : nat) (ks : list string) (s : Simulation) :
  NoDup ks ->
  Obj.wf (trajectory s) ->
  (forall k, k ∈ ks -> exists l, Obj.get (trajectory s) k = Some (Some l)) ->
  exists s',
    for_each ks (trim_trajectory n) s = Normal tt s'
    /\ time s' = time s
    /\ Obj.wf (trajectory s')
    /\ forall q, Obj.get (trajectory s') q
         = if bool_decide (q ∈ ks)
           then (fun tr : option (list sample) => drop n <$> tr) <$> Obj.get (trajectory s) q
           else Obj.get (trajectory s) q.
Proof.
  revert s. induction ks as [|k ks IH]; intros s Hnd Hwf Hall; simpl.
  - eauto.
  - apply NoDup_cons in Hnd as [Hk Hnd].
    destruct (Hall k) as [l Hl]; [apply list_elem_of_here|].
    assert (Hstep : exists s1,
      trim_trajectory n k s = Normal tt s1 /\ time s1 = time s
      /\ Obj.wf (trajectory s1)
      /\ Obj.get (trajectory s1) k = Some (Some (drop n l))
      /\ forall q, q <> k -> Obj.get (trajectory s1) q = Obj.get (trajectory s) q).
    { unfold trim_trajectory. destruct n as [|n].
      - exists s. rewrite drop_0. done.
      - rewrite (proj2 (trajectory_of_get s k l) Hl).
        eexists. split; [reflexivity|]. simpl.
        split; [done|]. split; [by apply Obj_set_wf|].
        split; [apply Obj_get_set_eq|]. intros q Hq. by apply Obj_get_set_ne. }
    destruct Hstep as (s1 & -> & Ht1 & Hwf1 & Hk1 & Hother). simpl.
    destruct (IH s1 Hnd Hwf1) as (s' & -> & Ht' & Hwf' & Hget').
    { intros k' Hk'. rewrite Hother by (intros ->; done).
      apply Hall. by apply list_elem_of_further. }
    exists s'. split; [done|]. split; [congruence|]. split; [done|].
    intros q. rewrite Hget'. destruct (decide (q = k)) as [->|Hne].
    + rewrite bool_decide_eq_false_2 by done.
      rewrite (bool_decide_eq_true_2 (k ∈ k :: ks)) by apply list_elem_of_here.
      by rewrite Hk1, Hl.
    + assert (Hiff : q ∈ k :: ks <-> q ∈ ks).
      { rewrite elem_of_cons. split; [intros [?|?]; [congruence|done]|by right]. }
      rewrite (bool_decide_ext _ _ Hiff), Hother by done. done.
Qed.

(** [trim] returns on a synchronized buffer, and the buffer it leaves is
    synchronized: [time] and every trajectory lose the same number of leading
    entries. *)
Lemma trim_synchronized buffer_size s :
  synchronized s ->
  let cutoff := (to_num (last (time s)) - buffer_size)%float in
  let n := default 0 (indexOf_num (time s) cutoff) in
  exists s', trim buffer_size s = Normal tt s'
    /\ synchronized s'
    /\ time s' = drop n (time s)
    /\ forall id l, Obj.get (trajectory s) id = Some (Some l) ->
         Obj.get (trajectory s') id = Some (Some (drop n l)).
Proof.
  intros [Hwf Hlen] cutoff n. unfold trim. fold cutoff. fold n.
  destruct (trim_loop n (Obj.keys (trajectory s))
              {| time := drop n (time s); trajectory := trajectory s |})
    as (s' & Hs' & Ht' & Hwf' & Hget'); simpl; [done|done| |].
  { intros k Hk. destruct (Obj_keys_get_Some _ _ Hk) as [tr Htr].
    destruct (Hlen k tr Htr) as (l & -> & _). eauto. }
  simpl in *. exists s'. split; [done|]. split; [split; [done|]|].
  - intros id tr. rewrite Hget'. case_bool_decide as Hin.
    + destruct (Obj.get (trajectory s) id) as [tr0|] eqn:E; [|done].
      destruct (Hlen id tr0 E) as (l & -> & Hl). simpl. intros [= <-].
      exists (drop n l). split; [done|]. by rewrite Ht', !length_drop, Hl.
    + intros Hget. exfalso. apply Hin. eauto using Obj_get_Some_keys.
  - split; [done|]. intros id l Hl. rewrite Hget'.
    rewrite bool_decide_eq_true_2 by eauto using Obj_get_Some_keys. by rewrite Hl.
Qed.

Lemma perturb_synchronized id dose s :
  synchronized s -> synchronized (final_state (perturb id dose s)).
Proof.
  intros [Hwf Hlen]. unfold perturb.
  destruct (trajectory_of s id) as [tr|] eqn:Htr; [|done].
  apply trajectory_of_get in Htr.
  destruct (Hlen id _ Htr) as (l & [= <-] & Hl).
  remember (length (time s)) as len eqn:Ht. destruct len as [|i]; simpl.
  { split; [done|]. by rewrite <- Ht. }
  split; simpl; [by apply Obj_set_wf|].
  intros q tr'. destruct (decide (q = id)) as [->|Hne].
  - rewrite Obj_get_set_eq. intros [= <-]. eexists. split; [done|].
    rewrite array_set_length, <- Ht. lia.
  - rewrite Obj_get_set_ne by done. rewrite <- Ht. apply Hlen.
Qed.

Lemma sort_insert_elem x l q : q ∈ sort_insert x l <-> q = x \/ q ∈ l.
Proof.
  induction l as [|y l IH]; simpl.
  - by rewrite list_elem_of_singleton, elem_of_nil; intuition.
  - destruct (String.leb x y).
    + by rewrite elem_of_cons.
    + rewrite !elem_of_cons, IH. tauto.
Qed.

Lemma js_sort_elem l q : q ∈ js_sort l <-> q ∈ l.
Proof.
  unfold js_sort. induction l as [|x l IH]; simpl; [done|].
  by rewrite sort_insert_elem, IH, elem_of_cons.
Qed.

Lemma union_of_elem combined union q :
  union_of combined = Ok union -> q ∈ union -> q ∈ combined.
Proof.
  unfold union_of. destruct combined as [|sp0 rest]; [done|].
  intros [= <-] [->|Hin]%elem_of_cons; [apply list_elem_of_here|].
  apply list_elem_of_further.
  apply list_elem_of_fmap in Hin as ([sp1 sp2] & -> & Hin).
  apply list_elem_of_In, filter_In in Hin as [Hin _].
  apply list_elem_of_In in Hin. simpl.
  by apply (elem_of_zip_r sp1 sp2 (sp0 :: rest) rest).
Qed.

(** [concat] of two synchronized buffers is synchronized. *)
Lemma concat_synchronized this other s :
  synchronized this -> synchronized other ->
  concat this other = Ok s ->
  synchronized s
  /\ length (time s) = length (time this) + length (time other).
Proof.
  intros [Hwf1 Hlen1] [Hwf2 Hlen2]. unfold concat.
  destruct (union_of _) as [union|e] eqn:Hunion; simpl; [|done].
  intros [= <-]. split; [split|]; simpl.
  - apply (foldl_set_wf (fun _ id => concat_trajectory this other id)). apply NoDup_nil_2.
  - intros id tr. rewrite foldl_set_const_get. case_bool_decide as Hin; [|done].
    intros [= <-]. rewrite length_app, length_map.
    apply (union_of_elem _ _ _ Hunion), js_sort_elem, elem_of_app in Hin.
    unfold concat_trajectory, trajectory_of.
    destruct (Obj.get (trajectory this) id) as [tr1|] eqn:E1;
      destruct (Obj.get (trajectory other) id) as [tr2|] eqn:E2; simpl.
    + destruct (Hlen1 _ _ E1) as (l1 & -> & Hl1).
      destruct (Hlen2 _ _ E2) as (l2 & -> & Hl2). simpl.
      eexists. split; [reflexivity|]. rewrite length_app. by f_equal.
    + destruct (Hlen1 _ _ E1) as (l1 & -> & Hl1). simpl.
      eexists. split; [reflexivity|]. unfold Array. rewrite length_app, length_replicate. by f_equal.
    + destruct (Hlen2 _ _ E2) as (l2 & -> & Hl2). simpl.
      eexists. split; [reflexivity|]. unfold Array. rewrite length_app, length_replicate. by f_equal.
    + exfalso. destruct Hin as [Hin|Hin].
      * apply Obj_keys_get_Some in Hin as [? ?]. congruence.
      * apply Obj_keys_get_Some in Hin as [? ?]. congruence.
  - by rewrite length_app, length_map.
Qed.

Section Buffer.
Context {expr : ExpressionService} {ode : Integrator}.

(** A tick on a synchronized buffer leaves a synchronized buffer, whether
    it returns or throws; when it throws, the buffer is the one before the
    tick. *)
Lemma update_state_synchronized system config s :
  well_formed_integrator ->
  synchronized s ->
  synchronized (final_state (update_state system config s))
  /\ forall e s', update_state system config s = Abrupt e s' -> s' = s.
Proof.
  intros Hint Hsync. assert (Hsync' := Hsync). destruct Hsync' as [Hwf Hlen].
  unfold update_state.
  destruct (traverse_list (last_sample s) (Obj.keys (trajectory s))) as [iv|e] eqn:Hiv;
    [|split; [done|by intros ? ? [= _ <-]]].
  destruct (dopri _ _ iv _) as [sol|e] eqn:Hsol;
    [|split; [done|by intros ? ? [= _ <-]]].
  destruct (transpose (sol_y sol)) as [y|e] eqn:Hy;
    [|split; [done|by intros ? ? [= _ <-]]].
  apply Hint in Hsol as [Hrows Hdim]; [|intros t y0 dy; apply dY_length].
  destruct (transpose_columns _ _ _ Hy Hdim) as [Hn Hcols].
  apply traverse_list_length in Hiv.
  match goal with
  | |- context [if ?b then trim ?bs ?st else _] => set (s1 := st)
  end.
  assert (Hs1 : synchronized s1).
  { subst s1. split; simpl.
    - by apply (foldl_set_wf
        (fun old id_tr => Some (js_concat (default [] (mjoin old))
                                          (indexOf (Obj.keys (trajectory s)) id_tr ≫= (y !!.))))).
    - intros id tr.
      rewrite (foldl_set_get
        (fun old id_tr => Some (js_concat (default [] (mjoin old))
                                          (indexOf (Obj.keys (trajectory s)) id_tr ≫= (y !!.)))))
        by done.
      case_bool_decide as Hin.
      + intros [= <-]. destruct (Obj_keys_get_Some _ _ Hin) as [tr0 Htr0].
        rewrite Htr0. destruct (Hlen _ _ Htr0) as (l & -> & Hl). simpl.
        destruct (indexOf_elem _ _ Hin) as (i & -> & Hi). simpl.
        destruct (lookup_lt_is_Some_2 y i) as [col Hcol]; [lia|].
        rewrite Hcol. simpl. eexists. split; [reflexivity|].
        rewrite !length_app, length_map, (Hcols i col Hcol). by f_equal.
      + intros Hget. exfalso. apply Hin. eauto using Obj_get_Some_keys. }
  destruct (PrimFloat.ltb _ _).
  - destruct (trim_synchronized (buffer_size config) s1 Hs1) as (s' & -> & Hs' & _).
    split; [done|]. intros ? ? [=].
  - split; [done|]. intros ? ? [=].
Qed.

Lemma simulate_result t0 tf sys sys' s :
  simulate t0 tf sys = Normal s sys' -> synchronized s.
Proof.
  unfold simulate.
  destruct (for_each _ simulate_species sys) as [[] S1|e S1]; cbn [and_then]; [|done].
  destruct (dopri _ _ _ _) as [sol|e]; [|done].
  destruct (new_Simulation (SpeciesIds (Obj.keys (species S1))) (Some sol))
    as [sim|e] eqn:Hnew; [|done].
  destruct (for_each _ (write_back sim) S1) as [[] S2|e S2]; cbn [and_then]; [|done].
  intros [= <- _]. apply (new_Simulation_synchronized _ _ _ Hnew). by intros.
Qed.


End Buffer.

(** ** Instances share no node with their definition *)

Lemma Node_ind' (P : Node -> Prop) :
  (forall v, P (ConstantNode v)) ->
  (forall x, P (SymbolNode x)) ->
  (forall op fn args, Forall P args -> P (OperatorNode op fn args)) ->
  (forall f args, Forall P args -> P (FunctionNode f args)) ->
  forall n, P n.
Proof.
  intros Hc Hs Ho Hf. fix IH 1. intros [v|x|op fn args|f args].
  - apply Hc.
  - apply Hs.
  - apply Ho. induction args as [|a args IHargs]; constructor; [apply IH|apply IHargs].
  - apply Hf. induction args as [|a args IHargs]; constructor; [apply IH|apply IHargs].
Qed.

Lemma extends_refl h : Heap.extends h h.
Proof. split; [lia|done]. Qed.

Lemma extends_trans h1 h2 h3 :
  Heap.extends h1 h2 -> Heap.extends h2 h3 -> Heap.extends h1 h3.
Proof.
  intros [Hl1 H1] [Hl2 H2]. split; [lia|].
  intros l Hl. rewrite H2 by lia. by apply H1.
Qed.

Lemma extends_app h cells : Heap.extends h (h ++ cells).
Proof.
  split; [rewrite length_app; lia|]. intros l Hl. by apply lookup_app_l.
Qed.

Lemma closed_from_snoc lo h c :
  Heap.closed_from lo h ->
  Forall (fun l' => lo <= l') (Heap.cell_args c) ->
  Heap.closed_from lo (h ++ [c]).
Proof.
  intros Hclosed Hc l c' Hl Hget.
  destruct (decide (l < length h)) as [Hlt|Hge].
  - rewrite lookup_app_l in Hget by done. by apply (Hclosed l).
  - rewrite lookup_app_r in Hget by lia.
    destruct (l - length h); simpl in Hget; [|done]. by inversion Hget; subst.
Qed.

Lemma alloc_args_ok (args : list Node) :
  Forall alloc_ok args ->
  forall h ls0 h' ls lo,
    foldl (fun acc a => let '(h1, l) := Heap.alloc a acc.1 in (h1, acc.2 ++ [l]))
          (h, ls0) args = (h', ls) ->
    Heap.extends h h'
    /\ (Forall (fun l => lo <= l) ls0 -> lo <= length h -> Forall (fun l => lo <= l) ls)
    /\ (lo <= length h -> Heap.closed_from lo h -> Heap.closed_from lo h').
Proof.
  induction 1 as [|a args Ha _ IH]; intros h ls0 h' ls lo; simpl.
  - intros [= <- <-]. split; [apply extends_refl|]. split; auto.
  - destruct (Heap.alloc a h) as [h1 l1] eqn:Halloc. simpl. intros Hfold.
    destruct (Ha h h1 l1 lo Halloc) as (Hext1 & Hl1 & Hclosed1).
    destruct (IH h1 (ls0 ++ [l1]) h' ls lo Hfold) as (Hext & Hls & Hclosed).
    destruct Hext1 as [Hlen1 Hsame1].
    split; [by eapply extends_trans|]. split.
    + intros Hls0 Hlo. apply Hls; [|lia].
      apply Forall_app. split; [done|]. apply Forall_singleton. lia.
    + intros Hlo Hc. apply Hclosed; [lia|auto].
Qed.

Lemma alloc_spec (n : Node) : alloc_ok n.
Proof.
  induction n as [v|x|op fn args IH|f args IH] using Node_ind';
    intros h h' l lo; simpl.
  - intros [= <- <-]. split; [apply extends_app|]. rewrite length_app. simpl.
    split; [lia|]. intros _ Hc. apply closed_from_snoc; [done|constructor].
  - intros [= <- <-]. split; [apply extends_app|]. rewrite length_app. simpl.
    split; [lia|]. intros _ Hc. apply closed_from_snoc; [done|constructor].
  - destruct (foldl _ (h, []) args) as [h1 ls] eqn:Hfold. intros [= <- <-].
    destruct (alloc_args_ok args IH h [] h1 ls lo Hfold) as (Hext & Hls & Hclosed).
    split; [eapply extends_trans; [done|apply extends_app]|].
    destruct Hext as [Hlen _]. rewrite length_app. simpl. split; [lia|].
    intros Hlo Hc. apply closed_from_snoc; [auto|]. simpl. auto.
  - destruct (foldl _ (h, []) args) as [h1 ls] eqn:Hfold. intros [= <- <-].
    destruct (alloc_args_ok args IH h [] h1 ls lo Hfold) as (Hext & Hls & Hclosed).
    split; [eapply extends_trans; [done|apply extends_app]|].
    destruct Hext as [Hlen _]. rewrite length_app. simpl. split; [lia|].
    intros Hlo Hc. apply closed_from_snoc; [auto|]. simpl. auto.
Qed.

(** Traversing from a new object meets new objects only. *)
Lemma node_refs_from lo h fuel l l' :
  Heap.closed_from lo h -> lo <= l ->
  l' ∈ Heap.node_refs fuel h l -> lo <= l'.
Proof.
  intros Hclosed. revert l. induction fuel as [|fuel IH]; intros l Hl; simpl.
  - by intros ?%elem_of_nil.
  - intros [->|Hin]%elem_of_cons; [done|].
    destruct (h !! l) as [c|] eqn:Hc; [|by apply elem_of_nil in Hin].
    assert (Hargs := Hclosed l c Hl Hc).
    assert (Hsub : l' ∈ flat_map (Heap.node_refs fuel h) (Heap.cell_args c)).
    { destruct c; simpl in *; try done; by apply elem_of_nil in Hin. }
    apply list_elem_of_In, in_flat_map in Hsub as (l0 & Hl0 & Hl').
    apply list_elem_of_In in Hl0. apply list_elem_of_In in Hl'.
    apply (IH l0); [|done]. by apply (proj1 (Forall_forall _ _) Hargs).
Qed.

(** Traversing a tree that reads as a value stays among the objects of
    the store. *)
Lemma node_refs_read h fuel l e l' :
  Heap.read fuel h l = Some e ->
  l' ∈ Heap.node_refs fuel h l -> l' < length h.
Proof.
  revert l e. induction fuel as [|fuel IH]; intros l e; simpl; [done|].
  destruct (h !! l) as [c|] eqn:Hc; [|done].
  intros Hread [->|Hin]%elem_of_cons; [by eapply lookup_lt_Some|].
  assert (Hkids : forall ls es, mapM (Heap.read fuel h) ls = Some es ->
            l' ∈ flat_map (Heap.node_refs fuel h) ls -> l' < length h).
  { intros ls es Hes Hl'. apply mapM_Some in Hes.
    apply list_elem_of_In, in_flat_map in Hl' as (l0 & Hl0 & Hl').
    apply list_elem_of_In in Hl0. apply list_elem_of_In in Hl'.
    apply list_elem_of_lookup in Hl0 as [i Hi].
    destruct (Forall2_lookup_l _ _ _ _ _ Hes Hi) as (e0 & _ & He0).
    by apply (IH l0 e0). }
  destruct c as [v|x|op fn ls|f ls]; simpl in *.
  - by apply elem_of_nil in Hin.
  - by apply elem_of_nil in Hin.
  - destruct (mapM (Heap.read fuel h) ls) as [es|] eqn:Hes; [|done]. eauto.
  - destruct (mapM (Heap.read fuel h) ls) as [es|] eqn:Hes; [|done]. eauto.
Qed.

(** A tree reads the same in a store that keeps its objects. *)
Lemma read_extends h h' fuel l e :
  Heap.extends h h' ->
  Heap.read fuel h l = Some e -> Heap.read fuel h' l = Some e.
Proof.
  intros [_ Hsame]. revert l e. induction fuel as [|fuel IH]; intros l e; simpl; [done|].
  destruct (h !! l) as [c|] eqn:Hc; [|done].
  rewrite Hsame by (by eapply lookup_lt_Some). rewrite Hc.
  assert (Hkids : forall ls es, mapM (Heap.read fuel h) ls = Some es ->
            mapM (Heap.read fuel h') ls = Some es).
  { intros ls es Hes. apply mapM_Some. apply mapM_Some in Hes.
    eapply Forall2_impl; [done|]. intros l0 e0. apply IH. }
  destruct c as [v|x|op fn ls|f ls]; simpl; try done.
  - destruct (mapM (Heap.read fuel h) ls) as [es|] eqn:Hes; [|done].
    by rewrite (Hkids ls es Hes).
  - destruct (mapM (Heap.read fuel h) ls) as [es|] eqn:Hes; [|done].
    by rewrite (Hkids ls es Hes).
Qed.

Lemma rename_node_spec tbl h l lo :
  lo <= l ->
  length (Heap.rename_node tbl h l) = length h
  /\ (forall l', l' < lo -> Heap.rename_node tbl h l !! l' = h !! l')
  /\ (Heap.closed_from lo h -> Heap.closed_from lo (Heap.rename_node tbl h l)).
Proof.
  intros Hl. unfold Heap.rename_node.
  destruct (h !! l) as [[v|x|op fn ls|f ls]|] eqn:Hc; try done.
  destruct (tbl !! x) as [x'|]; [|done].
  split; [apply length_insert|]. split.
  - intros l' Hl'. apply list_lookup_insert_ne. lia.
  - intros Hclosed l0 c0 Hl0 Hget. destruct (decide (l0 = l)) as [->|Hne].
    + rewrite list_lookup_insert_eq in Hget by (by eapply lookup_lt_Some).
      inversion Hget. constructor.
    + rewrite list_lookup_insert_ne in Hget by done. by apply (Hclosed l0).
Qed.

Lemma rename_nodes_spec tbl ls h lo :
  Forall (fun l => lo <= l) ls ->
  length (foldl (Heap.rename_node tbl) h ls) = length h
  /\ (forall l', l' < lo -> foldl (Heap.rename_node tbl) h ls !! l' = h !! l')
  /\ (Heap.closed_from lo h -> Heap.closed_from lo (foldl (Heap.rename_node tbl) h ls)).
Proof.
  intros Hls. revert h. induction Hls as [|l ls Hl _ IH]; intros h; simpl; [done|].
  destruct (rename_node_spec tbl h l lo Hl) as (Hlen1 & Hsame1 & Hclosed1).
  destruct (IH (Heap.rename_node tbl h l)) as (Hlen & Hsame & Hclosed).
  split; [congruence|]. split.
  - intros l' Hl'. rewrite Hsame by done. by apply Hsame1.
  - auto.
Qed.

Lemma substitute_symbols_spec tbl h root lo :
  Heap.closed_from lo h -> lo <= root ->
  length (Heap.substitute_symbols tbl h root) = length h
  /\ (forall l', l' < lo -> Heap.substitute_symbols tbl h root !! l' = h !! l')
  /\ Heap.closed_from lo (Heap.substitute_symbols tbl h root).
Proof.
  intros Hclosed Hroot. unfold Heap.substitute_symbols.
  destruct (rename_nodes_spec tbl (Heap.symbol_refs h root) h lo) as (Hlen & Hsame & Hc).
  - apply Forall_forall. intros l Hl. unfold Heap.symbol_refs in Hl.
    apply list_elem_of_In, filter_In in Hl as [Hl _]. apply list_elem_of_In in Hl.
    by eapply node_refs_from.
  - auto.
Qed.

Lemma roots_from_set lo rs k r :
  roots_from lo rs ->
  (forall root, Heap.expression_ref r = Some root -> lo <= root) ->
  roots_from lo (Obj.set rs k r).
Proof.
  unfold roots_from. intros Hrs Hr. induction Hrs as [|[k' r'] rs Hr' Hrs IH]; simpl.
  - constructor; [done|constructor].
  - destruct (String.eqb k' k); constructor; done.
Qed.

Lemma substitute_rules_spec tbl rs h lo :
  roots_from lo rs -> Heap.closed_from lo h ->
  length (Heap.substitute_rules tbl rs h) = length h
  /\ (forall l', l' < lo -> Heap.substitute_rules tbl rs h !! l' = h !! l')
  /\ Heap.closed_from lo (Heap.substitute_rules tbl rs h).
Proof.
  unfold Heap.substitute_rules. intros Hrs. revert h.
  induction Hrs as [|[k r] rs Hr _ IH]; intros h Hclosed; simpl; [done|].
  destruct (Heap.expression_ref r) as [root|] eqn:Hroot; [|by apply IH].
  destruct (substitute_symbols_spec tbl h root lo Hclosed) as (Hlen1 & Hsame1 & Hclosed1).
  { by apply Hr. }
  destruct (IH _ Hclosed1) as (Hlen & Hsame & Hc).
  split; [congruence|]. split; [|done].
  intros l' Hl'. rewrite Hsame by done. by apply Hsame1.
Qed.

Section Sharing.
Context {expr : ExpressionService}.

Lemma copy_rule_spec base i_r h rs h' rs' lo :
  Heap.copy_rule base i_r (h, rs) = Ok (h', rs') ->
  lo <= length h -> Heap.closed_from lo h -> roots_from lo rs ->
  Heap.extends h h' /\ Heap.closed_from lo h' /\ roots_from lo rs'.
Proof.
  unfold Heap.copy_rule. intros Hcopy Hlo Hclosed Hroots.
  destruct (Obj.get (Heap.rule_refs base) _) as [old_rule|]; [|done].
  destruct (Heap.expression_ref old_rule) as [root|].
  2:{ inversion Hcopy; subst. split; [apply extends_refl|done]. }
  destruct (Obj.get rs _) as [new_rule|]; [|done].
  destruct (Heap.read (length h) h root) as [e|]; [|done].
  unfold Heap.Rule_set in Hcopy.
  destruct (parse (toString e)) as [e'|err]; simpl in Hcopy; [|done].
  destruct (Heap.alloc e' h) as [h1 root'] eqn:Halloc. simpl in Hcopy.
  inversion Hcopy; subst; clear Hcopy.
  destruct (alloc_spec e' h h' root' lo Halloc) as (Hext & Hroot' & Hc).
  split; [done|]. split; [auto|].
  apply roots_from_set; [done|]. simpl. intros root0 [= <-]. lia.
Qed.

Lemma copy_loop_spec base idx h rs h' rs' lo :
  for_result idx (Heap.copy_rule base) (h, rs) = Ok (h', rs') ->
  lo <= length h -> Heap.closed_from lo h -> roots_from lo rs ->
  Heap.extends h h' /\ Heap.closed_from lo h' /\ roots_from lo rs'.
Proof.
  revert h rs. induction idx as [|i_r idx IH]; intros h rs; cbn [for_result].
  - intros [= <- <-]. split; [apply extends_refl|done].
  - destruct (Heap.copy_rule base i_r (h, rs)) as [[h1 rs1]|e] eqn:Hstep; simpl; [|done].
    intros Hloop Hlo Hclosed Hroots.
    destruct (copy_rule_spec _ _ _ _ _ _ _ Hstep Hlo Hclosed Hroots) as (Hext1 & Hc1 & Hr1).
    destruct (IH h1 rs1 Hloop) as (Hext & Hc & Hr); [destruct Hext1; lia|done|done|].
    split; [by eapply extends_trans|done].
Qed.

Lemma new_rules_roots lo (v_args : list string) :
  roots_from lo (foldl (fun rs v => Obj.set rs v Heap.new_RuleRef) [] v_args).
Proof.
  assert (Hgen : forall rs, roots_from lo rs ->
            roots_from lo (foldl (fun rs v => Obj.set rs v Heap.new_RuleRef) rs v_args)).
  { induction v_args as [|v v_args IH]; intros rs Hrs; simpl; [done|].
    apply IH. by apply roots_from_set. }
  apply Hgen. constructor.
Qed.

(** [new Interaction(base, v_args, p_args)] on a store [h] returns a
    store [h'] that keeps every node object of [h] as it is; every node
    reached from a rule of the instance was created by the call, and every
    node reached from a tree of [h] existed before it. *)
Lemma Interaction_fresh_nodes system h base v_args p_args h' inst :
  Heap.Interaction system h base v_args p_args = Ok (h', inst) ->
  (forall l, l < length h -> h' !! l = h !! l)
  /\ (forall fuel root e, Heap.read fuel h root = Some e -> Heap.read fuel h' root = Some e)
  /\ (forall r_id r root fuel l,
        (r_id, r) ∈ Heap.rule_refs inst -> Heap.expression_ref r = Some root ->
        l ∈ Heap.node_refs fuel h' root -> length h <= l)
  /\ (forall fuel root e l,
        Heap.read fuel h root = Some e -> l ∈ Heap.node_refs fuel h root -> l < length h)
  /\ (forall r_id r root fuel l c,
        (r_id, r) ∈ Heap.rule_refs inst -> Heap.expression_ref r = Some root ->
        l ∈ Heap.node_refs fuel h' root ->
        forall fuel0 root0 e0, Heap.read fuel0 h root0 = Some e0 ->
          Heap.read fuel0 (<[l := c]> h') root0 = Some e0).
Proof.
  intros Hnew.
  assert (Hmain : Heap.extends h h' /\ Heap.closed_from (length h) h'
                  /\ roots_from (length h) (Heap.rule_refs inst)).
  { unfold Heap.Interaction in Hnew.
    destruct (for_result _ _ _) as [[h1 rs1]|e] eqn:Hloop; simpl in Hnew; [|done].
    destruct (copy_loop_spec _ _ _ _ _ _ (length h) Hloop) as (Hext & Hc & Hr).
    { done. }
    { intros l c Hl Hget. apply lookup_lt_Some in Hget. lia. }
    { apply new_rules_roots. }
    repeat (destruct (negb _); [by inversion Hnew; subst|]).
    inversion Hnew; subst; clear Hnew. simpl.
    destruct (substitute_rules_spec
                (bind_symbols (bind_symbols ∅ (Obj.keys (Heap.rule_refs base)) v_args)
                   (parameters_of (Heap.definition_value h1 base)) p_args)
                rs1 h1 (length h) Hr Hc) as (Hlen & Hsame & Hc').
    split; [|done]. destruct Hext as [Hlen1 Hsame1]. split; [lia|].
    intros l Hl. rewrite Hsame by done. by apply Hsame1. }
  destruct Hmain as (Hext & Hclosed & Hroots).
  assert (Hfresh : forall r_id r root fuel l,
            (r_id, r) ∈ Heap.rule_refs inst -> Heap.expression_ref r = Some root ->
            l ∈ Heap.node_refs fuel h' root -> length h <= l).
  { intros r_id r root fuel l Hin Hroot Hl.
    apply (node_refs_from (length h) h' fuel root l Hclosed); [|done].
    by apply (proj1 (Forall_forall _ _) Hroots (r_id, r) Hin). }
  split; [apply Hext|]. split; [intros; by eapply read_extends|].
  split; [done|]. split; [intros; by eapply node_refs_read|].
  intros r_id r root fuel l c Hin Hroot Hl fuel0 root0 e0 Hread.
  apply (read_extends h); [|done]. destruct Hext as [Hlen Hsame]. split.
  - rewrite length_insert. lia.
  - intros l0 Hl0. rewrite list_lookup_insert_ne; [by apply Hsame|].
    specialize (Hfresh r_id r root fuel l Hin Hroot Hl). lia.
Qed.

(** The loop body of the earlier revision keeps every node object of the
    store as it is, too. *)
Lemma substitute_rule_legacy_extends tbl h root rate_law h' l :
  Heap.substitute_rule_legacy tbl h root rate_law = Ok (h', l) ->
  Heap.extends h h'.
Proof.
  unfold Heap.substitute_rule_legacy.
  destruct (Heap.read (length h) h root) as [e|]; [|done].
  destruct (parse (toString e)) as [tree|err]; simpl; [|done].
  destruct (Heap.alloc tree h) as [h1 l1] eqn:Halloc.
  destruct (alloc_spec tree h h1 l1 (length h) Halloc) as (Hext1 & Hl1 & Hclosed1).
  assert (Hclosed : Heap.closed_from (length h) h1).
  { apply Hclosed1; [done|]. intros l0 c Hl0 Hget. apply lookup_lt_Some in Hget. lia. }
  destruct (substitute_symbols_spec tbl h1 l1 (length h) Hclosed) as (Hlen2 & Hsame2 & _);
    [lia|].
  assert (Hext2 : Heap.extends h (Heap.substitute_symbols tbl h1 l1)).
  { destruct Hext1 as [Hlen1 Hsame1]. split; [lia|].
    intros l0 Hl0. rewrite Hsame2 by done. by apply Hsame1. }
  destruct rate_law as [previous|].
  - intros [= <- <-]. eapply extends_trans; [done|apply extends_app].
  - destruct (Heap.read _ _ l1) as [copy|]; [|done].
    destruct (Heap.alloc copy _) as [h3 l3] eqn:Halloc3. intros [= <- <-].
    destruct (alloc_spec copy _ h3 l3 0 Halloc3) as (Hext3 & _).
    by eapply extends_trans.
Qed.

(** C3.  When [addInteraction] returns, the definitions are the same
    objects and one instance was appended.  Every node object that existed
    before the call is as it was, so the expression of every rule of every
    definition reads as the same tree as before.  Every node reached from an
    expression of the new instance was created by the call, while every node
    reached from an expression of a definition existed before it: the trees
    of the instance share no node with the trees of the definitions.  Hence
    overwriting any node of a tree of the instance leaves the expression of
    every rule of every definition equal to its value before the call. *)
Theorem addInteraction_shares_no_node system id v_args p_args reg reg' :
  Heap.addInteraction system id v_args p_args reg = Normal tt reg' ->
  exists inst,
    Heap.definitions reg' = Heap.definitions reg
    /\ Heap.instances reg' = Heap.instances reg ++ [inst]
    /\ (forall d_id d k r root fuel e,
          Obj.get (Heap.definitions reg) d_id = Some d ->
          (k, r) ∈ Heap.rule_refs d -> Heap.expression_ref r = Some root ->
          Heap.read fuel (Heap.nodes reg) root = Some e ->
          Heap.read fuel (Heap.nodes reg') root = Some e
          /\ forall l, l ∈ Heap.node_refs fuel (Heap.nodes reg) root ->
               l < length (Heap.nodes reg)
               /\ Heap.nodes reg' !! l = Heap.nodes reg !! l
               /\ forall k' r' root' fuel',
                    (k', r') ∈ Heap.rule_refs inst ->
                    Heap.expression_ref r' = Some root' ->
                    l ∉ Heap.node_refs fuel' (Heap.nodes reg') root')
    /\ (forall k' r' root' fuel' l c,
          (k', r') ∈ Heap.rule_refs inst -> Heap.expression_ref r' = Some root' ->
          l ∈ Heap.node_refs fuel' (Heap.nodes reg') root' ->
          forall d_id d k r root fuel e,
            Obj.get (Heap.definitions reg) d_id = Some d ->
            (k, r) ∈ Heap.rule_refs d -> Heap.expression_ref r = Some root ->
            Heap.read fuel (Heap.nodes reg) root = Some e ->
            Heap.read fuel (<[l := c]> (Heap.nodes reg')) root = Some e).
Proof.
  unfold Heap.addInteraction.
  destruct (Obj.get (Heap.definitions reg) id) as [base|]; [|done].
  destruct (Heap.Interaction system (Heap.nodes reg) base v_args p_args)
    as [[h' inst]|e] eqn:Hnew; [|done].
  intros [= <-]. simpl. exists inst.
  destruct (Interaction_fresh_nodes _ _ _ _ _ _ _ Hnew)
    as (Hsame & Hread & Hfresh & Hold & Hmutate).
  split; [done|]. split; [done|]. split.
  - intros d_id d k r root fuel e _ _ _ Hr. split; [by apply Hread|].
    intros l Hl. assert (Hlt := Hold fuel root e l Hr Hl).
    split; [done|]. split; [by apply Hsame|].
    intros k' r' root' fuel' Hin Hroot' Hl'.
    specialize (Hfresh k' r' root' fuel' l Hin Hroot' Hl'). lia.
  - intros k' r' root' fuel' l c Hin Hroot' Hl d_id d k r root fuel e _ _ _ Hr.
    by eapply Hmutate.
Qed.

End Sharing.

(** ** The parameters of a definition *)

Lemma foldl_omap {A B C} (f : A -> option B) (g : C -> B -> C) (acc : C) (l : list A) :
  foldl (fun acc a => match f a with Some b => g acc b | None => acc end) acc l
  = foldl g acc (omap f l).
Proof.
  revert acc. induction l as [|a l IH]; intros acc; simpl; [done|].
  destruct (f a); simpl; apply IH.
Qed.

Lemma foldl_pointwise {A B} (f g : A -> B -> A) (acc : A) (l : list B) :
  (forall acc b, f acc b = g acc b) -> foldl f acc l = foldl g acc l.
Proof.
  intros Hfg. revert acc. induction l as [|b l IH]; intros acc; simpl; [done|].
  by rewrite Hfg, IH.
Qed.

Lemma filter_names (p : string -> bool) (l : list Node) :
  map Node_name (List.filter (fun n => is_SymbolNode n && p (Node_name n)) l)
  = List.filter p (map Node_name (List.filter is_SymbolNode l)).
Proof.
  induction l as [|n l IH]; simpl; [done|].
  destruct (is_SymbolNode n); simpl; [|done].
  destruct (p (Node_name n)); simpl; by rewrite IH.
Qed.

(** [parameters()] as a loop over the expressions: each rule adds its
    symbol names that are no variables and were not collected from the
    rules before it. *)
Lemma parameters_of_unfold (d : InteractionDefinition) :
  parameters_of d
  = foldl (fun parameters e =>
             parameters ++ List.filter (fun x => negb (includes (variables d) x)
                                                 && negb (includes parameters x))
                                       (symbols e))
          [] (rule_expressions d).
Proof.
  unfold parameters_of, rule_expressions. rewrite <- foldl_omap.
  apply foldl_pointwise. intros parameters r_id.
  destruct (Obj.get (rules d) r_id ≫= expression) as [e|]; [|done].
  f_equal. unfold Node_filter, symbols, Node_filter.
  rewrite <- filter_names. f_equal. apply filter_ext. intros n.
  unfold is_new_parameter. by rewrite andb_assoc.
Qed.

Lemma first_seen_elem acc l x : x ∈ first_seen acc l <-> x ∈ acc \/ x ∈ l.
Proof.
  unfold first_seen. revert acc. induction l as [|y l IH]; intros acc; simpl.
  - split; [by left|]. by intros [?|?%elem_of_nil].
  - rewrite IH, elem_of_cons. destruct (includes acc y) eqn:Hy.
    + apply includes_spec in Hy. split; [tauto|]. intros [?|[->|?]]; tauto.
    + rewrite elem_of_app, list_elem_of_singleton. tauto.
Qed.

Lemma first_seen_app acc l1 l2 :
  first_seen acc (l1 ++ l2) = first_seen (first_seen acc l1) l2.
Proof. apply foldl_app. Qed.

Lemma first_seen_skip acc collected l :
  (forall x, x ∈ acc -> x ∈ collected) ->
  first_seen collected (List.filter (fun x => negb (includes acc x)) l)
  = first_seen collected l.
Proof.
  revert collected. induction l as [|x l IH]; intros collected Hsub; simpl; [done|].
  destruct (includes acc x) eqn:Hx; simpl.
  - apply includes_spec, Hsub, includes_spec in Hx. unfold first_seen at 2. simpl.
    rewrite Hx. by apply IH.
  - unfold first_seen at 1 2. simpl. destruct (includes collected x).
    + by apply IH.
    + apply IH. intros y Hy. apply elem_of_app. left. by apply Hsub.
Qed.

Lemma first_seen_NoDup l : NoDup l -> forall acc,
  (forall x, x ∈ l -> x ∉ acc) -> first_seen acc l = acc ++ l.
Proof.
  induction 1 as [|x l Hx Hnd IH]; intros acc Hdisj; simpl.
  - by rewrite app_nil_r.
  - unfold first_seen. simpl.
    assert (Hnot : includes acc x = false).
    { destruct (includes acc x) eqn:E; [|done].
      apply includes_spec in E. exfalso. apply (Hdisj x); [apply list_elem_of_here|done]. }
    rewrite Hnot. fold (first_seen (acc ++ [x]) l). rewrite IH.
    + by rewrite <- app_assoc.
    + intros y Hy [Hin|Heq%list_elem_of_singleton]%elem_of_app; [|by subst].
      apply (Hdisj y); [by apply list_elem_of_further|done].
Qed.

(** What holds of [parameters()] on every definition: its names are the
    symbol names of the rules that are no variables, and once repeated names
    are struck out after their first occurrence the list is the list of the
    specification.  When no name is repeated, [parameters()] is that list. *)
Lemma parameters_of_first_seen (d : InteractionDefinition) :
  first_seen [] (parameters_of d) = first_seen_parameters d
  /\ (forall x, (x ∈ parameters_of d) <->
                ((x ∉ variables d) /\ exists e, e ∈ rule_expressions d /\ x ∈ symbols e))
  /\ (NoDup (parameters_of d) -> parameters_of d = first_seen_parameters d).
Proof.
  assert (Hgen : forall exprs acc,
    first_seen []
      (foldl (fun parameters e =>
                parameters ++ List.filter (fun x => negb (includes (variables d) x)
                                                    && negb (includes parameters x))
                                          (symbols e)) acc exprs)
    = first_seen (first_seen [] acc)
        (List.filter (fun x => negb (includes (variables d) x)) (flat_map symbols exprs))).
  { induction exprs as [|e exprs IH]; intros acc; simpl; [done|].
    rewrite IH, first_seen_app, List.filter_app, first_seen_app. f_equal.
    rewrite <- (first_seen_skip acc (first_seen [] acc)
                  (List.filter (fun x => negb (includes (variables d) x)) (symbols e))).
    - f_equal. clear. induction (symbols e) as [|x l IHl]; simpl; [done|].
      destruct (includes (variables d) x); simpl; [done|].
      destruct (includes acc x); simpl; by rewrite IHl.
    - intros x Hx. apply first_seen_elem. by right. }
  assert (Hfirst : first_seen [] (parameters_of d) = first_seen_parameters d).
  { rewrite parameters_of_unfold. by rewrite Hgen. }
  split; [done|]. split.
  - intros x. transitivity (x ∈ first_seen [] (parameters_of d)).
    { rewrite first_seen_elem. split; [by right|]. by intros [?%elem_of_nil|?]. }
    rewrite Hfirst. unfold first_seen_parameters.
    rewrite first_seen_elem. split.
    + intros [?%elem_of_nil|Hin]; [done|].
      apply list_elem_of_In, filter_In in Hin as [Hin Hvar].
      apply in_flat_map in Hin as (e & He & Hx). split.
      * intros Hv%includes_spec. by rewrite Hv in Hvar.
      * exists e. split; by apply list_elem_of_In.
    + intros [Hvar (e & He & Hx)]. right. apply list_elem_of_In, filter_In. split.
      * apply in_flat_map. exists e. split; by apply list_elem_of_In.
      * destruct (includes (variables d) x) eqn:E; [|done]. by apply includes_spec in E.
  - intros Hnd. rewrite <- Hfirst, (first_seen_NoDup _ Hnd []); [done|].
    intros x _. apply not_elem_of_nil.
Qed.

(** ** Rejected calls of [addInteraction] *)

Section Rejection.
Context {expr : ExpressionService}.

(** X18.  A rejected call either throws, leaving the system as it was, or
    returns after appending to the live instances the object the constructor
    had built so far: rules named by [v_args], holding the expressions of
    the definition without substitution.  Species, parameters and
    definitions are untouched in both cases. *)
Lemma addInteraction_rejected id v_args p_args S base :
  Obj.get (interactions S) id = Some base ->
  accepted S base v_args p_args = false ->
  (exists e, addInteraction id v_args p_args S = Abrupt e S)
  \/ (exists this_rules,
        for_result (seq 0 (length (Obj.keys (rules base)))) (copy_rule base)
                   (rules (new_InteractionDefinition (def_name base) v_args))
        = Ok this_rules
        /\ addInteraction id v_args p_args S
           = Normal tt (set__interactions S
               (_interactions S ++ [{| def_name := def_name base; rules := this_rules |}]))).
Proof.
  intros Hbase Hrej. unfold addInteraction, Interaction. rewrite Hbase.
  destruct (for_result _ _ _) as [this_rules|e]; simpl; [|by eauto].
  right. exists this_rules. split; [done|].
  unfold accepted in Hrej.
  destruct (all_registered (species S) v_args); simpl in *; [|done].
  destruct (all_registered (parameters S) p_args); simpl in *; [|done].
  destruct (Nat.eqb (length v_args) (length (variables base))); simpl in *; [|done].
  by rewrite Hrej.
Qed.

End Rejection.

(** ** [simulate] and the [Simulation] constructor *)

Section Simulate.
Context {expr : ExpressionService} {ode : Integrator}.

Lemma simulate_species_loop l S :
  species (final_state (for_each l simulate_species S)) = species S.
Proof.
  revert S. induction l as [|[i_sp sp] l IH]; intros S; simpl; [done|].
  destruct (Obj.get (species S) sp) as [s|]; simpl; [|done].
  destruct (compiled_rate_law s) as [slot|e]; simpl; [|done].
  by rewrite IH.
Qed.

(** [simulate] hands the array of species ids to a constructor that reads
    [system.species]: the simulation it builds has no trajectory, and the
    write-back of the first species throws.  With at least one species
    [simulate] never returns, and the values of the species stay as they
    were. *)
Lemma simulate_throws t0 tf S :
  species S <> [] ->
  exists e S', simulate t0 tf S = Abrupt e S' /\ species S' = species S.
Proof.
  intros Hne. unfold simulate.
  assert (Hsp := simulate_species_loop (imap pair (Obj.keys (species S))) S).
  destruct (for_each _ simulate_species S) as [[] S1|e S1]; cbn [and_then]; [|by eauto].
  simpl in Hsp.
  destruct (dopri _ _ _ _) as [sol|e]; [|by eauto].
  unfold new_Simulation. cbn [arg_species].
  destruct (transpose (sol_y sol)) as [y|e]; simpl; [|by eauto].
  destruct (species S1) as [|[k s] sp1] eqn:HS1; [congruence|]. simpl.
  exists TypeError, S1. split; [done|]. congruence.
Qed.

End Simulate.

(** ** The methods on concrete systems *)

Section Cases.
#[local] Existing Instance Example.math.
#[local] Existing Instance Example.numeric.

(** C1 fails on the code.  In the system with the species [A], the
    parameter [k] and the template "decay", the call
    [addInteraction("decay", ["B"], ["k"])] names no existing species and is
    to be rejected; it returns normally and the system holds one live
    instance more than before.  Species, parameters and rate laws are as
    they were. *)
Theorem addInteraction_rejected_call_registers :
  all_registered (species Example.decay_system) ["B"] = false
  /\ exists S',
       addInteraction "decay" ["B"] ["k"] Example.decay_system = Normal tt S'
       /\ length (_interactions Example.decay_system) = 0
       /\ length (_interactions S') = 1
       /\ species S' = species Example.decay_system
       /\ parameters S' = parameters Example.decay_system.
Proof.
  split; [reflexivity|]. eexists. split; [vm_compute; reflexivity|].
  repeat split.
Qed.

(** C4 fails on the code.  For the template with the single rule
    [a : k * a + k], [parameters()] returns the name [k] twice: the filter
    compares with the names collected from earlier rules only. *)
Theorem parameters_of_repeats_name :
  variables Example.leak = ["a"]
  /\ parameters_of Example.leak = ["k"; "k"].
Proof. split; reflexivity. Qed.

(** C5 fails on the code.  On the compiled system with the species [A]
    and one instance of "decay", [simulate(t0, tf)] throws for every
    integrator and every interval, and the value of [A] is not updated. *)
Theorem simulate_compiled_system_throws (ode : Integrator) (t0 tf : num) :
  exists e S',
    simulate t0 tf Example.decay_compiled = Abrupt e S'
    /\ species S' = species Example.decay_compiled.
Proof. by apply simulate_throws. Qed.

(** C7 fails on the code.  With the times 0, 10, 20, 25 and
    [buffer_size = 10] the cutoff 15 is no entry of [time]: [trim] drops
    nothing, and the samples at the times 0 and 10 remain. *)
Theorem trim_keeps_stale_samples :
  trim 10%float Example.coarse_buffer = Normal tt Example.coarse_buffer
  /\ time Example.coarse_buffer = [0; 10; 20; 25]%float
  /\ PrimFloat.ltb 10%float (25 - 10)%float = true.
Proof. repeat split. Qed.

(** When the cutoff is an entry of [time], the samples before it are
    dropped: with one sample per unit of time from 0 to 25 the samples from
    time 15 on remain. *)
Example trim_unit_buffer :
  trim 10%float Example.unit_buffer
  = Normal tt {| time := [15; 16; 17; 18; 19; 20; 21; 22; 23; 24; 25]%float;
                 trajectory := [("A", Some (map Some [15; 16; 17; 18; 19; 20; 21; 22;
                                                       23; 24; 25]%float))] |}.
Proof. reflexivity. Qed.

Lemma addSpecies_registered_witness :
  Obj.get (species Example.decay_system) "A" = Some (new_Species 10%float None)
  /\ Obj.keys (species (addSpecies "A" 3%float None Example.decay_system)) = ["A"]
  /\ Obj.get (species (addSpecies "A" 3%float None Example.decay_system)) "A"
     = Some {| sp_name := None; value := 3%float; rate_law := new_Rule |}
  /\ model (addSpecies "A" 3%float None Example.decay_system) !! 0 = Some Null.
Proof.
  split; [reflexivity|].
  destruct (addSpecies_registered Example.decay_system "A" 3%float None _ eq_refl)
    as (Hkeys & _ & Hget & _ & _ & Hslot & _).
  split; [exact Hkeys|]. split; [exact Hget|exact Hslot].
Defined.

(** C9 as stated fails on the code.  [removeSpecies] of an identifier that
    names no species drops the last slot of the model; registering the
    species [A] once more then writes slot 0 of a model that has no slot,
    and the model grows from no slot to one. *)
Lemma addSpecies_registered_grows_model :
  Obj.get (species (final_state (removeSpecies "B" Example.decay_system))) "A"
  = Some (new_Species 10%float None)
  /\ Obj.keys (species (final_state (removeSpecies "B" Example.decay_system))) = ["A"]
  /\ model (final_state (removeSpecies "B" Example.decay_system)) = []
  /\ Obj.keys (species (addSpecies "A" 3%float None
                          (final_state (removeSpecies "B" Example.decay_system)))) = ["A"]
  /\ model (addSpecies "A" 3%float None
              (final_state (removeSpecies "B" Example.decay_system))) = [Null]
  /\ length (model (addSpecies "A" 3%float None
                      (final_state (removeSpecies "B" Example.decay_system))))
     <> length (model (final_state (removeSpecies "B" Example.decay_system))).
Proof. repeat split; try reflexivity. simpl. discriminate. Qed.

Lemma dY_parameter_shadows_species_witness :
  Obj.get (parameters Example.shadowed) "k"
  = Some {| par_value := 0.5%float; par_name := None |}
  /\ Obj.keys (species Example.shadowed) = ["A"; "k"]
  /\ dY_scope Example.shadowed [10; 7]%float !! "k" = Some 0.5%float
  /\ dY 0%float [10; 7]%float Example.shadowed = Ok [(-5)%float; 0%float]
  /\ dY 0%float (<[1 := 99%float]> [10; 7]%float) Example.shadowed
     = Ok [(-5)%float; 0%float].
Proof.
  split; [reflexivity|]. split; [reflexivity|].
  destruct (dY_parameter_shadows_species 0%float [10; 7]%float Example.shadowed "k" _ eq_refl)
    as (Hscope & _ & Hmodel & _ & Hignored).
  split; [exact Hscope|].
  assert (HdY : dY 0%float [10; 7]%float Example.shadowed = Ok [(-5)%float; 0%float]).
  { rewrite (Hmodel [Example.times (Example.minus (SymbolNode "k")) (SymbolNode "A");
                     ConstantNode "0"] eq_refl eq_refl).
    vm_compute. reflexivity. }
  split; [exact HdY|].
  rewrite (proj2 (Hignored 1 99%float eq_refl)). exact HdY.
Defined.

Lemma shadowed_wf : Obj.wf (species Example.shadowed).
Proof.
  unfold Obj.wf. simpl. apply NoDup_cons. split.
  - by intros ?%list_elem_of_singleton.
  - apply NoDup_singleton.
Qed.

Lemma dY_evaluates_model_witness :
  Obj.wf (species Example.shadowed)
  /\ dY 0%float [10; 7]%float Example.shadowed
     = traverse_list (fun e => eval e (dY_scope Example.shadowed [10; 7]%float))
         [Example.times (Example.minus (SymbolNode "k")) (SymbolNode "A"); ConstantNode "0"]
  /\ dY 0%float [10; 7]%float Example.shadowed = Ok [(-5)%float; 0%float].
Proof.
  split; [exact shadowed_wf|].
  destruct (dY_evaluates_model 0%float [10; 7]%float Example.shadowed
              [Example.times (Example.minus (SymbolNode "k")) (SymbolNode "A"); ConstantNode "0"]
              shadowed_wf eq_refl eq_refl eq_refl)
    as (_ & _ & _ & HdY & _ & Hreturns).
  split; [exact HdY|]. apply Hreturns. vm_compute. reflexivity.
Defined.

Lemma decay_bound_wf : Obj.wf (species Example.decay_bound).
Proof. unfold Obj.wf. simpl. apply NoDup_singleton. Qed.

Lemma decay_bound_registered c :
  c ∈ flat_map contributions (_interactions Example.decay_bound) ->
  c.1 ∈ Obj.keys (species Example.decay_bound).
Proof. simpl. intros ->%list_elem_of_singleton. simpl. apply list_elem_of_here. Qed.

Lemma compile_aggregates_witness :
  parse "0" = Ok (ConstantNode "0")
  /\ exists S',
       compile Example.decay_bound = Normal tt S'
       /\ Obj.keys (species S') = ["A"]
       /\ model S'
          = [Compiled (Example.times (Example.minus (SymbolNode "k")) (SymbolNode "A"))].
Proof.
  split; [reflexivity|].
  destruct (compile_aggregates (expr := Example.math) Example.decay_bound eq_refl
              decay_bound_wf decay_bound_registered)
    as (S' & Hcompile & Hkeys & _ & _ & Hmodel & _).
  exists S'. split; [exact Hcompile|]. split; [exact Hkeys|exact Hmodel].
Defined.

(** C2 as stated fails on the code.  After [compile] on the system whose
    only species [A] has no contributing instance, the rate law of [A] is
    unset, not the constant zero; only the model slot of [A] holds the
    evaluator of "0". *)
Lemma compile_leaves_rate_law_unset :
  terms_for Example.decay_system "A" = []
  /\ exists S' s,
       compile Example.decay_system = Normal tt S'
       /\ Obj.get (species S') "A" = Some s
       /\ expression (rate_law s) = None
       /\ expression (rate_law s) <> Some (ConstantNode "0")
       /\ model S' = [Compiled (ConstantNode "0")].
Proof.
  split; [reflexivity|]. eexists _, _.
  split; [vm_compute; reflexivity|]. split; [reflexivity|].
  split; [reflexivity|]. split; [discriminate|reflexivity].
Qed.

Lemma euler_well_formed : well_formed_integrator (ode := Example.euler).
Proof.
  intros t0 tf y0 f sol Hf. simpl.
  destruct (f t0 (map to_num y0)) as [dy|e] eqn:Hdy; simpl; [|done].
  intros [= <-]. split; simpl; [done|].
  apply Hf in Hdy. rewrite length_map in Hdy.
  repeat constructor.
  - by rewrite length_map.
  - rewrite length_zip_with, length_map. lia.
Qed.


Lemma addInteraction_shares_no_node_witness :
  Heap.addInteraction Example.decay_system "decay" ["A"] ["k"] Example.decay_registry
  = Normal tt Example.decay_registry'
  /\ Heap.read 4 (Heap.nodes Example.decay_registry) 3
     = Some (Example.times (Example.minus (SymbolNode "k")) (SymbolNode "a"))
  /\ Heap.read 4 (Heap.nodes Example.decay_registry') 3
     = Some (Example.times (Example.minus (SymbolNode "k")) (SymbolNode "a"))
  /\ Heap.read 4 (Heap.nodes Example.decay_registry') 7
     = Some (Example.times (Example.minus (SymbolNode "k")) (SymbolNode "A")).
Proof.
  assert (Hadd : Heap.addInteraction Example.decay_system "decay" ["A"] ["k"]
                   Example.decay_registry = Normal tt Example.decay_registry')
    by reflexivity.
  split; [exact Hadd|]. split; [reflexivity|]. split; [|reflexivity].
  destruct (addInteraction_shares_no_node _ _ _ _ _ _ Hadd) as (inst & _ & _ & Hdefs & _).
  refine (proj1 (Hdefs "decay" Example.decay_ref "a"
                  {| Heap.ref_name := None; Heap.expression_ref := Some 3 |}
                  3 4 _ eq_refl _ eq_refl eq_refl)).
  apply list_elem_of_here.
Defined.

(** On the example the two models of the constructor agree: the instance
    read from the store is the instance computed on tree values. *)
Example store_instance_reads_as_value_instance :
  Interaction Example.decay_system
    (Heap.definition_value Example.decay_heap Example.decay_ref) ["A"] ["k"]
  = Ok {| def_name := "decay";
          rules := [("A", {| rule_name := None;
                             expression := Some (Example.times (Example.minus (SymbolNode "k"))
                                                               (SymbolNode "A")) |})] |}
  /\ Heap.definition_value (Heap.nodes Example.decay_registry')
    <$> last (Heap.instances Example.decay_registry')
    = Some {| def_name := "decay";
              rules := [("A", {| rule_name := None;
                                 expression := Some (Example.times (Example.minus (SymbolNode "k"))
                                                                   (SymbolNode "A")) |})] |}.
Proof. split; reflexivity. Qed.

End Cases.

(** ** Removing instances and species *)

Lemma set__interactions_twice S l1 l2 :
  set__interactions (set__interactions S l1) l2 = set__interactions S l2.
Proof. reflexivity. Qed.

Lemma set__interactions_same S : set__interactions S (_interactions S) = S.
Proof. by destruct S. Qed.

Lemma remove_loop (target : InteractionDefinition -> bool) (n : nat) (S : System) :
  n <= length (_interactions S) ->
  for_each (reverse (seq 0 n)) (remove_if target) S
  = Normal tt (set__interactions S
      (List.filter (fun i => negb (target i)) (take n (_interactions S))
       ++ drop n (_interactions S))).
Proof.
  revert S. induction n as [|n IH]; intros S Hn.
  - simpl. rewrite drop_0. by rewrite set__interactions_same.
  - rewrite seq_S, reverse_app. simpl.
    destruct (lookup_lt_is_Some_2 (_interactions S) n) as [x Hx]; [lia|].
    unfold remove_if at 1. rewrite Hx.
    rewrite (take_S_r _ _ _ Hx), List.filter_app. simpl.
    assert (Hlen : length (take n (_interactions S)) = n) by (rewrite length_take; lia).
    destruct (target x) eqn:Ht; simpl.
    + rewrite IH; simpl.
      * rewrite app_nil_r, delete_take_drop.
        rewrite take_app_length' by done. rewrite drop_app_length' by done. done.
      * rewrite length_delete by eauto. lia.
    + rewrite IH by lia. rewrite <- app_assoc. simpl.
      by rewrite (drop_S _ _ _ Hx).
Qed.

Lemma remove_backwards (target : InteractionDefinition -> bool) (S : System) :
  for_each (backwards S) (remove_if target) S
  = Normal tt (set__interactions S
      (List.filter (fun i => negb (target i)) (_interactions S))).
Proof.
  unfold backwards. rewrite remove_loop by done.
  by rewrite firstn_all, drop_all, app_nil_r.
Qed.

Lemma filter_filter_bool {A} (p q : A -> bool) (l : list A) :
  List.filter q (List.filter p l) = List.filter (fun a => p a && q a) l.
Proof.
  induction l as [|a l IH]; simpl; [done|].
  destruct (p a); simpl; [|done]. destruct (q a); simpl; by rewrite IH.
Qed.

Lemma removeInteractionsBySpecies_loop (identifiers : list string) (S : System) :
  removeInteractionsBySpecies identifiers S
  = Normal tt (set__interactions S
      (List.filter (fun i => negb (mentions identifiers i)) (_interactions S))).
Proof.
  unfold removeInteractionsBySpecies. revert S.
  induction identifiers as [|id ids IH]; intros S; simpl.
  - rewrite <- (set__interactions_same S) at 1. f_equal. f_equal.
    induction (_interactions S) as [|i l IHl]; simpl; [done|]. by rewrite <- IHl.
  - rewrite remove_backwards. simpl. rewrite IH. simpl.
    rewrite set__interactions_twice, filter_filter_bool. do 2 f_equal.
    apply List.filter_ext. intros i. unfold mentions. simpl.
    by rewrite negb_orb.
Qed.

(** X1.  [removeInteractionsByName(name)] returns, and the live instances
    it leaves are those whose name differs from [name], in their order of
    registration; nothing else of the system changes.  The backward walk
    with [splice] never reads an index that the removals have emptied. *)
Theorem removeInteractionsByName_filters (name : string) (S : System) :
  removeInteractionsByName name S
  = Normal tt (set__interactions S
      (List.filter (fun inst => negb (String.eqb (def_name inst) name)) (_interactions S)))
  /\ forall inst,
       inst ∈ List.filter (fun inst => negb (String.eqb (def_name inst) name))
                          (_interactions S)
       <-> (inst ∈ _interactions S /\ def_name inst <> name).
Proof.
  split; [apply remove_backwards|].
  intros inst. rewrite list_elem_of_In, filter_In, <- list_elem_of_In, negb_true_iff.
  split; intros [Hin Hne]; (split; [done|]).
  - intros Heq. rewrite Heq, String.eqb_refl in Hne. discriminate.
  - by destruct (String.eqb_spec (def_name inst) name).
Qed.

(** X2.  [removeInteractionsBySpecies(identifiers)] returns, and leaves
    exactly the live instances that have none of the identifiers among their
    variables, in their order of registration; nothing else of the system
    changes. *)
Theorem removeInteractionsBySpecies_filters (identifiers : list string) (S : System) :
  removeInteractionsBySpecies identifiers S
  = Normal tt (set__interactions S
      (List.filter (fun inst => negb (mentions identifiers inst)) (_interactions S)))
  /\ forall inst,
       inst ∈ List.filter (fun inst => negb (mentions identifiers inst)) (_interactions S)
       <-> (inst ∈ _interactions S
            /\ forall id, id ∈ identifiers -> id ∉ variables inst).
Proof.
  split; [apply removeInteractionsBySpecies_loop|].
  intros inst. rewrite list_elem_of_In, filter_In, <- list_elem_of_In.
  unfold mentions. rewrite negb_true_iff, <- not_true_iff_false, existsb_exists.
  split.
  - intros [Hin Hno]. split; [done|]. intros id Hid Hvar. apply Hno.
    exists id. split; [by apply list_elem_of_In|by apply includes_spec].
  - intros [Hin Hno]. split; [done|]. intros (id & Hid & Hvar).
    apply (Hno id); [by apply list_elem_of_In|by apply includes_spec].
Qed.

Lemma delete_property_get_eq {V} (o : obj V) k : Obj.get (delete_property o k) k = None.
Proof.
  induction o as [|[k' v] o IH]; simpl; [done|].
  destruct (String.eqb_spec k' k) as [->|Hne]; simpl; [done|].
  by destruct (String.eqb_spec k' k).
Qed.

Lemma delete_property_get_ne {V} (o : obj V) k q :
  q <> k -> Obj.get (delete_property o k) q = Obj.get o q.
Proof.
  intros Hq. induction o as [|[k' v] o IH]; simpl; [done|].
  destruct (String.eqb_spec k' k) as [->|Hne]; simpl.
  - by destruct (String.eqb_spec k q) as [->|_].
  - by rewrite IH.
Qed.

Lemma delete_property_absent {V} (o : obj V) k :
  k ∉ Obj.keys o -> delete_property o k = o.
Proof.
  induction o as [|[k' v] o IH]; simpl; [done|].
  intros Hk. apply not_elem_of_cons in Hk as [Hne Hk].
  destruct (String.eqb_spec k' k) as [->|_]; [done|]. simpl. by rewrite IH.
Qed.

Lemma delete_property_keys {V} (o : obj V) k i :
  Obj.wf o -> Obj.keys o !! i = Some k ->
  Obj.keys (delete_property o k) = delete i (Obj.keys o).
Proof.
  unfold Obj.wf. revert i. induction o as [|[k' v] o IH]; intros i Hwf Hi; [done|].
  simpl in *. apply NoDup_cons in Hwf as [Hnin Hwf].
  destruct i as [|i]; simpl in Hi.
  - inversion Hi; subst. rewrite String.eqb_refl. simpl.
    fold (delete_property o k). by rewrite delete_property_absent.
  - destruct (String.eqb_spec k' k) as [->|Hne].
    + exfalso. apply Hnin. apply list_elem_of_lookup. eauto.
    + simpl. f_equal. by apply IH.
Qed.

Lemma delete_property_set {V} (o : obj V) k v :
  k ∉ Obj.keys o -> delete_property (Obj.set o k v) k = o.
Proof.
  induction o as [|[k' v'] o IH]; simpl.
  - intros _. by rewrite String.eqb_refl.
  - intros Hk. apply not_elem_of_cons in Hk as [Hne Hk].
    destruct (String.eqb_spec k' k) as [->|_]; [done|]. simpl.
    destruct (String.eqb_spec k' k) as [->|_]; [done|]. simpl.
    f_equal. by apply IH.
Qed.

Lemma indexOf_None (l : list string) k : k ∉ l -> indexOf l k = None.
Proof.
  intros Hk. destruct (indexOf l k) eqn:E; [|done].
  exfalso. apply Hk, includes_spec. unfold includes. rewrite E. by apply bool_decide_eq_true.
Qed.

Lemma removeSpecies_unfold identifier S :
  removeSpecies identifier S
  = Normal tt
      {| config := config S;
         species := delete_property (species S) identifier;
         parameters := parameters S;
         interactions := interactions S;
         _interactions :=
           List.filter (fun i => negb (includes (variables i) identifier)) (_interactions S);
         model := splice_one (indexOf (Obj.keys (species S)) identifier) (model S) |}.
Proof.
  unfold removeSpecies. rewrite removeInteractionsBySpecies_loop. simpl.
  unfold set_species, set_model, set__interactions. simpl. do 2 f_equal.
  apply List.filter_ext. intros i. unfold mentions. simpl. by rewrite orb_false_r.
Qed.

(** X3.  In a system with distinct species ids, [removeSpecies] of the
    species registered at index [i] returns; the identifier names no species
    any more, the other species keep their order and their objects, the
    model loses the slot at index [i], so that every remaining species keeps
    the slot of its index, and the live instances that have the identifier
    among their variables are removed. *)
Theorem removeSpecies_registered identifier (S : System) i :
  Obj.wf (species S) ->
  Obj.keys (species S) !! i = Some identifier ->
  exists S',
    removeSpecies identifier S = Normal tt S'
    /\ Obj.keys (species S') = delete i (Obj.keys (species S))
    /\ Obj.get (species S') identifier = None
    /\ (forall q, q <> identifier -> Obj.get (species S') q = Obj.get (species S) q)
    /\ model S' = delete i (model S)
    /\ _interactions S'
       = List.filter (fun inst => negb (includes (variables inst) identifier)) (_interactions S)
    /\ parameters S' = parameters S
    /\ interactions S' = interactions S.
Proof.
  intros Hwf Hi. rewrite removeSpecies_unfold. eexists. split; [reflexivity|]. simpl.
  split; [by apply delete_property_keys|].
  split; [apply delete_property_get_eq|].
  split; [intros q Hq; by apply delete_property_get_ne|].
  split; [|done]. by rewrite (indexOf_lookup _ _ _ Hwf Hi).
Qed.

(** X4.  [removeSpecies] of an identifier that names no species leaves
    the species as they are, but [indexOf] answers -1 and [splice(-1, 1)]
    removes the last slot of the model, the evaluator of the last species;
    the live instances that mention the identifier are removed. *)
Theorem removeSpecies_unregistered identifier (S : System) :
  identifier ∉ Obj.keys (species S) ->
  exists S',
    removeSpecies identifier S = Normal tt S'
    /\ species S' = species S
    /\ model S' = take (length (model S) - 1) (model S)
    /\ _interactions S'
       = List.filter (fun inst => negb (includes (variables inst) identifier)) (_interactions S).
Proof.
  intros Hid. rewrite removeSpecies_unfold. eexists. split; [reflexivity|]. simpl.
  split; [by apply delete_property_absent|]. split; [|done].
  rewrite indexOf_None by done. simpl. rewrite delete_take_drop.
  rewrite drop_ge by lia. apply app_nil_r.
Qed.

Lemma filter_all_bool {A} (p : A -> bool) (l : list A) :
  (forall a, a ∈ l -> p a = true) -> List.filter p l = l.
Proof.
  induction l as [|a l IH]; intros Hall; simpl; [done|].
  rewrite (Hall a) by apply list_elem_of_here. f_equal.
  apply IH. intros a' Ha'. by apply Hall, list_elem_of_further.
Qed.

Lemma indexOf_snoc (l : list string) k : k ∉ l -> indexOf (l ++ [k]) k = Some (length l).
Proof.
  unfold indexOf. induction l as [|k' l IH]; simpl; intros Hk.
  - by rewrite String.eqb_refl.
  - apply not_elem_of_cons in Hk as [Hne Hk].
    destruct (String.eqb_spec k k') as [->|_]; [done|]. by rewrite IH.
Qed.



(** ** The compiler, once more *)

Lemma Obj_ext {V} (o1 o2 : obj V) :
  Obj.wf o1 -> Obj.keys o1 = Obj.keys o2 ->
  (forall k, k ∈ Obj.keys o1 -> Obj.get o1 k = Obj.get o2 k) ->
  o1 = o2.
Proof.
  unfold Obj.wf. revert o2. induction o1 as [|[k v] o1 IH]; intros [|[k' v'] o2] Hwf Hkeys Hget;
    simpl in *; try done.
  inversion Hkeys; subst. apply NoDup_cons in Hwf as [Hnin Hwf].
  assert (Hk := Hget k' ltac:(apply list_elem_of_here)).
  rewrite String.eqb_refl in Hk. inversion Hk; subst. f_equal.
  apply IH; [done|done|]. intros q Hq.
  assert (Hq' := Hget q ltac:(by apply list_elem_of_further)).
  destruct (String.eqb_spec k' q) as [->|_]; [done|done].
Qed.

Lemma Obj_keys_map {V W} (g : string -> V -> W) (o : obj V) :
  Obj.keys (map (fun '(k, v) => (k, g k v)) o) = Obj.keys o.
Proof.
  unfold Obj.keys. rewrite map_map. apply map_ext. by intros [k v].
Qed.

Lemma Obj_get_map {V W} (g : string -> V -> W) (o : obj V) k :
  Obj.get (map (fun '(k, v) => (k, g k v)) o) k = g k <$> Obj.get o k.
Proof.
  induction o as [|[k' v] o IH]; simpl; [done|].
  by destruct (String.eqb_spec k' k) as [->|_].
Qed.

Section Compiled.
Context {expr : ExpressionService}.

Lemma compile_compiled (S : System) :
  parse "0" = Ok (ConstantNode "0") ->
  Obj.wf (species S) ->
  participants_registered S ->
  compile S = Normal tt (compiled S).
Proof.
  intros Hzero Hwf Hreg. unfold compile.
  rewrite (for_each_update (fun k : string => k) (fun _ s => set_rate_law_expression s None)).
  2:{ intros k S0 s Hs. unfold reset_rate_law. by rewrite Hs. }
  2:{ done. }
  set (sp1 := foldl _ (species S) (Obj.keys (species S))).
  assert (Hkeys1 : Obj.keys sp1 = Obj.keys (species S)) by apply foldl_update_keys.
  simpl and_then.
  rewrite (for_each_ext _ (fun i => for_each (contributions i) apply_term))
    by (intros; apply add_terms_contributions).
  rewrite for_each_flat_map. simpl _interactions.
  rewrite (for_each_update fst (fun c => add_to_rate_law c.2)).
  2:{ intros c S0 p Hp. unfold apply_term. by rewrite Hp. }
  2:{ simpl. rewrite Hkeys1. apply Hreg. }
  simpl species. rewrite set_species_twice.
  set (sp2 := foldl _ sp1 (flat_map contributions (_interactions S))).
  assert (Hkeys2 : Obj.keys sp2 = Obj.keys (species S)).
  { subst sp2. by rewrite foldl_update_keys. }
  assert (Hsp2 : sp2 = species (compiled S)).
  { symmetry. apply Obj_ext.
    - unfold Obj.wf. simpl.
      by rewrite (Obj_keys_map
                    (fun sp s => set_rate_law_expression s (sum_of_terms (terms_for S sp)))).
    - simpl.
      by rewrite (Obj_keys_map
                    (fun sp s => set_rate_law_expression s (sum_of_terms (terms_for S sp)))).
    - intros q _. simpl.
      rewrite (Obj_get_map (fun sp s => set_rate_law_expression s (sum_of_terms (terms_for S sp)))).
      subst sp2 sp1. rewrite !foldl_update_get.
      destruct (Obj.get (species S) q) as [s|] eqn:Hs; simpl; [|done]. f_equal.
      rewrite foldl_reset, bool_decide_eq_true_2 by eauto using Obj_get_Some_keys.
      rewrite foldl_add_to_rate_law. simpl. by rewrite foldl_plus_sum. }
  simpl and_then.
  rewrite (compile_species_loop [] (Obj.keys sp2)); simpl; try done.
  2:{ unfold Obj.wf in Hwf. by rewrite Hkeys2. }
  2:{ lia. }
  rewrite Hkeys2. f_equal. unfold compiled, set_model. simpl. f_equal; [done|].
  f_equal. apply map_ext_in. intros q Hq%list_elem_of_In.
  unfold slot_of, evaluator_of. rewrite Hsp2. simpl.
  rewrite (Obj_get_map (fun sp s => set_rate_law_expression s (sum_of_terms (terms_for S sp)))).
  destruct (Obj_keys_get_Some (species S) q Hq) as [s ->]. done.
Qed.

End Compiled.

Lemma compiled_keys S : Obj.keys (species (compiled S)) = Obj.keys (species S).
Proof.
  simpl.
  apply (Obj_keys_map (fun sp s => set_rate_law_expression s (sum_of_terms (terms_for S sp)))).
Qed.

Lemma System_ext (S1 S2 : System) :
  config S1 = config S2 -> species S1 = species S2 -> parameters S1 = parameters S2 ->
  interactions S1 = interactions S2 -> _interactions S1 = _interactions S2 ->
  model S1 = model S2 -> S1 = S2.
Proof.
  destruct S1 as [c1 s1 p1 i1 l1 m1], S2 as [c2 s2 p2 i2 l2 m2]. simpl.
  by intros -> -> -> -> -> ->.
Qed.

Lemma compiled_compiled S : compiled (compiled S) = compiled S.
Proof.
  apply System_ext; try done.
  - simpl. rewrite map_map. apply map_ext. by intros [sp s].
  - unfold compiled at 1. cbn [model]. rewrite compiled_keys. f_equal.
    cbn [model compiled]. rewrite drop_app_length'; [done|]. by rewrite length_map.
Qed.

Lemma traverse_list_throws {A B} (f : A -> result B) l i a e :
  l !! i = Some a -> f a = Throw e -> exists e', traverse_list f l = Throw e'.
Proof.
  revert i. induction l as [|a' l IH]; intros i Hi Hf; [done|]. simpl.
  destruct i as [|i]; simpl in Hi.
  - inversion Hi; subst. rewrite Hf. simpl. eauto.
  - destruct (f a') as [b|e0]; simpl; [|by eauto].
    destruct (IH i Hi Hf) as [e' ->]. simpl. eauto.
Qed.

Lemma apply_term_loop_throws (cs : list (string * Node)) (S : System) c :
  c ∈ cs -> c.1 ∉ Obj.keys (species S) ->
  exists S', for_each cs apply_term S = Abrupt TypeError S'
             /\ model S' = model S /\ Obj.keys (species S') = Obj.keys (species S).
Proof.
  revert S. induction cs as [|c0 cs IH]; intros S Hin Hc; [by apply elem_of_nil in Hin|].
  simpl. unfold apply_term at 1.
  destruct (Obj.get (species S) c0.1) as [p|] eqn:Hp; simpl; [|by eauto].
  apply elem_of_cons in Hin as [->|Hin].
  { exfalso. apply Hc. eauto using Obj_get_Some_keys. }
  destruct (IH (set_species S (Obj.set (species S) c0.1 (add_to_rate_law c0.2 p))) Hin)
    as (S' & -> & Hm & Hk).
  { simpl. by rewrite Obj_keys_set_Some by eauto. }
  exists S'. split; [done|]. split; [done|].
  rewrite Hk. simpl. apply Obj_keys_set_Some. eauto.
Qed.

Section Recompile.
Context {expr : ExpressionService}.

(** X8.  [compile] rebuilds the rate laws and the model from the live
    instances alone: after a [compile] that returned, a second [compile]
    returns and leaves the system as it is. *)
Theorem compile_idempotent (S S' : System) :
  parse "0" = Ok (ConstantNode "0") ->
  Obj.wf (species S) ->
  participants_registered S ->
  compile S = Normal tt S' ->
  compile S' = Normal tt S'.
Proof.
  intros Hzero Hwf Hreg. rewrite compile_compiled by done. intros [= <-].
  rewrite compile_compiled; [by rewrite compiled_compiled|done| |].
  - unfold Obj.wf. by rewrite compiled_keys.
  - intros c Hc. rewrite compiled_keys. by apply Hreg.
Qed.

(** X9.  When a live instance holds a rule with an expression for a
    variable that names no species (the object a rejected [addInteraction]
    leaves behind is such an instance), [compile] throws a TypeError: it
    reads [rate_law] of [undefined].  The model is the one before the call,
    and the species that were registered still are. *)
Theorem compile_unregistered_participant_throws (S : System) (c : string * Node) :
  c ∈ flat_map contributions (_interactions S) ->
  c.1 ∉ Obj.keys (species S) ->
  exists S',
    compile S = Abrupt TypeError S'
    /\ model S' = model S
    /\ Obj.keys (species S') = Obj.keys (species S).
Proof.
  intros Hin Hc. unfold compile.
  rewrite (for_each_update (fun k : string => k) (fun _ s => set_rate_law_expression s None)).
  2:{ intros k S0 s Hs. unfold reset_rate_law. by rewrite Hs. }
  2:{ done. }
  set (sp1 := foldl _ (species S) (Obj.keys (species S))).
  assert (Hkeys1 : Obj.keys sp1 = Obj.keys (species S)) by apply foldl_update_keys.
  simpl and_then.
  rewrite (for_each_ext _ (fun i => for_each (contributions i) apply_term))
    by (intros; apply add_terms_contributions).
  rewrite for_each_flat_map. simpl _interactions.
  destruct (apply_term_loop_throws (flat_map contributions (_interactions S))
              (set_species S sp1) c Hin) as (S' & -> & Hm & Hk).
  { simpl. by rewrite Hkeys1. }
  exists S'. split; [done|]. split; [done|]. by rewrite Hk.
Qed.

Lemma traverse_list_seq {A B} (f : nat -> result B) (g : A -> result B) (l : list A) :
  (forall i a, l !! i = Some a -> f i = g a) ->
  traverse_list f (seq 0 (length l)) = traverse_list g l.
Proof.
  intros Hfg. apply traverse_list_pointwise.
  - by rewrite length_seq.
  - intros i j a Hj Ha. apply lookup_seq in Hj as [-> _]. by apply Hfg.
Qed.

(** X10.  After [compile], [dY] on a state vector with one entry per
    species evaluates, for every species in the order of registration, the
    sum of the terms the live instances contribute to it, and the constant
    zero for a species without term, in the scope built from the state
    vector and the parameters. *)
Theorem compile_then_dY t y (S S' : System) :
  parse "0" = Ok (ConstantNode "0") ->
  Obj.wf (species S) ->
  participants_registered S ->
  compile S = Normal tt S' ->
  length y = length (Obj.keys (species S)) ->
  dY t y S'
  = traverse_list
      (fun sp => eval (default (ConstantNode "0") (sum_of_terms (terms_for S sp)))
                      (dY_scope S y))
      (Obj.keys (species S)).
Proof.
  intros Hzero Hwf Hreg. rewrite compile_compiled by done. intros [= <-] Hlen.
  unfold dY. rewrite Hlen.
  assert (Hscope : dY_scope (compiled S) y = dY_scope S y).
  { unfold dY_scope. by rewrite compiled_keys. }
  rewrite Hscope. apply traverse_list_seq. intros i sp Hi.
  unfold eval_slot. simpl. rewrite lookup_app_l.
  2:{ rewrite length_map. by apply lookup_lt_Some in Hi. }
  by rewrite list_lookup_fmap, Hi.
Qed.

(** X7.  After [addSpecies] the slot of the last species holds [null]:
    [dY] on a state vector with an entry for every species throws, until
    [compile] or [simulate] stores an evaluator in that slot. *)
Theorem addSpecies_then_dY_throws identifier v name t y (S : System) :
  length (Obj.keys (species (addSpecies identifier v name S))) <= length y ->
  exists e, dY t y (addSpecies identifier v name S) = Throw e.
Proof.
  intros Hlen. unfold dY.
  set (S' := addSpecies identifier v name S) in *.
  set (n := length (Obj.keys (species S'))) in *.
  assert (Hn : 0 < n).
  { subst n S'. unfold addSpecies. simpl.
    assert (Hin : identifier ∈ Obj.keys (Obj.set (species S) identifier (new_Species v name))).
    { apply Obj_set_keys_subseteq. by left. }
    destruct (Obj.keys _); [by apply elem_of_nil in Hin|simpl; lia]. }
  apply (traverse_list_throws _ _ (n - 1) (n - 1) TypeError).
  - apply lookup_seq. lia.
  - unfold eval_slot. subst S'. unfold addSpecies at 1. simpl.
    fold n. by rewrite array_set_lookup.
Qed.

End Recompile.

Section Removal.
Context {expr : ExpressionService}.

(** X11.  [removeSpecies] keeps a system compilable: when the species ids
    are distinct and every term goes to a registered species, the same holds
    after the removal of a registered species, and [compile] returns. *)
Theorem removeSpecies_then_compile identifier (S : System) i :
  parse "0" = Ok (ConstantNode "0") ->
  Obj.wf (species S) ->
  participants_registered S ->
  Obj.keys (species S) !! i = Some identifier ->
  exists S1,
    removeSpecies identifier S = Normal tt S1
    /\ Obj.wf (species S1)
    /\ participants_registered S1
    /\ compile S1 = Normal tt (compiled S1).
Proof.
  intros Hzero Hwf Hreg Hi. rewrite removeSpecies_unfold. eexists. split; [reflexivity|].
  match goal with |- Obj.wf (species ?s) /\ _ => set (S1 := s) end.
  assert (Hwf1 : Obj.wf (species S1)).
  { unfold Obj.wf. subst S1. simpl. rewrite (delete_property_keys _ _ i) by done.
    exact (sublist_NoDup _ _ Hwf (sublist_delete _ i)). }
  assert (Hreg1 : participants_registered S1).
  { intros c Hc. subst S1. simpl in *.
    apply list_elem_of_In, in_flat_map in Hc as (inst & Hinst & Hc).
    apply filter_In in Hinst as [Hinst Hnot].
    apply list_elem_of_In in Hc.
    assert (Hvar : c.1 ∈ variables inst).
    { unfold contributions in Hc. apply list_elem_of_omap in Hc as (k & Hk & Hc).
      destruct (Obj.get (rules inst) k ≫= expression); simpl in Hc; [|done].
      by inversion Hc. }
    assert (Hne : c.1 <> identifier).
    { intros Heq. rewrite Heq in Hvar. apply includes_spec in Hvar.
      by rewrite Hvar in Hnot. }
    assert (Hold : c.1 ∈ Obj.keys (species S)).
    { apply Hreg. apply list_elem_of_In, in_flat_map. exists inst.
      split; [done|]. by apply list_elem_of_In. }
    apply Obj_keys_get_Some in Hold as [s Hs].
    apply (Obj_get_Some_keys _ _ s). by rewrite delete_property_get_ne. }
  split; [done|]. split; [done|]. by apply compile_compiled.
Qed.

End Removal.

(** ** Definitions and parameters *)

Lemma new_rules_keys (l : list string) (acc : obj Rule) :
  Obj.keys (foldl (fun rs v => Obj.set rs v new_Rule) acc l) = first_seen (Obj.keys acc) l.
Proof.
  revert acc. induction l as [|v l IH]; intros acc; simpl; [done|].
  rewrite IH. unfold first_seen at 2. simpl. fold (first_seen).
  destruct (includes (Obj.keys acc) v) eqn:E.
  - apply includes_spec, Obj_keys_get_Some in E. by rewrite Obj_keys_set_Some.
  - assert (Hnone : Obj.get acc v = None).
    { apply Obj_get_None_keys. intros Hin%includes_spec. congruence. }
    by rewrite Obj_keys_set_None.
Qed.

Lemma parameters_of_unset (d : InteractionDefinition) :
  (forall k r, Obj.get (rules d) k = Some r -> expression r = None) ->
  parameters_of d = [].
Proof.
  intros Hall. unfold parameters_of.
  induction (Obj.keys (rules d)) as [|k ks IH] using rev_ind; [done|].
  rewrite foldl_app. simpl. rewrite IH.
  destruct (Obj.get (rules d) k) as [r|] eqn:Hr; simpl; [|done].
  by rewrite (Hall k r Hr).
Qed.


Section Parameters.
Context {parser : ParserService}.


End Parameters.

Lemma first_seen_dedups acc l : NoDup acc -> NoDup (first_seen acc l).
Proof.
  revert acc. induction l as [|x l IH]; intros acc Hacc; [done|].
  unfold first_seen. simpl. fold (first_seen (if includes acc x then acc else acc ++ [x]) l).
  apply IH. destruct (includes acc x) eqn:E; [done|].
  apply NoDup_app. split; [done|]. split; [|apply NoDup_singleton].
  intros y Hy ->%list_elem_of_singleton.
  apply includes_spec in Hy. congruence.
Qed.

(** X14.  The names returned by [parameters()] are exactly the symbol
    names of the rule expressions that are no variable of the definition;
    striking out the repeats gives the names in the order of their first
    occurrence, and the result is that list exactly when it has no repeat. *)
Theorem parameters_of_non_variable_symbols (d : InteractionDefinition) :
  (forall x, (x ∈ parameters_of d)
             <-> ((x ∉ variables d) /\ exists e, e ∈ rule_expressions d /\ x ∈ symbols e))
  /\ (first_seen [] (parameters_of d) = first_seen_parameters d)
  /\ ((parameters_of d = first_seen_parameters d) <-> NoDup (parameters_of d)).
Proof.
  destruct (parameters_of_first_seen d) as (Hseen & Hiff & Hnd).
  split; [done|]. split; [done|]. split; [|done].
  intros Heq. rewrite Heq. unfold first_seen_parameters.
  apply first_seen_dedups, NoDup_nil_2.
Qed.

(** ** Accepted calls of [addInteraction] *)

Lemma bind_symbols_snoc tbl ids args a :
  bind_symbols tbl ids (args ++ [a])
  = <[key_at ids (length args) := a]> (bind_symbols tbl ids args).
Proof.
  unfold bind_symbols. rewrite imap_app, foldl_app. simpl.
  by rewrite Nat.add_0_r.
Qed.

Lemma bind_symbols_lookup tbl ids args i k v :
  NoDup ids -> length args <= length ids ->
  ids !! i = Some k -> args !! i = Some v ->
  bind_symbols tbl ids args !! k = Some v.
Proof.
  intros Hnd. revert i v. induction args as [|a args IH] using rev_ind; intros i v Hlen Hk Hv.
  - done.
  - rewrite length_app in Hlen. simpl in Hlen. rewrite bind_symbols_snoc.
    destruct (decide (i = length args)) as [->|Hi].
    + rewrite lookup_app_r, Nat.sub_diag in Hv by lia. simpl in Hv. inversion Hv; subst.
      unfold key_at. rewrite Hk. simpl. apply lookup_insert_eq.
    + assert (Hi' : i < length args).
      { apply lookup_lt_Some in Hv. rewrite length_app in Hv. simpl in Hv. lia. }
      rewrite lookup_app_l in Hv by done.
      destruct (lookup_lt_is_Some_2 ids (length args)) as [k' Hk']; [lia|].
      unfold key_at. rewrite Hk'. simpl. rewrite lookup_insert_ne.
      * apply (IH i v); [lia|done|done].
      * intros ->. apply Hi. eapply NoDup_lookup; eauto.
Qed.

Lemma bind_symbols_other tbl ids args q :
  length args <= length ids -> q ∉ ids ->
  bind_symbols tbl ids args !! q = tbl !! q.
Proof.
  induction args as [|a args IH] using rev_ind; intros Hlen Hq; [done|].
  rewrite length_app in Hlen. simpl in Hlen. rewrite bind_symbols_snoc.
  destruct (lookup_lt_is_Some_2 ids (length args)) as [k' Hk']; [lia|].
  unfold key_at. rewrite Hk'. simpl. rewrite lookup_insert_ne.
  - apply IH; [lia|done].
  - intros ->. apply Hq. apply list_elem_of_lookup. eauto.
Qed.

Lemma bind_symbols_range tbl ids args q y :
  bind_symbols tbl ids args !! q = Some y -> y ∈ args \/ tbl !! q = Some y.
Proof.
  revert y. induction args as [|a args IH] using rev_ind; intros y; [by right|].
  rewrite bind_symbols_snoc.
  destruct (decide (key_at ids (length args) = q)) as [<-|Hne].
  - rewrite lookup_insert_eq. intros [= <-]. left. apply elem_of_app. right.
    apply list_elem_of_here.
  - rewrite lookup_insert_ne by done. intros Hy. destruct (IH y Hy) as [Hin|Hin]; [|by right].
    left. apply elem_of_app. by left.
Qed.

Lemma bind_symbols_keeps tbl ids args q :
  is_Some (tbl !! q) -> is_Some (bind_symbols tbl ids args !! q).
Proof.
  induction args as [|a args IH] using rev_ind; intros Hq; [done|].
  rewrite bind_symbols_snoc.
  destruct (decide (key_at ids (length args) = q)) as [<-|Hne].
  - rewrite lookup_insert_eq. eauto.
  - rewrite lookup_insert_ne by done. auto.
Qed.

Lemma bind_symbols_binds_index tbl ids args j :
  j < length args -> is_Some (bind_symbols tbl ids args !! key_at ids j).
Proof.
  induction args as [|a args IH] using rev_ind; intros Hj; [simpl in Hj; lia|].
  rewrite length_app in Hj. simpl in Hj. rewrite bind_symbols_snoc.
  destruct (decide (key_at ids (length args) = key_at ids j)) as [<-|Hne].
  - rewrite lookup_insert_eq. eauto.
  - rewrite lookup_insert_ne by done. apply IH.
    destruct (decide (j = length args)) as [->|?]; [done|lia].
Qed.

Lemma bind_symbols_binds tbl ids args q :
  length ids <= length args -> q ∈ ids -> is_Some (bind_symbols tbl ids args !! q).
Proof.
  intros Hlen [i Hi]%list_elem_of_lookup.
  assert (Hq : key_at ids i = q) by (unfold key_at; by rewrite Hi).
  rewrite <- Hq. apply bind_symbols_binds_index.
  apply lookup_lt_Some in Hi. lia.
Qed.

Lemma symbols_args (args : list Node) :
  map Node_name (List.filter is_SymbolNode (flat_map traverse args))
  = flat_map symbols args.
Proof.
  induction args as [|a args IH]; simpl; [done|].
  by rewrite List.filter_app, map_app, IH.
Qed.

Lemma symbols_substitute tbl (e : Node) :
  symbols (substitute tbl e) = map (fun x => default x (tbl !! x)) (symbols e).
Proof.
  induction e as [v|x|op fn args IH|f args IH] using Node_ind'; try done.
  - unfold symbols, Node_filter. simpl. rewrite !symbols_args.
    induction IH as [|a args Ha _ IHargs]; simpl; [done|].
    by rewrite map_app, Ha, IHargs.
  - unfold symbols, Node_filter. simpl. rewrite !symbols_args.
    induction IH as [|a args Ha _ IHargs]; simpl; [done|].
    by rewrite map_app, Ha, IHargs.
Qed.

Lemma new_rules_NoDup (v_args : list string) :
  NoDup v_args ->
  Obj.keys (foldl (fun rs v => Obj.set rs v new_Rule) [] v_args) = v_args.
Proof.
  intros Hnd. rewrite new_rules_keys. simpl.
  apply (first_seen_NoDup _ Hnd []). intros x _. apply not_elem_of_nil.
Qed.

Section Accepted.
Context {expr : ExpressionService}.

Lemma copy_rule_step base v_args i rs :
  Obj.wf (rules base) -> NoDup v_args -> reads_back base ->
  length v_args = length (rules base) ->
  i < length v_args ->
  Obj.keys rs = v_args ->
  (forall j v, v_args !! j = Some v ->
     Obj.get rs v = Some (if decide (j < i) then copied (rule_at base j) else new_Rule)) ->
  exists rs',
    copy_rule base i rs = Ok rs'
    /\ Obj.keys rs' = v_args
    /\ forall j v, v_args !! j = Some v ->
         Obj.get rs' v = Some (if decide (j < S i) then copied (rule_at base j) else new_Rule).
Proof.
  intros Hwf Hnd Hback Hlen Hi Hkeys Hget.
  destruct (lookup_lt_is_Some_2 (rules base) i) as [[k r] Hr]; [lia|].
  destruct (lookup_lt_is_Some_2 v_args i) as [v Hv]; [lia|].
  assert (Hrule : rule_at base i = r) by (unfold rule_at, obj in *; by rewrite Hr).
  assert (Hk : key_at (Obj.keys (rules base)) i = k).
  { unfold key_at, Obj.keys. by rewrite list_lookup_fmap, Hr. }
  unfold copy_rule. rewrite Hk, (Obj_get_lookup _ _ _ _ Hwf Hr).
  destruct (expression r) as [e|] eqn:He.
  - assert (Hrid : key_at (Obj.keys rs) i = v) by (unfold key_at; by rewrite Hkeys, Hv).
    rewrite Hrid, (Hget i v Hv).
    assert (He' : e ∈ rule_expressions base).
    { unfold rule_expressions. apply list_elem_of_omap. exists k. split.
      - apply list_elem_of_lookup. exists i. unfold Obj.keys. by rewrite list_lookup_fmap, Hr.
      - by rewrite (Obj_get_lookup _ _ _ _ Hwf Hr). }
    unfold Rule_set. rewrite (Hback e He'). simpl.
    eexists. split; [reflexivity|]. split.
    + rewrite Obj_keys_set_Some; [done|]. rewrite (Hget i v Hv). eauto.
    + intros j w Hw. destruct (decide (w = v)) as [->|Hne].
      * assert (j = i) as -> by (eapply NoDup_lookup; eauto).
        rewrite Obj_get_set_eq, decide_True by lia.
        rewrite Hrule. unfold copied. by rewrite He.
      * rewrite Obj_get_set_ne by done. rewrite (Hget j w Hw).
        assert (j <> i) by (intros ->; congruence).
        destruct (decide (j < i)); [by rewrite decide_True by lia|by rewrite decide_False by lia].
  - exists rs. split; [done|]. split; [done|].
    intros j w Hw. rewrite (Hget j w Hw).
    destruct (decide (j = i)) as [->|Hne].
    + rewrite decide_False, decide_True by lia. rewrite Hrule. unfold copied. by rewrite He.
    + destruct (decide (j < i)); [by rewrite decide_True by lia|by rewrite decide_False by lia].
Qed.

Lemma copy_loop_accepted base v_args m i rs :
  Obj.wf (rules base) -> NoDup v_args -> reads_back base ->
  length v_args = length (rules base) ->
  i + m <= length v_args ->
  Obj.keys rs = v_args ->
  (forall j v, v_args !! j = Some v ->
     Obj.get rs v = Some (if decide (j < i) then copied (rule_at base j) else new_Rule)) ->
  exists rs',
    for_result (seq i m) (copy_rule base) rs = Ok rs'
    /\ Obj.keys rs' = v_args
    /\ forall j v, v_args !! j = Some v ->
         Obj.get rs' v = Some (if decide (j < i + m) then copied (rule_at base j) else new_Rule).
Proof.
  intros Hwf Hnd Hback Hlen. revert i rs.
  induction m as [|m IH]; intros i rs Him Hkeys Hget; simpl.
  - exists rs. rewrite Nat.add_0_r. done.
  - destruct (copy_rule_step base v_args i rs) as (rs1 & -> & Hkeys1 & Hget1);
      [done|done|done|done|lia|done|done|]. simpl.
    destruct (IH (S i) rs1) as (rs' & -> & Hkeys' & Hget'); [lia|done|done|].
    exists rs'. split; [done|]. split; [done|].
    intros j v Hv. rewrite (Hget' j v Hv).
    replace (S i + m) with (i + S m) by lia. done.
Qed.

Lemma Interaction_accepted (S : System) base v_args p_args :
  accepted S base v_args p_args = true ->
  Obj.wf (rules base) -> NoDup v_args -> reads_back base ->
  exists inst,
    Interaction S base v_args p_args = Ok inst
    /\ def_name inst = def_name base
    /\ Obj.keys (rules inst) = v_args
    /\ forall j v, v_args !! j = Some v ->
         Obj.get (rules inst) v ≫= expression
         = substitute (symbol_table_of base v_args p_args) <$> expression (rule_at base j).
Proof.
  intros Hacc Hwf Hnd Hback. unfold accepted in Hacc.
  apply andb_prop in Hacc as [Hacc Hp]. apply andb_prop in Hacc as [Hacc Hv].
  apply andb_prop in Hacc as [Hsp Hpar].
  assert (Hlen : length v_args = length (rules base)).
  { apply Nat.eqb_eq in Hv. unfold variables in Hv. by rewrite Obj_keys_length in Hv. }
  unfold Interaction.
  destruct (copy_loop_accepted base v_args (length (Obj.keys (rules base))) 0
              (rules (new_InteractionDefinition (def_name base) v_args)))
    as (rs & -> & Hkeys & Hget); [done|done|done|done| | | |].
  { rewrite Obj_keys_length. lia. }
  { simpl. by apply new_rules_NoDup. }
  { intros j v Hj. simpl. rewrite (foldl_set_const_get (fun _ => new_Rule)).
    rewrite bool_decide_eq_true_2; [done|]. apply list_elem_of_lookup. eauto. }
  simpl. rewrite Hsp, Hpar, Hv, Hp. simpl.
  eexists. split; [reflexivity|]. simpl. split; [done|].
  split.
  - rewrite <- Hkeys. unfold Obj.keys. rewrite map_map. apply map_ext. by intros [k r].
  - intros j v Hj.
    rewrite (Obj_get_map (fun _ r => set_expression r
               (substitute (bind_symbols (bind_symbols ∅ (variables base) v_args)
                                          (parameters_of base) p_args) <$> expression r))).
    rewrite (Hget j v Hj). simpl.
    rewrite decide_True.
    2:{ apply lookup_lt_Some in Hj. rewrite Obj_keys_length. lia. }
    unfold copied, symbol_table_of. by destruct (expression (rule_at base j)).
Qed.

End Accepted.

Lemma all_registered_elem {V} (registry : obj V) (args : list string) x :
  all_registered registry args = true -> x ∈ args -> x ∈ Obj.keys registry.
Proof.
  unfold all_registered. rewrite forallb_forall. intros Hall Hx.
  apply includes_spec, Hall. by apply list_elem_of_In.
Qed.

Lemma rule_at_lookup base j k r :
  rules base !! j = Some (k, r) -> rule_at base j = r.
Proof. intros Hr. unfold rule_at, obj in *. by rewrite Hr. Qed.

Lemma contributions_variables inst c : c ∈ contributions inst -> c.1 ∈ variables inst.
Proof.
  unfold contributions. intros (k & Hk & Hc)%list_elem_of_omap.
  destruct (Obj.get (rules inst) k ≫= expression); simpl in Hc; [|done].
  by inversion Hc.
Qed.

Section Closed.
Context {expr : ExpressionService}.

Lemma symbol_table_of_binds (S : System) base v_args p_args x :
  accepted S base v_args p_args = true ->
  x ∈ variables base \/ x ∈ parameters_of base ->
  exists y, symbol_table_of base v_args p_args !! x = Some y
            /\ (y ∈ Obj.keys (species S) \/ y ∈ Obj.keys (parameters S)).
Proof.
  intros Hacc Hx. unfold accepted in Hacc.
  apply andb_prop in Hacc as [Hacc Hp]. apply andb_prop in Hacc as [Hacc Hv].
  apply andb_prop in Hacc as [Hsp Hpar].
  apply Nat.eqb_eq in Hv, Hp.
  assert (Hsome : is_Some (symbol_table_of base v_args p_args !! x)).
  { unfold symbol_table_of. destruct Hx as [Hx|Hx].
    - apply bind_symbols_keeps. apply bind_symbols_binds; [lia|done].
    - apply bind_symbols_binds; [lia|done]. }
  destruct Hsome as [y Hy]. exists y. split; [done|].
  unfold symbol_table_of in Hy.
  apply bind_symbols_range in Hy as [Hy|Hy].
  - right. by apply (all_registered_elem _ p_args).
  - apply bind_symbols_range in Hy as [Hy|Hy]; [|done].
    left. by apply (all_registered_elem _ v_args).
Qed.

(** X15.  An accepted call of [addInteraction] with distinct species
    arguments none of which is integer-like, so that the rules of the
    instance are listed in the order of the arguments, on a definition
    whose expressions the parser reads back, appends one instance: it has
    the name of the definition, its variables are the species arguments, and
    the rule of the [j]-th argument holds the expression of the [j]-th rule
    of the definition with the symbols renamed by the symbol table, which
    binds the [j]-th variable to the [j]-th species argument and, the
    parameters of the definition being distinct, the [j]-th parameter to the
    [j]-th parameter argument. *)
Theorem addInteraction_accepted_substitutes id v_args p_args (S : System) base :
  Obj.get (interactions S) id = Some base ->
  accepted S base v_args p_args = true ->
  Obj.wf (rules base) -> NoDup v_args -> none_integer_like v_args = true ->
  reads_back base ->
  exists inst,
    addInteraction id v_args p_args S
    = Normal tt (set__interactions S (_interactions S ++ [inst]))
    /\ def_name inst = def_name base
    /\ variables inst = v_args
    /\ (forall j v k r, v_args !! j = Some v -> rules base !! j = Some (k, r) ->
          Obj.get (rules inst) v ≫= expression
          = substitute (symbol_table_of base v_args p_args) <$> expression r
          /\ symbol_table_of base v_args p_args !! k = Some v)
    /\ (NoDup (parameters_of base) ->
        forall j p a, parameters_of base !! j = Some p -> p_args !! j = Some a ->
          symbol_table_of base v_args p_args !! p = Some a).
Proof.
  intros Hbase Hacc Hwf Hnd _ Hback.
  destruct (Interaction_accepted S base v_args p_args Hacc Hwf Hnd Hback)
    as (inst & Hinst & Hname & Hkeys & Hrules).
  exists inst. unfold addInteraction. rewrite Hbase, Hinst.
  split; [done|]. split; [done|]. split; [done|].
  unfold accepted in Hacc.
  apply andb_prop in Hacc as [Hacc Hp]. apply andb_prop in Hacc as [Hacc Hv].
  apply Nat.eqb_eq in Hv, Hp.
  split.
  - intros j v k r Hj Hr. split.
    + by rewrite (Hrules j v Hj), (rule_at_lookup _ _ _ _ Hr).
    + assert (Hk : variables base !! j = Some k).
      { unfold variables, Obj.keys. unfold obj in *. by rewrite list_lookup_fmap, Hr. }
      unfold symbol_table_of. rewrite bind_symbols_other.
      * apply (bind_symbols_lookup _ _ _ j); [done|lia|done|done].
      * lia.
      * intros Hin. apply (parameters_of_first_seen base) in Hin as [Hnot _].
        apply Hnot. apply list_elem_of_lookup. eauto.
  - intros Hpnd j p a Hp' Ha. unfold symbol_table_of.
    apply (bind_symbols_lookup _ _ _ j); [done|lia|done|done].
Qed.

(** The copy loop sets rules that exist: it adds no rule to the instance. *)
Lemma copy_rule_keys base i rs rs' :
  copy_rule base i rs = Ok rs' -> Obj.keys rs' = Obj.keys rs.
Proof.
  unfold copy_rule.
  destruct (Obj.get (rules base) _) as [old_rule|]; [|done].
  destruct (expression old_rule) as [e|]; [|by intros [= <-]].
  destruct (Obj.get rs _) as [new_rule|] eqn:Hnew; [|done].
  destruct (Rule_set _ _) as [new_rule'|err]; simpl; [|done].
  intros [= <-]. apply Obj_keys_set_Some. eauto.
Qed.

Lemma copy_loop_keys base l rs rs' :
  for_result l (copy_rule base) rs = Ok rs' -> Obj.keys rs' = Obj.keys rs.
Proof.
  revert rs. induction l as [|i l IH]; intros rs; simpl; [by intros [= <-]|].
  destruct (copy_rule base i rs) as [rs1|err] eqn:Hstep; simpl; [|done].
  intros Hrest. rewrite (IH _ Hrest). by eapply copy_rule_keys.
Qed.

(** With a parser that reads back what the printer writes, the copy loop
    stores only expressions of the definition, and throws nothing but the
    TypeError of a rule that does not exist. *)
Lemma copy_rule_from_base base i rs rs' :
  reads_back base ->
  (forall k r e, Obj.get rs k = Some r -> expression r = Some e ->
                 e ∈ rule_expressions base) ->
  copy_rule base i rs = Ok rs' ->
  forall k r e, Obj.get rs' k = Some r -> expression r = Some e ->
                e ∈ rule_expressions base.
Proof.
  intros Hback Hinv. unfold copy_rule.
  destruct (Obj.get (rules base) (key_at (Obj.keys (rules base)) i))
    as [old_rule|] eqn:Hold; [|done].
  destruct (expression old_rule) as [e0|] eqn:He0; [|by intros [= <-]].
  assert (Hin : e0 ∈ rule_expressions base).
  { unfold rule_expressions. apply list_elem_of_omap.
    exists (key_at (Obj.keys (rules base)) i). split.
    - by apply (Obj_get_Some_keys _ _ old_rule).
    - by rewrite Hold. }
  destruct (Obj.get rs (key_at (Obj.keys rs) i)) as [new_rule|]; [|done].
  unfold Rule_set. rewrite (Hback e0 Hin). simpl. intros [= <-] k r e Hk He.
  destruct (decide (k = key_at (Obj.keys rs) i)) as [->|Hne].
  - rewrite Obj_get_set_eq in Hk. inversion Hk; subst r. simpl in He.
    inversion He; by subst.
  - rewrite Obj_get_set_ne in Hk by done. by apply (Hinv k r e).
Qed.

Lemma copy_rule_throws base i rs err :
  reads_back base -> copy_rule base i rs = Throw err -> err = TypeError.
Proof.
  intros Hback. unfold copy_rule.
  destruct (Obj.get (rules base) (key_at (Obj.keys (rules base)) i))
    as [old_rule|] eqn:Hold; [|by intros [= <-]].
  destruct (expression old_rule) as [e0|] eqn:He0; [|done].
  assert (Hin : e0 ∈ rule_expressions base).
  { unfold rule_expressions. apply list_elem_of_omap.
    exists (key_at (Obj.keys (rules base)) i). split.
    - by apply (Obj_get_Some_keys _ _ old_rule).
    - by rewrite Hold. }
  destruct (Obj.get rs (key_at (Obj.keys rs) i)) as [new_rule|]; [|by intros [= <-]].
  unfold Rule_set. by rewrite (Hback e0 Hin).
Qed.

Lemma copy_loop_from_base base l rs :
  reads_back base ->
  (forall k r e, Obj.get rs k = Some r -> expression r = Some e ->
                 e ∈ rule_expressions base) ->
  match for_result l (copy_rule base) rs with
  | Ok rs' => forall k r e, Obj.get rs' k = Some r -> expression r = Some e ->
                            e ∈ rule_expressions base
  | Throw err => err = TypeError
  end.
Proof.
  intros Hback. revert rs. induction l as [|i l IH]; intros rs Hinv; simpl; [done|].
  destruct (copy_rule base i rs) as [rs1|err] eqn:Hstep; simpl.
  - apply IH. by apply (copy_rule_from_base base i rs).
  - by apply (copy_rule_throws base i rs).
Qed.

(** X16.  With a parser that reads back the printed expressions of the
    definition, an accepted call of [addInteraction] either throws a
    TypeError and leaves the system as it was, or appends one instance; the
    call returns when the species arguments are distinct (the rules of the
    definition having distinct names, as the keys of an object have).  Every
    symbol of every expression of the appended instance names a registered
    species or a registered parameter, and the terms of the instance go to
    registered species: a system in which every term goes to a registered
    species stays so. *)
Theorem addInteraction_accepted_closed id v_args p_args (S : System) base :
  Obj.get (interactions S) id = Some base ->
  accepted S base v_args p_args = true ->
  reads_back base ->
  (addInteraction id v_args p_args S = Abrupt TypeError S
   \/ exists inst,
        addInteraction id v_args p_args S
        = Normal tt (set__interactions S (_interactions S ++ [inst]))
        /\ (forall e x, e ∈ rule_expressions inst -> x ∈ symbols e ->
              x ∈ Obj.keys (species S) \/ x ∈ Obj.keys (parameters S))
        /\ (forall c, c ∈ contributions inst -> c.1 ∈ Obj.keys (species S))
        /\ (participants_registered S ->
            participants_registered (set__interactions S (_interactions S ++ [inst]))))
  /\ (Obj.wf (rules base) -> NoDup v_args ->
      exists inst, addInteraction id v_args p_args S
                   = Normal tt (set__interactions S (_interactions S ++ [inst]))).
Proof.
  intros Hbase Hacc Hback. split.
  2:{ intros Hwf Hnd.
      destruct (Interaction_accepted S base v_args p_args Hacc Hwf Hnd Hback)
        as (inst & Hinst & _).
      exists inst. unfold addInteraction. by rewrite Hbase, Hinst. }
  unfold addInteraction. rewrite Hbase.
  assert (Hargs : all_registered (species S) v_args = true).
  { unfold accepted in Hacc.
    apply andb_prop in Hacc as [Hacc' _]. apply andb_prop in Hacc' as [Hacc' _].
    by apply andb_prop in Hacc' as [Hsp _]. }
  assert (Hloop := copy_loop_from_base base (seq 0 (length (Obj.keys (rules base))))
                     (rules (new_InteractionDefinition (def_name base) v_args)) Hback).
  unfold Interaction.
  destruct (for_result (seq 0 (length (Obj.keys (rules base)))) (copy_rule base)
              (rules (new_InteractionDefinition (def_name base) v_args)))
    as [rs|err] eqn:Hcopy; simpl.
  2:{ left. rewrite Hloop; [done|]. simpl. intros k r e.
      rewrite (foldl_set_const_get (fun _ => new_Rule)).
      case_bool_decide; [|done]. by intros [= <-]. }
  right.
  assert (Hinv : forall k r e, Obj.get rs k = Some r -> expression r = Some e ->
                               e ∈ rule_expressions base).
  { apply Hloop. simpl. intros k r e.
    rewrite (foldl_set_const_get (fun _ => new_Rule)).
    case_bool_decide; [|done]. by intros [= <-]. }
  assert (Hchecks := Hacc). unfold accepted in Hchecks.
  apply andb_prop in Hchecks as [Hchecks Hp]. apply andb_prop in Hchecks as [Hchecks Hv].
  apply andb_prop in Hchecks as [Hsp Hpar].
  rewrite Hsp, Hpar, Hv, Hp. simpl.
  eexists. split; [reflexivity|].
  assert (Hvars : forall x,
            x ∈ Obj.keys (map (fun '(r_id, r) =>
                       (r_id, set_expression r
                                (substitute (bind_symbols (bind_symbols ∅ (variables base) v_args)
                                                          (parameters_of base) p_args)
                                   <$> expression r))) rs) -> x ∈ v_args).
  { intros x. rewrite (Obj_keys_map (fun _ r => set_expression r _)).
    rewrite (copy_loop_keys _ _ _ _ Hcopy). simpl. rewrite (new_rules_keys v_args []).
    intros [Hin|Hin]%first_seen_elem; [by apply elem_of_nil in Hin|done]. }
  assert (Hterms : forall c,
            c ∈ contributions
                  {| def_name := def_name base;
                     rules := map (fun '(r_id, r) =>
                       (r_id, set_expression r
                                (substitute (bind_symbols (bind_symbols ∅ (variables base) v_args)
                                                          (parameters_of base) p_args)
                                   <$> expression r))) rs |} ->
            c.1 ∈ Obj.keys (species S)).
  { intros c Hc. apply contributions_variables in Hc.
    apply (all_registered_elem _ v_args); [done|]. by apply Hvars. }
  split; [|split; [exact Hterms|]].
  - intros e x He Hx. unfold rule_expressions in He. simpl in He.
    apply list_elem_of_omap in He as (k & _ & He).
    rewrite (Obj_get_map (fun _ r => set_expression r _)) in He.
    destruct (Obj.get rs k) as [r|] eqn:Hr; simpl in He; [|done].
    destruct (expression r) as [e0|] eqn:He0; simpl in He; [|done].
    inversion He; subst e. rewrite symbols_substitute in Hx.
    apply list_elem_of_fmap in Hx as (x0 & -> & Hx0).
    assert (He0' : e0 ∈ rule_expressions base) by by apply (Hinv k r e0).
    assert (Hx0' : x0 ∈ variables base \/ x0 ∈ parameters_of base).
    { destruct (decide (x0 ∈ variables base)) as [?|Hnot]; [by left|]. right.
      apply (parameters_of_first_seen base). split; [done|]. eauto. }
    destruct (symbol_table_of_binds S base v_args p_args x0 Hacc Hx0') as (y & Hy & Hreg).
    unfold symbol_table_of in Hy. by rewrite Hy.
  - intros Hreg c Hc. simpl in *. rewrite flat_map_app in Hc.
    apply elem_of_app in Hc as [Hc|Hc]; [by apply Hreg|].
    simpl in Hc. rewrite app_nil_r in Hc. by apply Hterms.
Qed.

End Closed.

Lemma first_seen_length acc l : length (first_seen acc l) <= length acc + length l.
Proof.
  revert acc. induction l as [|x l IH]; intros acc; [simpl; lia|].
  unfold first_seen. simpl. fold (first_seen (if includes acc x then acc else acc ++ [x]) l).
  specialize (IH (if includes acc x then acc else acc ++ [x])).
  destruct (includes acc x); [lia|]. rewrite length_app in IH. simpl in IH. lia.
Qed.

Lemma first_seen_full acc l :
  NoDup acc -> length (first_seen acc l) = length acc + length l -> NoDup (acc ++ l).
Proof.
  revert acc. induction l as [|x l IH]; intros acc Hacc Hlen; [by rewrite app_nil_r|].
  unfold first_seen in Hlen. simpl in Hlen.
  fold (first_seen (if includes acc x then acc else acc ++ [x]) l) in Hlen.
  destruct (includes acc x) eqn:E.
  - pose proof (first_seen_length acc l). lia.
  - rewrite cons_middle, app_assoc. apply IH.
    + apply NoDup_app. split; [done|]. split; [|apply NoDup_singleton].
      intros y Hy ->%list_elem_of_singleton. apply includes_spec in Hy. congruence.
    + rewrite Hlen, length_app. simpl. lia.
Qed.

Section Repeated.
Context {expr : ExpressionService}.

Lemma copy_loop_short base (K : list string) m i (rs : obj Rule) :
  Obj.wf (rules base) -> reads_back base ->
  (forall k r, Obj.get (rules base) k = Some r -> is_Some (expression r)) ->
  "undefined" ∉ K ->
  length K < length (rules base) ->
  i <= length K ->
  i + m = length (rules base) ->
  Obj.keys rs = K ->
  for_result (seq i m) (copy_rule base) rs = Throw TypeError.
Proof.
  intros Hwf Hback Hexpr Hundef HK. revert i rs.
  induction m as [|m IH]; intros i rs Hi Him Hkeys; [lia|].
  cbn [seq for_result].
  destruct (lookup_lt_is_Some_2 (rules base) i) as [[k r] Hr]; [lia|].
  assert (Hk : key_at (Obj.keys (rules base)) i = k).
  { unfold key_at, Obj.keys. unfold obj in *. by rewrite list_lookup_fmap, Hr. }
  assert (Hget := Obj_get_lookup _ _ _ _ Hwf Hr).
  destruct (Hexpr k r Hget) as [e He].
  assert (He' : e ∈ rule_expressions base).
  { unfold rule_expressions. apply list_elem_of_omap. exists k. split.
    - eauto using Obj_get_Some_keys.
    - by rewrite Hget. }
  destruct (decide (i = length K)) as [->|Hne].
  - assert (Hrid : key_at (Obj.keys rs) (length K) = "undefined").
    { unfold key_at. rewrite Hkeys, lookup_ge_None_2 by lia. done. }
    assert (Hnone : Obj.get rs "undefined" = None).
    { apply Obj_get_None_keys. by rewrite Hkeys. }
    assert (Hstep : copy_rule base (length K) rs = Throw TypeError).
    { unfold copy_rule. by rewrite Hk, Hget, He, Hrid, Hnone. }
    by rewrite Hstep.
  - destruct (lookup_lt_is_Some_2 K i) as [v Hv]; [lia|].
    assert (Hrid : key_at (Obj.keys rs) i = v) by (unfold key_at; by rewrite Hkeys, Hv).
    destruct (Obj_keys_get_Some rs v) as [r0 Hr0].
    { rewrite Hkeys. apply list_elem_of_lookup. eauto. }
    assert (Hstep : copy_rule base i rs
                    = Ok (Obj.set rs v {| rule_name := None; expression := Some e |})).
    { unfold copy_rule, Rule_set. by rewrite Hk, Hget, He, Hrid, Hr0, (Hback e He'). }
    rewrite Hstep. cbn [mbind result_bind].
    apply IH; [lia|lia|]. rewrite Obj_keys_set_Some; [done|eauto].
Qed.

(** X17.  When the species arguments are as many as the rules of the
    definition but name a species twice, the instance under construction has
    fewer rules than the definition, the copy loop reads a rule that does not
    exist, and [addInteraction] throws a TypeError, leaving the system as it
    was (every rule of the definition holding an expression, and no argument
    being the name "undefined"). *)
Theorem addInteraction_repeated_species_throws id v_args p_args (S : System) base :
  Obj.get (interactions S) id = Some base ->
  Obj.wf (rules base) -> reads_back base ->
  (forall k r, Obj.get (rules base) k = Some r -> is_Some (expression r)) ->
  length v_args = length (rules base) ->
  ~ NoDup v_args ->
  "undefined" ∉ v_args ->
  addInteraction id v_args p_args S = Abrupt TypeError S.
Proof.
  intros Hbase Hwf Hback Hexpr Hlen Hdup Hundef.
  unfold addInteraction, Interaction. rewrite Hbase.
  rewrite (copy_loop_short base (first_seen [] v_args)); try done.
  - intros Hin. apply first_seen_elem in Hin as [Hin|Hin]; [by apply elem_of_nil in Hin|done].
  - pose proof (first_seen_length [] v_args) as Hle. simpl in Hle.
    destruct (decide (length (first_seen [] v_args) = length v_args)) as [Heq|Hneq]; [|lia].
    exfalso. apply Hdup. apply (first_seen_full [] v_args); [apply NoDup_nil_2|done].
  - lia.
  - by rewrite Obj_keys_length.
  - apply (new_rules_keys v_args []).
Qed.

End Repeated.

(** ** More on the simulation buffer *)

Lemma trim_loop_zero (ks : list string) (s : Simulation) :
  for_each ks (trim_trajectory 0) s = Normal tt s.
Proof. induction ks as [|k ks IH]; simpl; [done|apply IH]. Qed.

Lemma trim_loop_time (n : nat) (ks : list string) (s : Simulation) :
  time (final_state (for_each ks (trim_trajectory n) s)) = time s.
Proof.
  revert s. induction ks as [|k ks IH]; intros s; simpl; [done|].
  unfold trim_trajectory at 1. destruct n as [|n]; simpl; [apply IH|].
  destruct (trajectory_of s k); simpl; [|done]. by rewrite IH.
Qed.

Lemma index_where_lt {A} (p : A -> bool) (l : list A) n :
  index_where p l = Some n -> n < length l.
Proof.
  revert n. induction l as [|a l IH]; intros n; simpl; [done|].
  destruct (p a); [intros [= <-]; lia|].
  destruct (index_where p l) as [m|]; simpl; [|done].
  intros [= <-]. specialize (IH m eq_refl). lia.
Qed.

Lemma index_where_drop {A} (p : A -> bool) (l : list A) n :
  index_where p l = Some n -> index_where p (drop n l) = Some 0.
Proof.
  revert n. induction l as [|a l IH]; intros n; simpl; [done|].
  destruct (p a) eqn:Hp.
  - intros [= <-]. simpl. by rewrite Hp.
  - destruct (index_where p l) as [m|]; simpl; [|done].
    intros [= <-]. simpl. by apply IH.
Qed.

Lemma last_drop_lt {A} (l : list A) n : n < length l -> last (drop n l) = last l.
Proof.
  revert n. induction l as [|a l IH]; intros n Hn; simpl in Hn; [lia|].
  destruct n as [|n]; [done|]. simpl. rewrite IH by lia.
  destruct l; [simpl in Hn; lia|done].
Qed.

(** X19.  [trim] is idempotent: on the buffer a [trim] has left, whether
    it returned or threw, a second [trim] with the same window returns and
    changes nothing. *)
Theorem trim_idempotent buffer_size (s : Simulation) :
  trim buffer_size (final_state (trim buffer_size s))
  = Normal tt (final_state (trim buffer_size s)).
Proof.
  set (s' := final_state (trim buffer_size s)).
  set (cutoff := (to_num (last (time s)) - buffer_size)%float).
  assert (Htime : time s' = drop (default 0 (indexOf_num (time s) cutoff)) (time s)).
  { subst s'. unfold trim. by rewrite trim_loop_time. }
  assert (Hzero : default 0 (indexOf_num (time s')
                    (to_num (last (time s')) - buffer_size)%float) = 0).
  { rewrite Htime. fold cutoff. unfold indexOf_num in *.
    destruct (index_where (PrimFloat.eqb cutoff) (time s)) as [n|] eqn:Hn.
    - change (default 0 (Some n)) with n.
      rewrite last_drop_lt by (by eapply index_where_lt). fold cutoff.
      by rewrite (index_where_drop _ _ _ Hn).
    - change (default 0 None) with 0. rewrite drop_0. fold cutoff. by rewrite Hn. }
  unfold trim at 1. rewrite Hzero, drop_0, trim_loop_zero. by destruct s'.
Qed.

Lemma trim_loop_keys (n : nat) (ks : list string) (s : Simulation) :
  Obj.keys (trajectory (final_state (for_each ks (trim_trajectory n) s)))
  = Obj.keys (trajectory s).
Proof.
  revert s. induction ks as [|k ks IH]; intros s; simpl; [done|].
  unfold trim_trajectory at 1. destruct n as [|n]; simpl; [apply IH|].
  destruct (trajectory_of s k) as [tr|] eqn:Htr; simpl; [|done].
  rewrite IH. simpl. apply Obj_keys_set_Some.
  apply trajectory_of_get in Htr. eauto.
Qed.

Lemma state_of_ext (s s' : Simulation) :
  Obj.keys (trajectory s') = Obj.keys (trajectory s) ->
  (forall id, id ∈ Obj.keys (trajectory s) ->
     mjoin (last (default [] (trajectory_of s' id)))
     = mjoin (last (default [] (trajectory_of s id)))) ->
  state_of s' = state_of s.
Proof.
  intros Hkeys Hlast. unfold state_of. rewrite Hkeys.
  apply map_ext_in. intros id Hid%list_elem_of_In. by apply Hlast.
Qed.

Lemma trim_state buffer_size (s : Simulation) :
  synchronized s ->
  exists s',
    trim buffer_size s = Normal tt s'
    /\ last (time s') = last (time s)
    /\ Obj.keys (trajectory s') = Obj.keys (trajectory s)
    /\ state_of s' = state_of s.
Proof.
  intros Hsync. assert (Hsync' := Hsync). destruct Hsync' as [Hwf Hlen].
  destruct (trim_synchronized buffer_size s Hsync) as (s' & Htrim & _ & Htime & Hget).
  set (n := default 0 (indexOf_num (time s)
                         (to_num (last (time s)) - buffer_size)%float)) in *.
  assert (Hn : n = 0 \/ n < length (time s)).
  { subst n. unfold indexOf_num.
    destruct (index_where _ (time s)) as [m|] eqn:Hm; simpl; [|by left].
    right. by eapply index_where_lt. }
  assert (Hdrop : forall {A} (l : list A), length l = length (time s) ->
            last (drop n l) = last l).
  { intros A l Hl. destruct Hn as [->|Hn]; [done|]. apply last_drop_lt. lia. }
  assert (Hkeys : Obj.keys (trajectory s') = Obj.keys (trajectory s)).
  { assert (Hs' : s' = final_state (trim buffer_size s)) by by rewrite Htrim.
    rewrite Hs'. unfold trim. by rewrite trim_loop_keys. }
  exists s'. split; [done|]. split; [rewrite Htime; by apply Hdrop|].
  split; [done|]. apply state_of_ext; [done|].
  intros id Hid. destruct (Obj_keys_get_Some _ _ Hid) as [tr Htr].
  destruct (Hlen id tr Htr) as (l & -> & Hl).
  unfold trajectory_of. rewrite (Hget id l Htr), Htr. simpl. by rewrite Hdrop.
Qed.

(** X20.  On a synchronized buffer [trim] returns, keeps the buffer
    synchronized and never drops the latest sample: the last time, the keys
    and the last entry of every trajectory, which is the state the next tick
    starts from, are as before. *)
Theorem trim_keeps_latest buffer_size (s : Simulation) :
  synchronized s ->
  exists s',
    trim buffer_size s = Normal tt s'
    /\ synchronized s'
    /\ last (time s') = last (time s)
    /\ Obj.keys (trajectory s') = Obj.keys (trajectory s)
    /\ state_of s' = state_of s.
Proof.
  intros Hsync.
  destruct (trim_state buffer_size s Hsync) as (s' & Htrim & Hlast & Hkeys & Hstate).
  destruct (trim_synchronized buffer_size s Hsync) as (s'' & Htrim' & Hsync' & _).
  rewrite Htrim in Htrim'. inversion Htrim'; subst s''. by exists s'.
Qed.

Lemma union_of_complete combined union q :
  union_of combined = Ok union -> q ∈ combined -> q ∈ union.
Proof.
  unfold union_of. destruct combined as [|sp0 rest]; [done|].
  intros [= <-]. revert sp0. induction rest as [|sp1 rest IH]; intros sp0 Hq.
  - apply list_elem_of_singleton in Hq as ->. apply list_elem_of_here.
  - apply elem_of_cons in Hq as [->|Hq]; [apply list_elem_of_here|].
    specialize (IH sp1 Hq). simpl.
    destruct (String.eqb_spec sp1 sp0) as [->|Hne]; simpl.
    + apply elem_of_cons in IH as [->|IH]; [apply list_elem_of_here|].
      by apply list_elem_of_further.
    + by apply list_elem_of_further.
Qed.

Lemma js_sort_nil l : js_sort l = [] -> l = [].
Proof.
  destruct l as [|x l]; [done|]. intros Hs.
  assert (Hx : x ∈ js_sort (x :: l)) by (apply js_sort_elem, list_elem_of_here).
  rewrite Hs in Hx. by apply elem_of_nil in Hx.
Qed.



Lemma last_samples_loop (s : Simulation) (ks : list string) :
  (forall id, id ∈ ks -> exists l, trajectory_of s id = Some l) ->
  traverse_list (last_sample s) ks
  = Ok (map (fun id_tr => mjoin (last (default [] (trajectory_of s id_tr)))) ks).
Proof.
  induction ks as [|k ks IH]; intros Hall; [done|].
  destruct (Hall k) as [l Hl]; [apply list_elem_of_here|].
  assert (Hk : last_sample s k = Ok (mjoin (last l))).
  { unfold last_sample. by rewrite Hl. }
  cbn [traverse_list map]. rewrite Hk, IH, Hl; [done|].
  intros id Hid. by apply Hall, list_elem_of_further.
Qed.

Lemma last_samples_state (s : Simulation) :
  synchronized s ->
  traverse_list (last_sample s) (Obj.keys (trajectory s)) = Ok (state_of s).
Proof.
  intros [_ Hlen]. apply last_samples_loop.
  intros id Hid. destruct (Obj_keys_get_Some _ _ Hid) as [tr Htr].
  destruct (Hlen id tr Htr) as (l & -> & _). exists l. by apply trajectory_of_get.
Qed.

Lemma appended_keys s sol y :
  Obj.keys (trajectory (appended s sol y)) = Obj.keys (trajectory s).
Proof.
  unfold appended. simpl.
  assert (Hgen : forall ks o, (forall k, k ∈ ks -> k ∈ Obj.keys o) ->
    Obj.keys (foldl (fun tr id_tr =>
                Obj.set tr id_tr
                  (Some (js_concat (default [] (mjoin (Obj.get tr id_tr)))
                                   (indexOf (Obj.keys (trajectory s)) id_tr ≫= (y !!.)))))
             o ks) = Obj.keys o).
  { induction ks as [|k ks IH]; intros o Hks; simpl; [done|].
    rewrite IH.
    - apply Obj_keys_set_Some, Obj_keys_get_Some, Hks, list_elem_of_here.
    - intros k' Hk'. rewrite Obj_keys_set_Some.
      + by apply Hks, list_elem_of_further.
      + apply Obj_keys_get_Some, Hks, list_elem_of_here. }
  by apply Hgen.
Qed.

Lemma appended_get s sol y id :
  Obj.wf (trajectory s) ->
  id ∈ Obj.keys (trajectory s) ->
  Obj.get (trajectory (appended s sol y)) id
  = Some (Some (js_concat (default [] (trajectory_of s id))
                          (indexOf (Obj.keys (trajectory s)) id ≫= (y !!.)))).
Proof.
  intros Hwf Hid. unfold appended. simpl.
  rewrite (foldl_set_get
    (fun old id_tr => Some (js_concat (default [] (mjoin old))
                                      (indexOf (Obj.keys (trajectory s)) id_tr ≫= (y !!.)))))
    by done.
  by rewrite bool_decide_eq_true_2 by done.
Qed.

Section Ticks.
Context {expr : ExpressionService} {ode : Integrator}.

Lemma update_state_unfold system config s sol y :
  synchronized s ->
  dopri 0%float (tick config) (state_of s) (fun t y => dY t y system) = Ok sol ->
  transpose (sol_y sol) = Ok y ->
  update_state system config s
  = if PrimFloat.ltb (buffer_size config)
         (to_num (last (time (appended s sol y))) - to_num (head (time (appended s sol y))))%float
    then trim (buffer_size config) (appended s sol y)
    else Normal tt (appended s sol y).
Proof.
  intros Hsync Hsol Hy. unfold update_state.
  rewrite (last_samples_state s Hsync). fold (tick config). by rewrite Hsol, Hy.
Qed.

Lemma appended_defined s sol y :
  Obj.wf (trajectory s) ->
  forall k, k ∈ Obj.keys (trajectory (appended s sol y)) ->
    exists l, Obj.get (trajectory (appended s sol y)) k = Some (Some l).
Proof.
  intros Hwf k Hk. rewrite appended_keys in Hk. rewrite appended_get by done. eauto.
Qed.

(** X23.  The outcome of a tick on a synchronized buffer is decided by
    the integrator, called on the interval from 0 to the tick length with
    the last entries of the trajectories: when it throws, [update_state]
    throws the same exception and the buffer is as before; when it returns
    no state, [update_state] throws a TypeError and the buffer is as before;
    otherwise [update_state] returns, with the same keys, and the last time
    is the last time of the extended time axis. *)
Theorem update_state_outcome system config (s : Simulation) :
  synchronized s ->
  match dopri 0%float (tick config) (state_of s) (fun t y => dY t y system) with
  | Throw e => update_state system config s = Abrupt e s
  | Ok sol =>
      match sol_y sol with
      | [] => update_state system config s = Abrupt TypeError s
      | _ :: _ =>
          exists s',
            update_state system config s = Normal tt s'
            /\ Obj.keys (trajectory s') = Obj.keys (trajectory s)
            /\ last (time s')
               = last (time s ++ map (fun t => (t + to_num (last (time s)))%float) (sol_x sol))
      end
  end.
Proof.
  intros Hsync.
  destruct (dopri _ _ _ _) as [sol|e] eqn:Hsol.
  2:{ unfold update_state. rewrite (last_samples_state s Hsync). fold (tick config).
      by rewrite Hsol. }
  destruct (sol_y sol) as [|row rows] eqn:Hrows.
  { unfold update_state. rewrite (last_samples_state s Hsync). fold (tick config).
    by rewrite Hsol, Hrows. }
  destruct (transpose (sol_y sol)) as [y|e] eqn:Hy; [|by rewrite Hrows in Hy].
  rewrite (update_state_unfold _ _ _ sol y Hsync Hsol Hy).
  destruct (PrimFloat.ltb _ _).
  - unfold trim.
    set (n := default 0 (indexOf_num (time (appended s sol y))
                (to_num (last (time (appended s sol y))) - buffer_size config)%float)).
    destruct (trim_loop n (Obj.keys (trajectory (appended s sol y)))
                {| time := drop n (time (appended s sol y));
                   trajectory := trajectory (appended s sol y) |})
      as (s' & Hs' & Ht' & _ & _).
    + rewrite appended_keys. apply Hsync.
    + simpl. apply (foldl_set_wf
        (fun old id_tr => Some (js_concat (default [] (mjoin old))
                                          (indexOf (Obj.keys (trajectory s)) id_tr ≫= (y !!.))))).
      apply Hsync.
    + simpl trajectory at 2. apply appended_defined, Hsync.
    + exists s'. split; [exact Hs'|]. split.
      * assert (Hf : s' = final_state (for_each (Obj.keys (trajectory (appended s sol y)))
                            (trim_trajectory n)
                            {| time := drop n (time (appended s sol y));
                               trajectory := trajectory (appended s sol y) |}))
          by by rewrite Hs'.
        rewrite Hf, trim_loop_keys. exact (appended_keys s sol y).
      * rewrite Ht'. simpl time at 1.
        assert (Hn : n = 0 \/ n < length (time (appended s sol y))).
        { subst n. unfold indexOf_num.
          destruct (index_where _ _) as [m|] eqn:Hm; simpl; [|by left].
          right. by eapply index_where_lt. }
        destruct Hn as [->|Hn]; [done|]. by rewrite last_drop_lt.
  - eexists. split; [reflexivity|]. split; [apply appended_keys|done].
Qed.

End Ticks.

Lemma appended_synchronized s sol y :
  synchronized s ->
  well_formed_solution (length (Obj.keys (trajectory s))) sol ->
  transpose (sol_y sol) = Ok y ->
  synchronized (appended s sol y).
Proof.
  intros [Hwf Hlen] [Hrows Hdim] Hy.
  destruct (transpose_columns _ _ _ Hy Hdim) as [Hn Hcols].
  split.
  - simpl. by apply (foldl_set_wf
      (fun old id_tr => Some (js_concat (default [] (mjoin old))
                                        (indexOf (Obj.keys (trajectory s)) id_tr ≫= (y !!.))))).
  - intros id tr Hget.
    assert (Hid : id ∈ Obj.keys (trajectory s)).
    { rewrite <- (appended_keys s sol y). eauto using Obj_get_Some_keys. }
    rewrite appended_get in Hget by done. inversion Hget; subst tr; clear Hget.
    destruct (Obj_keys_get_Some _ _ Hid) as [tr0 Htr0].
    destruct (Hlen _ _ Htr0) as (l & -> & Hl).
    unfold trajectory_of. rewrite Htr0. simpl.
    destruct (indexOf_elem _ _ Hid) as (i & -> & Hi). simpl.
    destruct (lookup_lt_is_Some_2 y i) as [col Hcol]; [lia|].
    rewrite Hcol. simpl. eexists. split; [reflexivity|].
    rewrite !length_app, length_map, (Hcols i col Hcol). by f_equal.
Qed.

Lemma appended_state s sol y :
  synchronized s ->
  well_formed_solution (length (Obj.keys (trajectory s))) sol ->
  transpose (sol_y sol) = Ok y ->
  state_of (appended s sol y) = map Some (default [] (last (sol_y sol))).
Proof.
  intros [Hwf Hlen] [Hrows Hdim] Hy. unfold state_of. rewrite appended_keys.
  unfold transpose in Hy. destruct (sol_y sol) as [|x0 rows] eqn:Hsol; [done|].
  inversion Hy; subst y; clear Hy.
  destruct (last (x0 :: rows)) as [last_row|] eqn:Hlast; [|by apply last_None in Hlast].
  assert (Hlr : length last_row = length (Obj.keys (trajectory s))).
  { apply last_Some_elem_of in Hlast. by apply (proj1 (Forall_forall _ _) Hdim). }
  assert (Hx0 : length x0 = length (Obj.keys (trajectory s))).
  { by apply Forall_cons in Hdim as [? _]. }
  simpl default. apply list_eq. intros i.
  rewrite !list_lookup_fmap.
  destruct (Obj.keys (trajectory s) !! i) as [id|] eqn:Hi; simpl.
  - assert (Hid : id ∈ Obj.keys (trajectory s)) by (apply list_elem_of_lookup; eauto).
    unfold trajectory_of. rewrite appended_get by done. simpl.
    rewrite (indexOf_lookup _ _ _ Hwf Hi). simpl.
    rewrite list_lookup_fmap, lookup_seq_lt by (apply lookup_lt_Some in Hi; lia). simpl.
    rewrite last_app_cons. simpl.
    assert (Hl : last (x0 !! i :: map (fun row => row !! i) rows) = Some (last_row !! i)).
    { change (x0 !! i :: map (fun row => row !! i) rows)
        with ((fun row : list num => row !! i) <$> (x0 :: rows)).
      by rewrite fmap_last, Hlast. }
    rewrite Hl. simpl.
    destruct (lookup_lt_is_Some_2 last_row i) as [v ->]; [|done].
    apply lookup_lt_Some in Hi. lia.
  - symmetry. rewrite lookup_ge_None_2; [done|]. apply lookup_ge_None in Hi. lia.
Qed.

Section Continuation.
Context {expr : ExpressionService} {ode : Integrator}.

(** X24.  When the integrator returns a non-empty solution with one state
    per time point, of the dimension of the buffer, [update_state] returns a
    synchronized buffer whose last entries are the components of the last
    state of the solution, trimmed or not: the next tick starts where this
    one has ended. *)
Theorem update_state_continues system config (s : Simulation) sol :
  synchronized s ->
  dopri 0%float (tick config) (state_of s) (fun t y => dY t y system) = Ok sol ->
  well_formed_solution (length (Obj.keys (trajectory s))) sol ->
  sol_y sol <> [] ->
  exists s',
    update_state system config s = Normal tt s'
    /\ synchronized s'
    /\ Obj.keys (trajectory s') = Obj.keys (trajectory s)
    /\ state_of s' = map Some (default [] (last (sol_y sol))).
Proof.
  intros Hsync Hsol Hwfs Hne.
  destruct (transpose (sol_y sol)) as [y|e] eqn:Hy.
  2:{ unfold transpose in Hy. by destruct (sol_y sol). }
  rewrite (update_state_unfold _ _ _ sol y Hsync Hsol Hy).
  assert (Hs1 := appended_synchronized s sol y Hsync Hwfs Hy).
  assert (Hst := appended_state s sol y Hsync Hwfs Hy).
  destruct (PrimFloat.ltb _ _).
  - destruct (trim_state (buffer_size config) _ Hs1) as (s' & Htrim & _ & Hkeys & Hstate).
    destruct (trim_synchronized (buffer_size config) _ Hs1) as (s'' & Htrim' & Hsync' & _).
    rewrite Htrim in Htrim'. inversion Htrim'; subst s''.
    exists s'. split; [done|]. split; [done|].
    split; [by rewrite Hkeys, appended_keys|]. by rewrite Hstate.
  - eexists. split; [reflexivity|]. split; [done|]. split; [apply appended_keys|done].
Qed.

End Continuation.

Lemma foldl_set_fresh_keys {V} (f : string -> V) (ks : list string) :
  NoDup ks -> Obj.keys (foldl (fun o k => Obj.set o k (f k)) [] ks) = ks.
Proof.
  intros Hnd.
  assert (Hgen : forall o, (forall k, k ∈ ks -> k ∉ Obj.keys o) ->
            Obj.keys (foldl (fun o k => Obj.set o k (f k)) o ks) = Obj.keys o ++ ks).
  { induction Hnd as [|k ks Hk Hnd IH]; intros o Hfresh; simpl; [by rewrite app_nil_r|].
    rewrite IH.
    - rewrite Obj_keys_set_None, <- app_assoc; [done|].
      apply Obj_get_None_keys, Hfresh, list_elem_of_here.
    - intros k' Hk'. rewrite Obj_set_keys_subseteq. intros [->|Hin]; [done|].
      by apply (Hfresh k'); [apply list_elem_of_further|]. }
  apply (Hgen []). intros k _. apply not_elem_of_nil.
Qed.

Section RealTime.
Context {expr : ExpressionService} {ode : Integrator}.

(** X25.  The buffer [simulate_in_real_time] hands to the timer, for a
    system with distinct species ids: the single time point 0, one
    trajectory per species in the order of registration, and as state for
    the first tick the current values of the species. *)
Theorem simulate_in_real_time_initial (S : System) :
  Obj.wf (species S) ->
  exists s,
    simulate_in_real_time S = Ok s
    /\ time s = [0%float]
    /\ Obj.keys (trajectory s) = Obj.keys (species S)
    /\ synchronized s
    /\ state_of s = initial_values S.
Proof.
  intros Hwf. unfold simulate_in_real_time, new_Simulation. simpl.
  eexists. split; [reflexivity|]. simpl.
  assert (Hkeys : Obj.keys (foldl (fun tr id =>
              Obj.set tr id ((fun s => [Some (value s)]) <$> Obj.get (species S) id))
            [] (Obj.keys (species S))) = Obj.keys (species S)).
  { by apply (foldl_set_fresh_keys
                (fun id => (fun s => [Some (value s)]) <$> Obj.get (species S) id)). }
  split; [done|]. split; [done|]. split.
  - apply (new_Simulation_synchronized (TheSystem S) None); [done|].
    intros sys sol _ Hsol. discriminate Hsol.
  - unfold state_of, initial_values. simpl. rewrite Hkeys.
    apply map_ext_in. intros id Hid%list_elem_of_In.
    unfold trajectory_of. simpl. rewrite foldl_set_const_get.
    rewrite bool_decide_eq_true_2 by done.
    destruct (Obj_keys_get_Some _ _ Hid) as [sp ->]. done.
Qed.

End RealTime.

(** X26.  A dose on a synchronized buffer with at least one time point
    adds the dose to the last entry of the trajectory of the species and
    changes nothing else: the time axis, the keys, the earlier entries and
    the other trajectories are as before. *)
Theorem perturb_adds_dose id dose (s : Simulation) l :
  synchronized s ->
  trajectory_of s id = Some l ->
  time s <> [] ->
  exists s',
    perturb id dose s = Normal tt s'
    /\ time s' = time s
    /\ Obj.keys (trajectory s') = Obj.keys (trajectory s)
    /\ trajectory_of s' id
       = Some (take (length l - 1) l ++ [Some (to_num (mjoin (last l)) + dose)%float])
    /\ (forall other, other <> id -> trajectory_of s' other = trajectory_of s other).
Proof.
  intros [Hwf Hlen] Hl Hne. unfold perturb. rewrite Hl.
  apply trajectory_of_get in Hl as Hget.
  destruct (Hlen id _ Hget) as (l' & [= <-] & Hll).
  destruct (length (time s)) as [|i] eqn:Ht.
  { destruct (time s); [done|simpl in Ht; lia]. }
  eexists. split; [reflexivity|]. simpl. split; [done|].
  split; [apply Obj_keys_set_Some; eauto|].
  split.
  - unfold trajectory_of. simpl. rewrite Obj_get_set_eq. simpl. f_equal.
    rewrite array_set_in_range by lia.
    rewrite Hll. replace (S i - 1) with i by lia.
    rewrite insert_take_drop by lia. rewrite drop_ge by lia.
    rewrite last_lookup, Hll. simpl. done.
  - intros other Hother. unfold trajectory_of. simpl. by rewrite Obj_get_set_ne.
Qed.

(** ** The earlier revision *)

Lemma foldl_imap_set_get {V} (f : nat -> string -> V) (ks : list string) :
  NoDup ks -> forall n (o : obj V) q,
  Obj.get (foldl (fun tr '(i, id) => Obj.set tr id (f i id)) o
                 (imap (fun i k => (n + i, k)) ks)) q
  = match indexOf ks q with
    | Some i => Some (f (n + i) q)
    | None => Obj.get o q
    end.
Proof.
  induction 1 as [|k ks Hk Hnd IH]; intros n o q; [done|].
  simpl. rewrite (imap_ext _ (fun i k0 => (S n + i, k0))).
  2:{ intros i x _. simpl. f_equal. lia. }
  rewrite IH. unfold indexOf. simpl.
  destruct (String.eqb_spec q k) as [->|Hne].
  - fold (indexOf ks k). rewrite indexOf_None by done. apply Obj_get_set_eq.
  - fold (indexOf ks q). destruct (indexOf ks q) as [i|]; simpl.
    + do 2 f_equal. lia.
    + by apply Obj_get_set_ne.
Qed.

Lemma foldl_imap_set_keys {V} (f : nat -> string -> V) (ks : list string) :
  NoDup ks -> forall n (o : obj V),
  (forall k, k ∈ ks -> k ∉ Obj.keys o) ->
  Obj.keys (foldl (fun tr '(i, id) => Obj.set tr id (f i id)) o
                  (imap (fun i k => (n + i, k)) ks))
  = Obj.keys o ++ ks.
Proof.
  induction 1 as [|k ks Hk Hnd IH]; intros n o Hfresh; [by rewrite app_nil_r|].
  simpl. rewrite (imap_ext _ (fun i k0 => (S n + i, k0))).
  2:{ intros i x _. simpl. f_equal. lia. }
  rewrite IH.
  - rewrite Obj_keys_set_None, <- app_assoc; [done|].
    apply Obj_get_None_keys, Hfresh, list_elem_of_here.
  - intros k' Hk'. rewrite Obj_set_keys_subseteq. intros [->|Hin]; [done|].
    by apply (Hfresh k'); [apply list_elem_of_further|].
Qed.

Section LegacySimulate.
Context {expr : ExpressionService} {ode : Integrator}.

Lemma simulate_species_model (ks : list string) :
  parse "0" = Ok (ConstantNode "0") ->
  forall n (sys : System),
  (forall k, k ∈ ks -> k ∈ Obj.keys (species sys)) ->
  n <= length (model sys) ->
  for_each (imap (fun i k => (n + i, k)) ks) simulate_species sys
  = Normal tt (set_model sys (take n (model sys) ++ map (slot_of (species sys)) ks
                            ++ drop (n + length ks) (model sys))).
Proof.
  intros Hzero. induction ks as [|k ks IH]; intros n sys Hks Hn.
  - simpl. rewrite Nat.add_0_r, take_drop. by destruct sys.
  - destruct (Obj_keys_get_Some (species sys) k) as [s Hs]; [apply Hks, list_elem_of_here|].
    assert (Hslot : compiled_rate_law s = Ok (slot_of (species sys) k)).
    { unfold compiled_rate_law, slot_of. rewrite Hs. simpl.
      destruct (expression (rate_law s)); simpl; [done|]. by rewrite Hzero. }
    assert (Hstep : simulate_species (n + 0, k) sys
                    = Normal tt (set_model sys (array_set Hole (model sys) n
                                                  (slot_of (species sys) k)))).
    { unfold simulate_species. by rewrite Hs, Hslot, Nat.add_0_r. }
    rewrite imap_cons. cbn [for_each]. rewrite Hstep. cbn [and_then].
    rewrite (imap_ext _ (fun i k0 => (S n + i, k0))).
    2:{ intros i x _. simpl. f_equal. lia. }
    rewrite IH; simpl.
    + f_equal. unfold set_model. simpl. f_equal.
      rewrite array_set_le by done.
      destruct (take_drop_after (take n (model sys)) (drop (S n) (model sys))
                  (slot_of (species sys) k) n (length ks)) as [Ht Hd].
      { rewrite length_take. lia. }
      replace (n + 1) with (S n) in Ht, Hd by lia.
      change (S n + length ks) with (S (n + length ks)) in Hd. rewrite Ht, Hd.
      rewrite drop_drop, <- !app_assoc. simpl. do 3 f_equal. f_equal. lia.
    + intros k' Hk'. by apply Hks, list_elem_of_further.
    + rewrite array_set_length. lia.
Qed.

Lemma simulate_first_loop (S : System) :
  parse "0" = Ok (ConstantNode "0") ->
  for_each (imap pair (Obj.keys (species S))) simulate_species S
  = Normal tt (with_evaluators S).
Proof.
  intros Hzero.
  rewrite (imap_ext _ (fun i k => (0 + i, k))) by done.
  rewrite simulate_species_model; [|done|done|lia]. by rewrite take_0.
Qed.

(** X27.  In the earlier revision [simulate] returns: with distinct
    species ids, a parser that reads "0", and an integrator that returns a
    non-empty solution with one state per time point, the simulation holds
    the time points of the solution and, for the [i]-th species, the [i]-th
    component of every state; it is synchronized.  The system keeps its
    species, whose values are not written back; its model holds the
    evaluators of the current rate laws. *)
Theorem simulate_legacy_returns t0 tf (S : System) sol :
  parse "0" = Ok (ConstantNode "0") ->
  Obj.wf (species S) ->
  dopri t0 tf (initial_values S) (fun t y => dY t y (with_evaluators S)) = Ok sol ->
  well_formed_solution (length (Obj.keys (species S))) sol ->
  sol_y sol <> [] ->
  exists s,
    simulate_legacy t0 tf S = Normal s (with_evaluators S)
    /\ species (with_evaluators S) = species S
    /\ time s = sol_x sol
    /\ Obj.keys (trajectory s) = Obj.keys (species S)
    /\ (forall i id, Obj.keys (species S) !! i = Some id ->
          trajectory_of s id = Some (map (fun row => row !! i) (sol_y sol)))
    /\ synchronized s.
Proof.
  intros Hzero Hwf Hsol [Hrows Hdim] Hne. unfold simulate_legacy.
  rewrite simulate_first_loop by done. cbn [and_then].
  change (initial_values (with_evaluators S)) with (initial_values S).
  rewrite Hsol. unfold new_Simulation_legacy.
  destruct (transpose (sol_y sol)) as [y|e] eqn:Hy.
  2:{ unfold transpose in Hy. by destruct (sol_y sol). }
  cbn [mbind result_bind species with_evaluators set_model].
  destruct (transpose_columns _ _ _ Hy Hdim) as [Hn Hcols].
  eexists. split; [reflexivity|]. split; [done|]. split; [done|].
  assert (Hkeys : Obj.keys (foldl (fun tr '(i_sp, id) => Obj.set tr id (y !! i_sp)) []
                             (imap pair (Obj.keys (species S)))) = Obj.keys (species S)).
  { rewrite (imap_ext _ (fun i k => (0 + i, k))) by done.
    rewrite (foldl_imap_set_keys (fun i _ => y !! i)); [done|done|].
    intros k _. apply not_elem_of_nil. }
  assert (Hget : forall i id, Obj.keys (species S) !! i = Some id ->
            Obj.get (foldl (fun tr '(i_sp, id) => Obj.set tr id (y !! i_sp)) []
                       (imap pair (Obj.keys (species S)))) id = Some (y !! i)).
  { intros i id Hi. rewrite (imap_ext _ (fun i k => (0 + i, k))) by done.
    rewrite (foldl_imap_set_get (fun i _ => y !! i)) by done.
    by rewrite (indexOf_lookup _ _ _ Hwf Hi). }
  assert (Hcol : forall i, i < length (Obj.keys (species S)) ->
            y !! i = Some (map (fun row => row !! i) (sol_y sol))).
  { intros i Hi. unfold transpose in Hy. destruct (sol_y sol) as [|x0 rows] eqn:Hs; [done|].
    inversion Hy; subst y. rewrite list_lookup_fmap, lookup_seq_lt; [done|].
    apply Forall_cons in Hdim as [Hx0 _]. lia. }
  simpl. split; [done|]. split.
  - intros i id Hi. unfold trajectory_of. simpl. rewrite (Hget i id Hi). simpl.
    apply Hcol. by apply lookup_lt_Some in Hi.
  - split; simpl.
    + unfold Obj.wf. by rewrite Hkeys.
    + intros id tr Hid.
      assert (Hin : id ∈ Obj.keys (species S)).
      { rewrite <- Hkeys. eauto using Obj_get_Some_keys. }
      apply list_elem_of_lookup in Hin as [i Hi]. rewrite (Hget i id Hi) in Hid.
      inversion Hid; subst tr. rewrite Hcol by (by apply lookup_lt_Some in Hi).
      eexists. split; [reflexivity|]. by rewrite length_map.
Qed.

End LegacySimulate.

Section LegacyInteraction.
Context {expr : ExpressionService}.

(** X28.  In the earlier revision one turn of the substitution loop of
    [Interaction], which parses the printed rule, renames the symbols of the
    new tree and extends the rate law of the species, leaves every node
    object that existed before as it was: the rule of the definition reads
    as the same tree as before. *)
Theorem substitute_rule_legacy_keeps_template tbl h root rate_law h' l e :
  Heap.substitute_rule_legacy tbl h root rate_law = Ok (h', l) ->
  Heap.read (length h) h root = Some e ->
  Heap.read (length h) h' root = Some e
  /\ length h <= length h'
  /\ forall l0, l0 < length h -> h' !! l0 = h !! l0.
Proof.
  intros Hsub Hread.
  assert (Hext := substitute_rule_legacy_extends _ _ _ _ _ _ Hsub).
  split; [by apply (read_extends h h')|]. exact Hext.
Qed.

End LegacyInteraction.

(** ** Sequences of calls *)

Lemma delete_property_wf {V} (o : obj V) k : Obj.wf o -> Obj.wf (delete_property o k).
Proof.
  unfold Obj.wf. induction o as [|[k' v] o IH]; simpl; [done|].
  intros [Hnin Hnd]%NoDup_cons.
  destruct (String.eqb_spec k' k) as [->|Hne]; simpl; [by apply IH|].
  apply NoDup_cons. split; [|by apply IH].
  intros Hin. apply Hnin.
  apply Obj_keys_get_Some in Hin as [v' Hv'].
  rewrite delete_property_get_ne in Hv' by done. eauto using Obj_get_Some_keys.
Qed.

Lemma participants_filtered (S : System) (keep : InteractionDefinition -> bool) :
  participants_registered S ->
  participants_registered (set__interactions S (List.filter keep (_interactions S))).
Proof.
  intros Hreg c Hc. simpl in *. apply Hreg.
  apply list_elem_of_In, in_flat_map in Hc as (inst & Hinst & Hc).
  apply filter_In in Hinst as [Hinst _].
  apply list_elem_of_In, in_flat_map. eauto.
Qed.

Lemma removeSpecies_compilable identifier (S : System) :
  compilable S -> compilable (final_state (removeSpecies identifier S)).
Proof.
  intros [Hwf Hreg]. rewrite removeSpecies_unfold. split; simpl.
  - by apply delete_property_wf.
  - intros c Hc. simpl in *.
    apply list_elem_of_In, in_flat_map in Hc as (inst & Hinst & Hc).
    apply filter_In in Hinst as [Hinst Hnot]. apply list_elem_of_In in Hc.
    assert (Hvar := contributions_variables _ _ Hc).
    assert (Hne : c.1 <> identifier).
    { intros Heq. rewrite Heq in Hvar. apply includes_spec in Hvar. by rewrite Hvar in Hnot. }
    assert (Hold : c.1 ∈ Obj.keys (species S)).
    { apply Hreg. apply list_elem_of_In, in_flat_map. exists inst.
      split; [done|]. by apply list_elem_of_In. }
    apply Obj_keys_get_Some in Hold as [s Hs].
    apply (Obj_get_Some_keys _ _ s). by rewrite delete_property_get_ne.
Qed.

Section Calls.
Context {expr : ExpressionService} {parser : ParserService}.
Hypothesis parse_zero : parse "0" = Ok (ConstantNode "0").

Lemma Interaction_variables (S : System) base v_args p_args inst x :
  Interaction S base v_args p_args = Ok inst -> x ∈ variables inst -> x ∈ v_args.
Proof.
  unfold Interaction.
  destruct (for_result _ _ _) as [rs|err] eqn:Hloop; simpl; [|done].
  apply copy_loop_keys in Hloop. simpl in Hloop.
  rewrite (new_rules_keys v_args []) in Hloop.
  assert (Hin : x ∈ Obj.keys rs -> x ∈ v_args).
  { rewrite Hloop. intros [Hin|Hin]%first_seen_elem; [by apply elem_of_nil in Hin|done]. }
  assert (Hmap : forall tbl,
            Obj.keys (map (fun '(r_id, r) =>
                             (r_id, set_expression r (substitute tbl <$> expression r))) rs)
            = Obj.keys rs).
  { intros tbl. unfold Obj.keys. rewrite map_map. apply map_ext. by intros [k r]. }
  destruct (negb (all_registered (species S) v_args)); [by intros [= <-]|].
  destruct (negb (all_registered (parameters S) p_args)); [by intros [= <-]|].
  destruct (negb (length v_args =? length (variables base))%nat); [by intros [= <-]|].
  destruct (negb (length p_args =? length (parameters_of base))%nat); [by intros [= <-]|].
  intros [= <-]. unfold variables. simpl. by rewrite Hmap.
Qed.

Lemma Interaction_participants (S : System) base v_args p_args inst c :
  Interaction S base v_args p_args = Ok inst ->
  all_registered (species S) v_args = true ->
  c ∈ contributions inst -> c.1 ∈ Obj.keys (species S).
Proof.
  intros Hinst Hargs Hc. apply contributions_variables in Hc.
  apply (all_registered_elem _ v_args); [done|].
  by apply (Interaction_variables S base v_args p_args inst).
Qed.

Lemma addInteraction_compilable id v_args p_args (S : System) :
  all_registered (species S) v_args = true ->
  compilable S ->
  compilable (final_state (addInteraction id v_args p_args S)).
Proof.
  intros Hargs [Hwf Hreg]. unfold addInteraction.
  destruct (Obj.get (interactions S) id) as [base|]; [|done].
  destruct (Interaction S base v_args p_args) as [inst|err] eqn:Hinst; [|done].
  split; [done|]. intros c Hc. simpl in *. rewrite flat_map_app in Hc.
  apply elem_of_app in Hc as [Hc|Hc]; [by apply Hreg|].
  simpl in Hc. rewrite app_nil_r in Hc.
  by apply (Interaction_participants S base v_args p_args inst).
Qed.

(** X29. A call of [addInteraction] whose species arguments are registered
    keeps a compilable system compilable, whether the call is accepted,
    rejected for its parameter arguments or for the number of its
    arguments, or throws: [compile] returns afterwards. The call changes
    neither the species, the parameters, the definitions nor the model. *)
Theorem addInteraction_registered_species_keeps_compilable id v_args p_args (S : System) :
  all_registered (species S) v_args = true ->
  compilable S ->
  let S' := final_state (addInteraction id v_args p_args S) in
  compilable S'
  /\ compile S' = Normal tt (compiled S')
  /\ species S' = species S
  /\ parameters S' = parameters S
  /\ interactions S' = interactions S
  /\ model S' = model S.
Proof.
  intros Hargs Hc S'.
  assert (Hc' : compilable S') by by apply addInteraction_compilable.
  split; [done|]. split; [destruct Hc' as [Hwf' Hreg']; by apply compile_compiled|].
  subst S'. unfold addInteraction.
  destruct (Obj.get (interactions S) id) as [base|]; [|done].
  by destruct (Interaction S base v_args p_args).
Qed.

Lemma call_compilable (S S' : System) :
  call S S' -> compilable S -> compilable S'.
Proof.
  intros Hcall Hc. destruct Hcall as
    [identifier v name S|identifier S|identifier v name S|name vs S
    |id v_args p_args S Hargs|identifiers S|name S|S].
  - destruct Hc as [Hwf Hreg]. split; simpl.
    + by apply Obj_set_wf.
    + intros c Hin. simpl. apply Obj_set_keys_subseteq. right. by apply Hreg.
  - by apply removeSpecies_compilable.
  - unfold addParameter. by destruct (parser_eval _).
  - done.
  - by apply addInteraction_compilable.
  - rewrite removeInteractionsBySpecies_loop. destruct Hc as [Hwf Hreg].
    split; [done|]. by apply participants_filtered.
  - unfold removeInteractionsByName. rewrite remove_backwards. destruct Hc as [Hwf Hreg].
    split; [done|]. by apply participants_filtered.
  - destruct Hc as [Hwf Hreg]. rewrite compile_compiled by done. split.
    + unfold Obj.wf. simpl final_state. by rewrite compiled_keys.
    + intros c Hin. simpl final_state. rewrite compiled_keys. by apply Hreg.
Qed.


End Calls.

(** ** The further properties on concrete systems *)

Lemma single_trajectory_synchronized id (l : list sample) (t : list num) :
  length l = length t ->
  synchronized {| time := t; trajectory := [(id, Some l)] |}.
Proof.
  intros Hlen. split; simpl.
  - apply NoDup_singleton.
  - intros q tr. destruct (String.eqb id q); [|done]. intros [= <-]. eauto.
Qed.

Lemma decay_buffer_synchronized : synchronized Example.decay_buffer.
Proof. by apply single_trajectory_synchronized. Qed.

Lemma unit_buffer_synchronized : synchronized Example.unit_buffer.
Proof. by apply single_trajectory_synchronized. Qed.

Lemma decay_compiled_wf : Obj.wf (species Example.decay_compiled).
Proof. unfold Obj.wf. simpl. apply NoDup_singleton. Qed.

Lemma decay_B_unregistered : "B" ∉ Obj.keys (species Example.decay_system).
Proof. simpl. by intros ?%list_elem_of_singleton. Qed.

Lemma pair_distinct (a b : string) : a <> b -> NoDup [a; b].
Proof.
  intros Hne. apply NoDup_cons. split; [|apply NoDup_singleton].
  by intros ?%list_elem_of_singleton.
Qed.

Lemma bolus_rules_wf : Obj.wf (rules Demo.bolus_absorption).
Proof. unfold Obj.wf. simpl. by apply pair_distinct. Qed.

Lemma bolus_reads_back : reads_back (expr := Demo.math) Demo.bolus_absorption.
Proof.
  intros e He. simpl in He.
  apply elem_of_cons in He as [->|He]; [reflexivity|].
  apply list_elem_of_singleton in He as ->. reflexivity.
Qed.

Lemma bolus_rules_set k r :
  Obj.get (rules Demo.bolus_absorption) k = Some r -> is_Some (expression r).
Proof.
  cbn -[String.eqb]. destruct (String.eqb "g" k); [intros [= <-]; eauto|].
  destruct (String.eqb "i" k); [intros [= <-]; eauto|done].
Qed.

Lemma removeSpecies_registered_witness :
  Obj.keys (species Example.decay_bound) !! 0 = Some "A"
  /\ exists S',
       removeSpecies "A" Example.decay_bound = Normal tt S'
       /\ Obj.keys (species S') = []
       /\ model S' = []
       /\ _interactions S' = [].
Proof.
  split; [reflexivity|].
  destruct (removeSpecies_registered "A" Example.decay_bound 0 decay_bound_wf eq_refl)
    as (S' & Hremove & Hkeys & _ & _ & Hmodel & Hinst & _).
  exists S'. split; [exact Hremove|]. split; [exact Hkeys|]. split; [exact Hmodel|exact Hinst].
Defined.

Lemma removeSpecies_unregistered_witness :
  ("B" ∉ Obj.keys (species Example.decay_system))
  /\ exists S',
       removeSpecies "B" Example.decay_system = Normal tt S'
       /\ species S' = species Example.decay_system
       /\ model Example.decay_system = [Null]
       /\ model S' = [].
Proof.
  split; [exact decay_B_unregistered|].
  destruct (removeSpecies_unregistered "B" Example.decay_system decay_B_unregistered)
    as (S' & Hremove & Hspecies & Hmodel & _).
  exists S'. split; [exact Hremove|]. split; [exact Hspecies|]. split; [reflexivity|exact Hmodel].
Defined.




Section MoreCases.
#[local] Existing Instance Example.math.
#[local] Existing Instance Example.numeric.

Lemma decay_rejected_participant :
  ("B", Example.times (Example.minus (SymbolNode "k")) (SymbolNode "a"))
    ∈ flat_map contributions (_interactions Demo.decay_rejected).
Proof. simpl. apply list_elem_of_here. Qed.

Lemma compile_idempotent_witness :
  compile Example.decay_bound = Normal tt Example.decay_compiled
  /\ compile Example.decay_compiled = Normal tt Example.decay_compiled.
Proof.
  split; [reflexivity|].
  exact (compile_idempotent (expr := Example.math) Example.decay_bound
           Example.decay_compiled eq_refl decay_bound_wf decay_bound_registered eq_refl).
Defined.

Lemma compile_unregistered_participant_throws_witness :
  ("B" ∉ Obj.keys (species Demo.decay_rejected))
  /\ exists S',
       compile Demo.decay_rejected = Abrupt TypeError S'
       /\ model S' = [Null].
Proof.
  split; [exact decay_B_unregistered|].
  destruct (compile_unregistered_participant_throws (expr := Example.math) Demo.decay_rejected _
              decay_rejected_participant decay_B_unregistered)
    as (S' & Hcompile & Hmodel & _).
  exists S'. split; [exact Hcompile|exact Hmodel].
Defined.

Lemma compile_then_dY_witness :
  compile Example.decay_bound = Normal tt Example.decay_compiled
  /\ dY 0%float [10%float] Example.decay_compiled
     = traverse_list
         (fun sp => eval (default (ConstantNode "0")
                                  (sum_of_terms (terms_for Example.decay_bound sp)))
                         (dY_scope Example.decay_bound [10%float]))
         ["A"]
  /\ dY 0%float [10%float] Example.decay_compiled = Ok [(-5)%float].
Proof.
  split; [reflexivity|]. split; [|vm_compute; reflexivity].
  exact (compile_then_dY (expr := Example.math) 0%float [10%float] Example.decay_bound
           Example.decay_compiled eq_refl decay_bound_wf decay_bound_registered
           eq_refl eq_refl).
Defined.

Lemma addSpecies_then_dY_throws_witness :
  length (Obj.keys (species (addSpecies "B" 1%float None Example.decay_compiled))) <= 2
  /\ exists e,
       dY 0%float [10%float; 1%float] (addSpecies "B" 1%float None Example.decay_compiled)
       = Throw e.
Proof.
  assert (Hlen : length (Obj.keys (species (addSpecies "B" 1%float None
                                               Example.decay_compiled))) <= 2)
    by (simpl; lia).
  split; [exact Hlen|].
  exact (addSpecies_then_dY_throws (expr := Example.math) "B" 1%float None 0%float
           [10%float; 1%float] Example.decay_compiled Hlen).
Defined.

Lemma removeSpecies_then_compile_witness :
  Obj.keys (species Example.decay_bound) !! 0 = Some "A"
  /\ exists S1,
       removeSpecies "A" Example.decay_bound = Normal tt S1
       /\ compile S1 = Normal tt (compiled S1).
Proof.
  split; [reflexivity|].
  destruct (removeSpecies_then_compile (expr := Example.math) "A" Example.decay_bound 0 eq_refl
              decay_bound_wf decay_bound_registered eq_refl)
    as (S1 & Hremove & _ & _ & Hcompile).
  exists S1. split; [exact Hremove|exact Hcompile].
Defined.

Lemma addInteraction_rejected_witness :
  accepted Example.decay_system Example.decay ["B"] ["k"] = false
  /\ ((exists e, addInteraction "decay" ["B"] ["k"] Example.decay_system
                 = Abrupt e Example.decay_system)
      \/ exists this_rules,
           for_result (seq 0 (length (Obj.keys (rules Example.decay))))
                      (copy_rule Example.decay)
                      (rules (new_InteractionDefinition (def_name Example.decay) ["B"]))
           = Ok this_rules
           /\ addInteraction "decay" ["B"] ["k"] Example.decay_system
              = Normal tt (set__interactions Example.decay_system
                  (_interactions Example.decay_system
                   ++ [{| def_name := def_name Example.decay; rules := this_rules |}]))).
Proof.
  split; [reflexivity|].
  exact (addInteraction_rejected (expr := Example.math) "decay" ["B"] ["k"]
           Example.decay_system Example.decay eq_refl eq_refl).
Defined.

End MoreCases.

Lemma glucose_twice : ~ NoDup ["Glucose"; "Glucose"].
Proof.
  intros Hnd. apply NoDup_cons in Hnd as [Hnin _]. apply Hnin, list_elem_of_here.
Qed.

Lemma glucose_twice_defined : "undefined" ∉ ["Glucose"; "Glucose"].
Proof.
  intros [Heq|Hin]%elem_of_cons; [done|].
  by apply list_elem_of_singleton in Hin.
Qed.

Lemma glucose_cake : NoDup ["Glucose"; "cake"].
Proof. by apply pair_distinct. Qed.

Lemma addInteraction_accepted_substitutes_witness :
  accepted Demo.meal_system Demo.bolus_absorption ["Glucose"; "cake"] ["GI0"] = true
  /\ none_integer_like ["Glucose"; "cake"] = true
  /\ exists inst,
       addInteraction (expr := Demo.math) "bolus absorption" ["Glucose"; "cake"] ["GI0"]
         Demo.meal_system
       = Normal tt (set__interactions Demo.meal_system [inst])
       /\ variables inst = ["Glucose"; "cake"]
       /\ Obj.get (rules inst) "Glucose" ≫= expression
          = Some (Example.times (SymbolNode "GI0") (SymbolNode "cake"))
       /\ Obj.get (rules inst) "cake" ≫= expression
          = Some (Example.times (Example.minus (SymbolNode "GI0")) (SymbolNode "cake")).
Proof.
  split; [reflexivity|]. split; [reflexivity|].
  destruct (addInteraction_accepted_substitutes (expr := Demo.math)
              "bolus absorption" ["Glucose"; "cake"] ["GI0"] Demo.meal_system
              Demo.bolus_absorption eq_refl eq_refl bolus_rules_wf glucose_cake
              eq_refl bolus_reads_back)
    as (inst & Hadd & _ & Hvars & Hrules & _).
  exists inst. split; [exact Hadd|]. split; [exact Hvars|]. split.
  - exact (proj1 (Hrules 0 "Glucose" "g" _ eq_refl eq_refl)).
  - exact (proj1 (Hrules 1 "cake" "i" _ eq_refl eq_refl)).
Defined.

Lemma addInteraction_accepted_closed_witness :
  accepted Demo.meal_system Demo.bolus_absorption ["Glucose"; "cake"] ["GI0"] = true
  /\ exists inst,
       addInteraction (expr := Demo.math) "bolus absorption" ["Glucose"; "cake"] ["GI0"]
         Demo.meal_system
       = Normal tt (set__interactions Demo.meal_system [inst])
       /\ (forall e x, e ∈ rule_expressions inst -> x ∈ symbols e ->
             x ∈ Obj.keys (species Demo.meal_system)
             \/ x ∈ Obj.keys (parameters Demo.meal_system))
       /\ participants_registered (set__interactions Demo.meal_system [inst]).
Proof.
  split; [reflexivity|].
  destruct (addInteraction_accepted_closed (expr := Demo.math)
              "bolus absorption" ["Glucose"; "cake"] ["GI0"] Demo.meal_system
              Demo.bolus_absorption eq_refl eq_refl bolus_reads_back)
    as [[Hthrow|(inst & Hadd & Hclosed & _ & Hreg)] _].
  - vm_compute in Hthrow. discriminate Hthrow.
  - exists inst. split; [exact Hadd|]. split; [exact Hclosed|]. apply Hreg.
    intros c Hc. simpl in Hc. by apply elem_of_nil in Hc.
Defined.

Lemma addInteraction_repeated_species_throws_witness :
  length ["Glucose"; "Glucose"] = length (rules Demo.bolus_absorption)
  /\ addInteraction (expr := Demo.math) "bolus absorption" ["Glucose"; "Glucose"] ["GI0"]
       Demo.meal_system
     = Abrupt TypeError Demo.meal_system.
Proof.
  split; [reflexivity|].
  exact (addInteraction_repeated_species_throws (expr := Demo.math)
           "bolus absorption" ["Glucose"; "Glucose"] ["GI0"] Demo.meal_system
           Demo.bolus_absorption eq_refl bolus_rules_wf bolus_reads_back bolus_rules_set
           eq_refl glucose_twice glucose_twice_defined).
Defined.

Lemma trim_keeps_latest_witness :
  synchronized Example.unit_buffer
  /\ exists s',
       trim 10%float Example.unit_buffer = Normal tt s'
       /\ last (time s') = Some 25%float
       /\ state_of s' = [Some 25%float].
Proof.
  split; [exact unit_buffer_synchronized|].
  destruct (trim_keeps_latest 10%float Example.unit_buffer unit_buffer_synchronized)
    as (s' & Htrim & _ & Hlast & _ & Hstate).
  exists s'. split; [exact Htrim|]. split; [exact Hlast|exact Hstate].
Defined.


Lemma perturb_adds_dose_witness :
  synchronized Example.decay_buffer
  /\ exists s',
       perturb "A" 2%float Example.decay_buffer = Normal tt s'
       /\ trajectory_of s' "A" = Some [Some 12%float].
Proof.
  split; [exact decay_buffer_synchronized|].
  assert (Htime : time Example.decay_buffer <> []) by discriminate.
  destruct (perturb_adds_dose "A" 2%float Example.decay_buffer [Some 10%float]
              decay_buffer_synchronized eq_refl Htime)
    as (s' & Hperturb & _ & _ & Hdose & _).
  exists s'. split; [exact Hperturb|exact Hdose].
Defined.

Section MoreTicks.
#[local] Existing Instance Example.math.
#[local] Existing Instance Example.numeric.

Lemma update_state_outcome_witness :
  synchronized Example.decay_buffer
  /\ exists s',
       update_state Example.decay_compiled Example.default_config Example.decay_buffer
       = Normal tt s'
       /\ Obj.keys (trajectory s') = ["A"]
       /\ last (time s') = Some 0.0625%float.
Proof.
  split; [exact decay_buffer_synchronized|].
  exact (update_state_outcome Example.decay_compiled Example.default_config
           Example.decay_buffer decay_buffer_synchronized).
Defined.

Lemma decay_tick_well_formed : well_formed_solution 1 Demo.decay_tick.
Proof. split; [reflexivity|]. repeat constructor. Qed.

Lemma update_state_continues_witness :
  dopri 0%float (tick Example.default_config) (state_of Example.decay_buffer)
        (fun t y => dY t y Example.decay_compiled) = Ok Demo.decay_tick
  /\ exists s',
       update_state Example.decay_compiled Example.default_config Example.decay_buffer
       = Normal tt s'
       /\ state_of s' = [Some 9.6875%float].
Proof.
  assert (Hsol : dopri 0%float (tick Example.default_config) (state_of Example.decay_buffer)
                   (fun t y => dY t y Example.decay_compiled) = Ok Demo.decay_tick)
    by (vm_compute; reflexivity).
  assert (Hne : sol_y Demo.decay_tick <> []) by discriminate.
  split; [exact Hsol|].
  destruct (update_state_continues Example.decay_compiled Example.default_config
              Example.decay_buffer Demo.decay_tick decay_buffer_synchronized Hsol
              decay_tick_well_formed Hne)
    as (s' & Hupdate & _ & _ & Hstate).
  exists s'. split; [exact Hupdate|exact Hstate].
Defined.

Lemma simulate_in_real_time_initial_witness :
  Obj.wf (species Example.decay_compiled)
  /\ exists s,
       simulate_in_real_time Example.decay_compiled = Ok s
       /\ time s = [0%float]
       /\ state_of s = [Some 10%float].
Proof.
  split; [exact decay_compiled_wf|].
  destruct (simulate_in_real_time_initial Example.decay_compiled decay_compiled_wf)
    as (s & Hstart & Htime & _ & _ & Hstate).
  exists s. split; [exact Hstart|]. split; [exact Htime|exact Hstate].
Defined.

Lemma decay_run_well_formed : well_formed_solution 1 Demo.decay_run.
Proof. split; [reflexivity|]. repeat constructor. Qed.

Lemma simulate_legacy_returns_witness :
  dopri 0%float 1%float (initial_values Example.decay_compiled)
        (fun t y => dY t y (with_evaluators Example.decay_compiled)) = Ok Demo.decay_run
  /\ exists s,
       simulate_legacy 0%float 1%float Example.decay_compiled
       = Normal s (with_evaluators Example.decay_compiled)
       /\ time s = [0; 1]%float
       /\ trajectory_of s "A" = Some [Some 10%float; Some 5%float].
Proof.
  assert (Hsol : dopri 0%float 1%float (initial_values Example.decay_compiled)
                   (fun t y => dY t y (with_evaluators Example.decay_compiled))
                 = Ok Demo.decay_run)
    by (vm_compute; reflexivity).
  assert (Hne : sol_y Demo.decay_run <> []) by discriminate.
  split; [exact Hsol|].
  destruct (simulate_legacy_returns (expr := Example.math) 0%float 1%float
              Example.decay_compiled Demo.decay_run eq_refl decay_compiled_wf Hsol
              decay_run_well_formed Hne)
    as (s & Hsim & _ & Htime & _ & Htraj & _).
  exists s. split; [exact Hsim|]. split; [exact Htime|].
  exact (Htraj 0 "A" eq_refl).
Defined.

Lemma substitute_rule_legacy_keeps_template_witness :
  Heap.substitute_rule_legacy Demo.decay_table Example.decay_heap 3 None
  = Ok Demo.legacy_store
  /\ Heap.read 4 Demo.legacy_store.1 3
     = Some (Example.times (Example.minus (SymbolNode "k")) (SymbolNode "a"))
  /\ Heap.read 4 Demo.legacy_store.1 7
     = Some (Example.times (Example.minus (SymbolNode "k")) (SymbolNode "A")).
Proof.
  assert (Hsub : Heap.substitute_rule_legacy Demo.decay_table Example.decay_heap 3 None
                 = Ok Demo.legacy_store)
    by (vm_compute; reflexivity).
  split; [exact Hsub|]. split; [|reflexivity].
  exact (proj1 (substitute_rule_legacy_keeps_template (expr := Example.math)
                  Demo.decay_table Example.decay_heap 3 None
                  Demo.legacy_store.1 Demo.legacy_store.2 _ Hsub eq_refl)).
Defined.

End MoreTicks.

(** ** Sequences of calls, on the decay system *)

Lemma decay_system_compilable : compilable Example.decay_system.
Proof.
  split; [unfold Obj.wf; simpl; apply NoDup_singleton|].
  intros c Hc. simpl in Hc. by apply elem_of_nil in Hc.
Qed.

Lemma addInteraction_registered_species_keeps_compilable_witness :
  all_registered (species Example.decay_system) ["A"] = true
  /\ accepted Example.decay_system Example.decay ["A"] ["zz"] = false
  /\ compilable (final_state (addInteraction (expr := Example.math) "decay" ["A"] ["zz"]
                                Example.decay_system))
  /\ length (_interactions
               (final_state (addInteraction (expr := Example.math) "decay" ["A"] ["zz"]
                               Example.decay_system))) = 1.
Proof.
  split; [reflexivity|]. split; [reflexivity|]. split; [|reflexivity].
  exact (proj1 (addInteraction_registered_species_keeps_compilable (expr := Example.math)
                  eq_refl "decay" ["A"] ["zz"] Example.decay_system eq_refl
                  decay_system_compilable)).
Defined.

